(** * DrawingImposter2: the room server (server index.ts and words.ts)

    A shallow embedding of the socket.io game server.  Every handler of the
    server mutates one [RoomState] object found through the two global maps
    [rooms] and [socketToRoom]; the only autonomous transition is the turn
    timeout armed by [startTurn].

    Conventions of the embedding.
    - Identities are socket.io connection ids: texts of 20 characters
      that the server generates, hence never an array index and never
      [__proto__].  The [votes] object, which is keyed by them, is an
      association list in the order of its enumeration: a key that is
      assigned again keeps its place, a new key goes last.  The
      [leaderboard], whose order is never observed, is a [gmap].
    - The tally of [computeVoting] is keyed by the accused identities,
      which are texts chosen by the clients.  It is an association list in
      the order of enumeration of an ordinary object: names that are array
      indices first, in ascending order, then the other names in the order
      of their creation; and reading a name goes through [Object.prototype]
      when the tally has no such property of its own.
    - Texts are strings of ASCII characters, on which the functions of
      [Module Js] are those of [String.prototype]; a statement that depends
      on [trim], [toLowerCase] or [toUpperCase] of a text that a client
      chooses assumes that the text is ASCII ([Js.is_ascii]).
      [null] and [undefined] are [None].
    - Room objects live in a store ([heap]) and are named by references,
      since the closure of a timeout keeps the room object it was armed for
      even when the registry no longer holds it.
    - [Math.random], [Date.now] and the nanoid generator are inputs of the
      actions that use them; the payloads of the actions have the types
      the handlers declare.
    - Every [emit], [socket.join] and acknowledgement call is appended to an
      output log; [Ack] stands for the call [cb?.(...)].
    - Of the client (App.tsx) the embedding has, in [Module Client], the
      state that the component keeps of the game, the listeners and
      callbacks that change it and the values that it derives from it to
      decide what is shown; sounds, alerts, the countdown and the pointer
      handling of the canvas are left out. *)

From Stdlib Require Import ZArith Ascii String DecimalString.
From stdpp Require Import base option list strings gmap.

Local Open Scope string_scope.
Local Open Scope list_scope.
Local Open Scope nat_scope.

(** ** Strings *)

Module Js.


(** [String.prototype.toLowerCase] and [toUpperCase] on ASCII text: the
    letters A to Z and a to z are mapped, every other character is kept. *)
Definition lower_ascii (c : ascii) : ascii :=
  let n := nat_of_ascii c in
  if (65 <=? n) && (n <=? 90) then ascii_of_nat (n + 32) else c.

Definition upper_ascii (c : ascii) : ascii :=
  let n := nat_of_ascii c in
  if (97 <=? n) && (n <=? 122) then ascii_of_nat (n - 32) else c.

Fixpoint map_string (f : ascii → ascii) (s : string) : string :=
  match s with
  | EmptyString => EmptyString
  | String c s' => String (f c) (map_string f s')
  end.

Definition toLowerCase : string → string := map_string lower_ascii.
Definition toUpperCase : string → string := map_string upper_ascii.

(** [String.prototype.trim] on ASCII text, where the white space and line
    terminators are TAB, LF, VT, FF, CR and SPACE. *)
Definition is_space (c : ascii) : bool :=
  let n := nat_of_ascii c in
  ((9 <=? n) && (n <=? 13)) || (n =? 32).

Fixpoint trimStart (s : string) : string :=
  match s with
  | EmptyString => EmptyString
  | String c s' => if is_space c then trimStart s' else s
  end.

(** [trimEnd] keeps a character when it is not a space or when something
    survives after it. *)
Fixpoint trimEnd (s : string) : string :=
  match s with
  | EmptyString => EmptyString
  | String c s' =>
      match trimEnd s' with
      | EmptyString => if is_space c then EmptyString else String c EmptyString
      | t => String c t
      end
  end.

Definition trim (s : string) : string := trimEnd (trimStart s).

(** [s.slice(0, n)]. *)
Definition slice0 (n : nat) (s : string) : string := substring 0 n s.

(** [s || d] on strings: the empty string is falsy. *)
Definition or_default (s d : string) : string :=
  if decide (s = "") then d else s.

(** Truthiness of a [string | null]. *)
Definition truthy (o : option string) : bool :=
  match o with
  | Some s => if decide (s = "") then false else true
  | None => false
  end.

(** [a.slice(-n)] on arrays: the last [n] elements. *)
Definition last_n {A} (n : nat) (l : list A) : list A :=
  drop (length l - n) l.

(** *** Objects used as ordered dictionaries *)

Definition obj (V : Type) : Type := list (string * V).

Fixpoint get {V} (o : obj V) (k : string) : option V :=
  match o with
  | [] => None
  | (k', v) :: o' => if decide (k' = k) then Some v else get o' k
  end.

(** [o[k] = v] for a name that is neither an array index nor [__proto__]:
    an existing key keeps its place, a new key goes last. *)
Fixpoint set {V} (o : obj V) (k : string) (v : V) : obj V :=
  match o with
  | [] => [(k, v)]
  | (k', v') :: o' =>
      if decide (k' = k) then (k', v) :: o' else (k', v') :: set o' k v
  end.

Definition keys {V} (o : obj V) : list string := o.*1.
Definition values {V} (o : obj V) : list V := o.*2.
Definition entries {V} (o : obj V) : list (string * V) := o.

(** The array index that a property name denotes, if it denotes one: the
    name is the decimal numeral, without sign or leading zero, of an
    integer below [2^32 - 1]. *)
Definition array_index (k : string) : option N :=
  match NilZero.uint_of_string k with
  | Some d =>
      let n := N.of_uint d in
      if decide (NilZero.string_of_uint (N.to_uint n) = k ∧ (n < 4294967295)%N)
      then Some n else None
  | None => None
  end.

(** A new property whose name is the array index [i]: it is enumerated
    after the indices below [i] and before everything else. *)
Fixpoint insert_index {V} (i : N) (k : string) (v : V) (o : obj V) : obj V :=
  match o with
  | [] => [(k, v)]
  | (k', v') :: o' =>
      match array_index k' with
      | Some j =>
          if decide (j < i)%N then (k', v') :: insert_index i k v o'
          else (k, v) :: o
      | None => (k, v) :: o
      end
  end.

(** [o[k] = v] for a data property of an ordinary object, whatever the
    name is: an existing property keeps its place; a new one is enumerated
    among the array indices, in ascending order, when its name is one, and
    last otherwise. *)
Definition put {V} (o : obj V) (k : string) (v : V) : obj V :=
  match get o k, array_index k with
  | None, Some i => insert_index i k v o
  | _, _ => set o k v
  end.

(** The names that an object literal inherits from [Object.prototype],
    [__proto__] apart; each of them holds a method. *)
Definition inherited : list string :=
  [ "constructor"; "__defineGetter__"; "__defineSetter__"; "hasOwnProperty";
    "__lookupGetter__"; "__lookupSetter__"; "isPrototypeOf";
    "propertyIsEnumerable"; "toString"; "valueOf"; "toLocaleString" ].

(** [Array.prototype.sort] with a comparator: a stable sort; [x] goes
    before [y] when [cmp x y <= 0] and [x] came first.  The order is the
    engine's own when the comparator is not consistent; what is stated
    about a sorted array is stated for a consistent comparator. *)
Fixpoint sort_insert {A} (cmp : A → A → Z) (x : A) (l : list A) : list A :=
  match l with
  | [] => [x]
  | y :: l' =>
      if (cmp x y <=? 0)%Z then x :: y :: l' else y :: sort_insert cmp x l'
  end.

Definition sort {A} (cmp : A → A → Z) (l : list A) : list A :=
  foldr (sort_insert cmp) [] l.

End Js.

(** ** words.ts *)

Definition WORDS : list string :=
  [ "Tisch"; "Katze"; "Auto"; "Baum"; "Haus"; "Brot"; "Lampe"; "Brille";
    "Fahrrad"; "Sonne"; "Blume"; "Schule"; "Uhr"; "Telefon"; "Berg";
    "Fenster"; "Flasche"; "Zug"; "Stuhl"; "Apfel" ].

Definition FAKE_WORDS : list string :=
  [ "Rakete"; "Nebel"; "Roboter"; "Wolke"; "Insel"; "Pyramide"; "Drache";
    "Magnet"; "Stern"; "Tiger"; "Kompass"; "Vulkan"; "Palme"; "Mikrofon";
    "Traktor"; "Anker"; "Planet"; "Komet"; "Klavier"; "Tunnel" ].

(** [arr.indexOf(x)], for an [x] known to occur. *)
Fixpoint indexOf (x : string) (l : list string) : nat :=
  match l with
  | [] => 0
  | y :: l' => if decide (y = x) then 0 else S (indexOf x l')
  end.

(** [pickWordPair]; [i] and [j] are the two random draws,
    [Math.floor(Math.random() * length)] being [_ mod length]. *)
Definition pickWordPair (i j : nat) : string * string :=
  let realWord := default "" (WORDS !! (i mod length WORDS)) in
  let fakeWord := default "" (FAKE_WORDS !! (j mod length FAKE_WORDS)) in
  let fakeWord :=
    if decide (fakeWord = realWord)
    then default "" (FAKE_WORDS !! ((indexOf fakeWord FAKE_WORDS + 1) mod length FAKE_WORDS))
    else fakeWord in
  (realWord, fakeWord).

(** ** Data model *)

Inductive Phase := Lobby | Drawing | Voting | Results.

Global Instance Phase_eq_dec : EqDecision Phase.
Proof. solve_decision. Defined.

Inductive Tool := Brush | Eraser.

(** A stroke is relayed and stored, never inspected. *)
Record DrawEvent := {
  x0 : Z; y0 : Z; x1 : Z; y1 : Z;
  color : string; d_size : Z; tool : Tool
}.

Record Player := {
  p_id : string;
  p_name : string;
  isHost : bool;
  connected : bool;
  p_wins : nat;
  p_losses : nat
}.

Record Score := { wins : nat; losses : nat }.

Record ChatMessage := {
  playerId : string;
  name : string;
  message : string;
  ts : Z
}.

Record RoomState := {
  code : string;
  players : list Player;
  phase : Phase;
  hostId : string;
  turnIndex : nat;
  round : nat;
  imposterId : option string;
  realWord : option string;
  fakeWord : option string;
  currentDrawerId : option string;
  drawing : list DrawEvent;
  chat : list ChatMessage;
  votes : Js.obj string;
  leaderboard : gmap string Score;
  turnEndsAt : option Z;
  timerRef : option nat
}.

(** Field assignments. *)
Definition set_players (v : list Player) (r : RoomState) : RoomState :=
  {| code := code r; players := v; phase := phase r; hostId := hostId r;
     turnIndex := turnIndex r; round := round r; imposterId := imposterId r;
     realWord := realWord r; fakeWord := fakeWord r;
     currentDrawerId := currentDrawerId r; drawing := drawing r;
     chat := chat r; votes := votes r; leaderboard := leaderboard r;
     turnEndsAt := turnEndsAt r; timerRef := timerRef r |}.

Definition set_phase (v : Phase) (r : RoomState) : RoomState :=
  {| code := code r; players := players r; phase := v; hostId := hostId r;
     turnIndex := turnIndex r; round := round r; imposterId := imposterId r;
     realWord := realWord r; fakeWord := fakeWord r;
     currentDrawerId := currentDrawerId r; drawing := drawing r;
     chat := chat r; votes := votes r; leaderboard := leaderboard r;
     turnEndsAt := turnEndsAt r; timerRef := timerRef r |}.

Definition set_hostId (v : string) (r : RoomState) : RoomState :=
  {| code := code r; players := players r; phase := phase r; hostId := v;
     turnIndex := turnIndex r; round := round r; imposterId := imposterId r;
     realWord := realWord r; fakeWord := fakeWord r;
     currentDrawerId := currentDrawerId r; drawing := drawing r;
     chat := chat r; votes := votes r; leaderboard := leaderboard r;
     turnEndsAt := turnEndsAt r; timerRef := timerRef r |}.

Definition set_turnIndex (v : nat) (r : RoomState) : RoomState :=
  {| code := code r; players := players r; phase := phase r; hostId := hostId r;
     turnIndex := v; round := round r; imposterId := imposterId r;
     realWord := realWord r; fakeWord := fakeWord r;
     currentDrawerId := currentDrawerId r; drawing := drawing r;
     chat := chat r; votes := votes r; leaderboard := leaderboard r;
     turnEndsAt := turnEndsAt r; timerRef := timerRef r |}.

Definition set_round (v : nat) (r : RoomState) : RoomState :=
  {| code := code r; players := players r; phase := phase r; hostId := hostId r;
     turnIndex := turnIndex r; round := v; imposterId := imposterId r;
     realWord := realWord r; fakeWord := fakeWord r;
     currentDrawerId := currentDrawerId r; drawing := drawing r;
     chat := chat r; votes := votes r; leaderboard := leaderboard r;
     turnEndsAt := turnEndsAt r; timerRef := timerRef r |}.

(** [room.imposterId], [room.realWord] and [room.fakeWord] are only ever
    assigned together, by [startGame]. *)
Definition set_secrets (imp real fake : string) (r : RoomState) : RoomState :=
  {| code := code r; players := players r; phase := phase r; hostId := hostId r;
     turnIndex := turnIndex r; round := round r; imposterId := Some imp;
     realWord := Some real; fakeWord := Some fake;
     currentDrawerId := currentDrawerId r; drawing := drawing r;
     chat := chat r; votes := votes r; leaderboard := leaderboard r;
     turnEndsAt := turnEndsAt r; timerRef := timerRef r |}.

Definition set_currentDrawerId (v : option string) (r : RoomState) : RoomState :=
  {| code := code r; players := players r; phase := phase r; hostId := hostId r;
     turnIndex := turnIndex r; round := round r; imposterId := imposterId r;
     realWord := realWord r; fakeWord := fakeWord r;
     currentDrawerId := v; drawing := drawing r;
     chat := chat r; votes := votes r; leaderboard := leaderboard r;
     turnEndsAt := turnEndsAt r; timerRef := timerRef r |}.

Definition set_drawing (v : list DrawEvent) (r : RoomState) : RoomState :=
  {| code := code r; players := players r; phase := phase r; hostId := hostId r;
     turnIndex := turnIndex r; round := round r; imposterId := imposterId r;
     realWord := realWord r; fakeWord := fakeWord r;
     currentDrawerId := currentDrawerId r; drawing := v;
     chat := chat r; votes := votes r; leaderboard := leaderboard r;
     turnEndsAt := turnEndsAt r; timerRef := timerRef r |}.

Definition set_chat (v : list ChatMessage) (r : RoomState) : RoomState :=
  {| code := code r; players := players r; phase := phase r; hostId := hostId r;
     turnIndex := turnIndex r; round := round r; imposterId := imposterId r;
     realWord := realWord r; fakeWord := fakeWord r;
     currentDrawerId := currentDrawerId r; drawing := drawing r;
     chat := v; votes := votes r; leaderboard := leaderboard r;
     turnEndsAt := turnEndsAt r; timerRef := timerRef r |}.

Definition set_votes (v : Js.obj string) (r : RoomState) : RoomState :=
  {| code := code r; players := players r; phase := phase r; hostId := hostId r;
     turnIndex := turnIndex r; round := round r; imposterId := imposterId r;
     realWord := realWord r; fakeWord := fakeWord r;
     currentDrawerId := currentDrawerId r; drawing := drawing r;
     chat := chat r; votes := v; leaderboard := leaderboard r;
     turnEndsAt := turnEndsAt r; timerRef := timerRef r |}.

Definition set_leaderboard (v : gmap string Score) (r : RoomState) : RoomState :=
  {| code := code r; players := players r; phase := phase r; hostId := hostId r;
     turnIndex := turnIndex r; round := round r; imposterId := imposterId r;
     realWord := realWord r; fakeWord := fakeWord r;
     currentDrawerId := currentDrawerId r; drawing := drawing r;
     chat := chat r; votes := votes r; leaderboard := v;
     turnEndsAt := turnEndsAt r; timerRef := timerRef r |}.

Definition set_turnEndsAt (v : option Z) (r : RoomState) : RoomState :=
  {| code := code r; players := players r; phase := phase r; hostId := hostId r;
     turnIndex := turnIndex r; round := round r; imposterId := imposterId r;
     realWord := realWord r; fakeWord := fakeWord r;
     currentDrawerId := currentDrawerId r; drawing := drawing r;
     chat := chat r; votes := votes r; leaderboard := leaderboard r;
     turnEndsAt := v; timerRef := timerRef r |}.

Definition set_timerRef (v : option nat) (r : RoomState) : RoomState :=
  {| code := code r; players := players r; phase := phase r; hostId := hostId r;
     turnIndex := turnIndex r; round := round r; imposterId := imposterId r;
     realWord := realWord r; fakeWord := fakeWord r;
     currentDrawerId := currentDrawerId r; drawing := drawing r;
     chat := chat r; votes := votes r; leaderboard := leaderboard r;
     turnEndsAt := turnEndsAt r; timerRef := v |}.

Definition set_isHost (v : bool) (p : Player) : Player :=
  {| p_id := p_id p; p_name := p_name p; isHost := v;
     connected := connected p; p_wins := p_wins p; p_losses := p_losses p |}.

(** ** The broadcast snapshot *)

Record LeaderRow := {
  row_id : string;
  row_name : string;
  row_wins : nat;
  row_losses : nat
}.

Record RoomView := {
  v_code : string;
  v_phase : Phase;
  v_players : list Player;
  v_turnIndex : nat;
  v_round : nat;
  v_imposterId : option string;
  v_currentDrawerId : option string;
  v_drawing : list DrawEvent;
  v_chat : list ChatMessage;
  v_turnEndsAt : option Z;
  v_leaderboard : list LeaderRow
}.

Definition leaderRow (lb : gmap string Score) (p : Player) : LeaderRow :=
  {| row_id := p_id p;
     row_name := p_name p;
     row_wins := from_option wins (p_wins p) (lb !! p_id p);
     row_losses := from_option losses (p_losses p) (lb !! p_id p) |}.

Definition roomView (room : RoomState) : RoomView :=
  {| v_code := code room;
     v_phase := phase room;
     v_players := players room;
     v_turnIndex := turnIndex room;
     v_round := round room;
     v_imposterId :=
       if decide (phase room = Results) then imposterId room else None;
     v_currentDrawerId := currentDrawerId room;
     v_drawing := drawing room;
     v_chat := Js.last_n 60 (chat room);
     v_turnEndsAt := turnEndsAt room;
     v_leaderboard := leaderRow (leaderboard room) <$> players room |}.

(** ** Outputs *)

(** A value of the tally of [computeVoting]: a count or, for an accused
    name that [Object.prototype] has, the text that [+ 1] makes of the
    inherited value: its rendering as a string, which is the engine's and
    is not spelled out here, followed by one "1" for every vote. *)
Inductive Tally :=
| Count (n : nat)
| Text (name : string) (ones : nat).

Inductive Payload :=
| room_update (v : RoomView)
| word_assigned (word : option string) (isImposter : bool)
| sfx (kind : string)
| phase_voting
| turn_started (drawerId : option string) (endsAt : option Z)
| phase_results (suspected imposter real : option string)
    (tally : Js.obj Tally) (imposterWins : bool)
| phase_results_guessed (imposter real : option string)
    (tally : Js.obj string) (guessedWord : string)
| draw_stroke (s : DrawEvent)
| chat_new (m : ChatMessage).

Inductive Reply :=
| reply_room (c playerId : string)
| reply_error (msg : string)
| reply_guess (correct : bool).

Inductive Out :=
| Emit (to : string) (p : Payload)            (* io.to(to).emit(...) *)
| EmitOthers (sender to : string) (p : Payload) (* socket.to(to).emit(...) *)
| SocketJoin (sid channel : string)           (* socket.join(channel) *)
| Ack (sid : string) (r : Reply).             (* cb?.(...) *)

Definition emitRoom (room : RoomState) : list Out :=
  [Emit (code room) (room_update (roomView room))].

(** [p.id === room.imposterId] *)
Definition is_imposter (room : RoomState) (p : Player) : bool :=
  bool_decide (Some (p_id p) = imposterId room).

Definition broadcastWords (room : RoomState) : list Out :=
  (λ p, Emit (p_id p)
          (word_assigned
             (if is_imposter room p then fakeWord room else realWord room)
             (is_imposter room p))) <$> players room.

(** ** Timeouts

    [pending] holds the timeouts that are armed and have neither fired nor
    been cleared, each with the room object its closure captured.  A
    [Timeout] handle is never reused, hence the counter. *)

Record Timers := {
  pending : gmap nat nat;
  nextTimer : nat
}.

Definition clearTimeout (t : nat) (tm : Timers) : Timers :=
  {| pending := delete t (pending tm); nextTimer := nextTimer tm |}.

Definition setTimeout (self : nat) (tm : Timers) : nat * Timers :=
  (nextTimer tm,
   {| pending := <[nextTimer tm := self]> (pending tm);
      nextTimer := S (nextTimer tm) |}).

Definition clearTimer (room : RoomState) (tm : Timers) : Timers :=
  match timerRef room with
  | Some t => clearTimeout t tm
  | None => tm
  end.

Definition TURN_MS : Z := 20000.

(** ** Room operations

    [self] is the reference of the room object, which the timeout closure
    of [startTurn] captures; [now] is [Date.now()]. *)

Definition startTurn (self : nat) (now : Z) (room : RoomState) (tm : Timers)
  : RoomState * Timers * list Out :=
  if decide (length (players room) = 0) then (room, tm, [])
  else if decide (length (players room) ≤ turnIndex room) then
    let room := set_phase Voting room in
    let room := set_currentDrawerId None room in
    let room := set_turnEndsAt None room in
    (room, tm, emitRoom room ++ [Emit (code room) phase_voting])
  else
    let room := set_phase Drawing room in
    let room :=
      set_currentDrawerId (p_id <$> players room !! turnIndex room) room in
    let room := set_turnEndsAt (Some (now + TURN_MS)%Z) room in
    let room := set_drawing [] room in
    let out :=
      emitRoom room ++
      [Emit (code room)
         (turn_started (currentDrawerId room) (turnEndsAt room))] in
    let tm := clearTimer room tm in
    let '(t, tm) := setTimeout self tm in
    (set_timerRef (Some t) room, tm, out).

(** The closure given to [setTimeout] by [startTurn]. *)
Definition onTimeout (self : nat) (now : Z) (room : RoomState) (tm : Timers)
  : RoomState * Timers * list Out :=
  startTurn self now (set_turnIndex (turnIndex room + 1) room) tm.

(** [room.players[Math.floor(Math.random() * room.players.length)].id] *)
Definition pickImposter (rnd : nat) (ps : list Player) : string :=
  from_option p_id "" (ps !! (rnd mod length ps)).

Definition startGame (self : nat) (rnd i j : nat) (now : Z)
    (room : RoomState) (tm : Timers) : RoomState * Timers * list Out :=
  if decide (length (players room) < 3) then (room, tm, [])
  else
    let room := set_round (round room + 1) room in
    let room := set_turnIndex 0 room in
    let room := set_votes [] room in
    let imposter := pickImposter rnd (players room) in
    let '(real, fake) := pickWordPair i j in
    let room := set_secrets imposter real fake room in
    let out := broadcastWords room ++ [Emit (code room) (sfx "turn")] in
    let '(room, tm, out') := startTurn self now room tm in
    (room, tm, out ++ out').

(** *** Vote tally *)

(** [(tally[targetId] ?? 0) + 1]: the property of the tally itself when
    there is one; otherwise what [Object.prototype] has under that name, a
    method or, for [__proto__], the prototype object, neither of which is
    nullish, so that [+] concatenates; otherwise 1. *)
Definition bumped (tally : Js.obj Tally) (targetId : string) : Tally :=
  match Js.get tally targetId with
  | Some (Count n) => Count (n + 1)
  | Some (Text name ones) => Text name (ones + 1)
  | None =>
      if decide (targetId ∈ "__proto__" :: Js.inherited) then Text targetId 1
      else Count 1
  end.

(** One iteration of the [forEach] over the accused identities:
    [tally[targetId] = (tally[targetId] ?? 0) + 1].  Assigning to
    [__proto__] calls the setter of [Object.prototype], which ignores a
    value that is neither an object nor [null]; every other name becomes or
    is a property of the tally. *)
Definition tallyStep (tally : Js.obj Tally) (targetId : string)
  : Js.obj Tally :=
  if decide (targetId = "__proto__") then tally
  else Js.put tally targetId (bumped tally targetId).

Definition tallyOf (accused : list string) : Js.obj Tally :=
  foldl tallyStep [] accused.

Definition tallyVotes (vs : Js.obj string) : Js.obj Tally :=
  tallyOf (Js.values vs).

(** The comparator [(a, b) => b[1] - a[1]]: the difference of two texts,
    or of a text and a number, is [NaN], which [sort] takes for 0. *)
Definition byCountDesc (a b : string * Tally) : Z :=
  match a.2, b.2 with
  | Count x, Count y => (Z.of_nat y - Z.of_nat x)%Z
  | _, _ => 0%Z
  end.

(** [sorted[0]?.[0]] *)
Definition suspectedOf (tally : Js.obj Tally) : option string :=
  fst <$> head (Js.sort byCountDesc (Js.entries tally)).

(** [suspected !== room.imposterId]: [undefined] differs from [null] and
    from every string. *)
Definition strict_ne (suspected imposter : option string) : bool :=
  match suspected, imposter with
  | Some a, Some b => bool_decide (a ≠ b)
  | _, _ => true
  end.

Definition win (e : Score) : Score :=
  {| wins := wins e + 1; losses := losses e |}.
Definition lose (e : Score) : Score :=
  {| wins := wins e; losses := losses e + 1 |}.

(** One iteration of the [forEach] of [computeVoting]. *)
Definition scoreVote (imposterWins : bool) (room : RoomState)
    (lb : gmap string Score) (p : Player) : gmap string Score :=
  let e := default {| wins := p_wins p; losses := p_losses p |} (lb !! p_id p) in
  <[p_id p :=
      if imposterWins
      then (if is_imposter room p then win e else lose e)
      else (if is_imposter room p then lose e else win e)]> lb.

Definition computeVoting (room : RoomState) : RoomState * list Out :=
  let tally := tallyVotes (votes room) in
  let suspected := suspectedOf tally in
  let imposterWins := strict_ne suspected (imposterId room) in
  let room :=
    if Js.truthy (imposterId room)
    then set_leaderboard
           (foldl (scoreVote imposterWins room) (leaderboard room) (players room))
           room
    else room in
  let room := set_phase Results room in
  let room := set_turnEndsAt None room in
  (room,
   emitRoom room ++
   [Emit (code room)
      (phase_results suspected (imposterId room) (realWord room)
         tally imposterWins)]).

(** One iteration of the [forEach] of the [imposter:guess] handler. *)
Definition scoreGuess (sid : string) (lb : gmap string Score) (p : Player)
  : gmap string Score :=
  let e := default {| wins := 0; losses := 0 |} (lb !! p_id p) in
  <[p_id p := if decide (p_id p = sid) then win e else lose e]> lb.

(** ** The server *)

Definition alphabet : string := "ABCDEFGHJKLMNPQRSTUVWXYZ23456789".

(** nanoid's [customAlphabet(alphabet, size)]: [size] characters of the
    alphabet, drawn here from the digits of the entropy [rnd]. *)
Fixpoint customAlphabet (alpha : string) (size : nat) (rnd : nat) : string :=
  match size with
  | 0 => EmptyString
  | S n =>
      String (default "A"%char (String.get (rnd mod String.length alpha) alpha))
             (customAlphabet alpha n (rnd / String.length alpha))
  end.

Definition makeRoomCode : nat → string := customAlphabet alphabet 6.

Record Server := {
  heap : gmap nat RoomState;        (* the room objects *)
  nextRef : nat;
  rooms : gmap string nat;          (* const rooms = new Map<string, RoomState>() *)
  socketToRoom : gmap string string;
  timers : Timers
}.

Definition initial : Server :=
  {| heap := ∅; nextRef := 0; rooms := ∅; socketToRoom := ∅;
     timers := {| pending := ∅; nextTimer := 0 |} |}.

(** Writing back the room object [ref] and the timer queue. *)
Definition store (s : Server) (ref : nat) (room : RoomState) (tm : Timers)
  : Server :=
  {| heap := <[ref := room]> (heap s); nextRef := nextRef s;
     rooms := rooms s; socketToRoom := socketToRoom s; timers := tm |}.

(** [socketToRoom.get(socket.id)], [if (!code) return], then
    [rooms.get(code)]. *)
Definition roomOf (s : Server) (sid : string)
  : option (string * nat * RoomState) :=
  c ← socketToRoom s !! sid;
  if decide (c = "") then None
  else
    ref ← rooms s !! c;
    room ← heap s !! ref;
    Some (c, ref, room).

Definition newPlayer (sid nm : string) (host : bool) : Player :=
  {| p_id := sid; p_name := nm; isHost := host; connected := true;
     p_wins := 0; p_losses := 0 |}.

Definition onCreate (sid nm : string) (rnd : nat) (s : Server)
  : Server * list Out :=
  let c := makeRoomCode rnd in
  let player := newPlayer sid (Js.or_default (Js.slice0 24 nm) "Host") true in
  let room :=
    {| code := c; players := [player]; phase := Lobby; hostId := sid;
       turnIndex := 0; round := 0; imposterId := None; realWord := None;
       fakeWord := None; currentDrawerId := None; drawing := []; chat := [];
       votes := []; leaderboard := {[ p_id player := {| wins := 0; losses := 0 |} ]};
       turnEndsAt := None; timerRef := None |} in
  ({| heap := <[nextRef s := room]> (heap s);
      nextRef := S (nextRef s);
      rooms := <[c := nextRef s]> (rooms s);
      socketToRoom := <[sid := c]> (socketToRoom s);
      timers := timers s |},
   [SocketJoin sid c] ++ emitRoom room ++ [Ack sid (reply_room c sid)]).

Definition onJoin (sid c nm : string) (s : Server) : Server * list Out :=
  match rooms s !! Js.toUpperCase c with
  | None => (s, [Ack sid (reply_error "Lobby nicht gefunden.")])
  | Some ref =>
      match heap s !! ref with
      | None => (s, [])
      | Some room =>
          let player :=
            newPlayer sid (Js.or_default (Js.slice0 24 nm) "Spieler") false in
          let room := set_players (players room ++ [player]) room in
          let room :=
            set_leaderboard
              (<[p_id player := {| wins := 0; losses := 0 |}]> (leaderboard room))
              room in
          ({| heap := <[ref := room]> (heap s);
              nextRef := nextRef s;
              rooms := rooms s;
              socketToRoom := <[sid := code room]> (socketToRoom s);
              timers := timers s |},
           [SocketJoin sid (code room)] ++ emitRoom room ++
           [Ack sid (reply_room (code room) sid)])
      end
  end.

(** The [game:start] and [round:next] handlers have the same body. *)
Definition onStart (sid : string) (rnd i j : nat) (now : Z) (s : Server)
  : Server * list Out :=
  match roomOf s sid with
  | None => (s, [])
  | Some (_, ref, room) =>
      if decide (hostId room ≠ sid) then (s, [])
      else
        let '(room, tm, out) := startGame ref rnd i j now room (timers s) in
        (store s ref room tm, out)
  end.

Definition onStroke (sid : string) (stroke : DrawEvent) (s : Server)
  : Server * list Out :=
  match roomOf s sid with
  | None => (s, [])
  | Some (c, ref, room) =>
      if decide (currentDrawerId room ≠ Some sid ∨ phase room ≠ Drawing)
      then (s, [])
      else
        (store s ref (set_drawing (drawing room ++ [stroke]) room) (timers s),
         [EmitOthers sid c (draw_stroke stroke)])
  end.

Definition onChat (sid msg : string) (now : Z) (s : Server)
  : Server * list Out :=
  match roomOf s sid with
  | None => (s, [])
  | Some (c, ref, room) =>
      match List.find (λ p, bool_decide (p_id p = sid)) (players room) with
      | None => (s, [])
      | Some player =>
          let m := {| playerId := sid; name := p_name player;
                      message := Js.slice0 200 msg; ts := now |} in
          (store s ref (set_chat (chat room ++ [m]) room) (timers s),
           [Emit c (chat_new m)])
      end
  end.

Definition onVote (sid targetId : string) (s : Server) : Server * list Out :=
  match roomOf s sid with
  | None => (s, [])
  | Some (c, ref, room) =>
      if decide (phase room ≠ Voting) then (s, [])
      else
        let room := set_votes (Js.set (votes room) sid targetId) room in
        let out := emitRoom room in
        if decide (length (players room) ≤ length (Js.keys (votes room)))
        then
          let '(room, out') := computeVoting room in
          (store s ref room (timers s), out ++ [Emit c (sfx "voting")] ++ out')
        else (store s ref room (timers s), out)
  end.

(** [guess.trim().toLowerCase() === room.realWord?.toLowerCase()] *)
Definition guessCorrect (guess : string) (room : RoomState) : bool :=
  bool_decide
    (Some (Js.toLowerCase (Js.trim guess)) = Js.toLowerCase <$> realWord room).

Definition onGuess (sid guess : string) (s : Server) : Server * list Out :=
  match roomOf s sid with
  | None => (s, [])
  | Some (c, ref, room) =>
      if decide (Some sid ≠ imposterId room) then (s, [])
      else if guessCorrect guess room then
        let room := set_phase Results room in
        let room :=
          set_leaderboard
            (foldl (scoreGuess sid) (leaderboard room) (players room)) room in
        (store s ref room (timers s),
         emitRoom room ++
         [Emit c (phase_results_guessed (imposterId room) (realWord room)
                    (votes room) guess);
          Ack sid (reply_guess true)])
      else (s, [Ack sid (reply_guess false)])
  end.

(** [room.players[0].isHost = true] *)
Definition promoteFirst (ps : list Player) : list Player :=
  match ps with
  | [] => []
  | p :: ps' => set_isHost true p :: ps'
  end.

(** What the [disconnect] handler does to the room object: the socket's
    entries leave the player list and the leaderboard, and when the socket
    was the host and somebody remains, the first remaining player takes
    over. *)
Definition leave (sid : string) (room : RoomState) : RoomState :=
  let room :=
    set_players (filter (λ p, p_id p ≠ sid) (players room)) room in
  let room := set_leaderboard (delete sid (leaderboard room)) room in
  match decide (hostId room = sid), players room with
  | left _, p :: _ =>
      set_players (promoteFirst (players room)) (set_hostId (p_id p) room)
  | _, _ => room
  end.

Definition onDisconnect (sid : string) (s : Server) : Server * list Out :=
  match socketToRoom s !! sid with
  | None => (s, [])
  | Some c =>
      if decide (c = "") then (s, []) else
      let s := {| heap := heap s; nextRef := nextRef s; rooms := rooms s;
                  socketToRoom := delete sid (socketToRoom s);
                  timers := timers s |} in
      match rooms s !! c ≫= λ ref, (ref,.) <$> heap s !! ref with
      | None => (s, [])
      | Some (ref, room) =>
          let room := leave sid room in
          if decide (length (players room) = 0) then
            ({| heap := <[ref := room]> (heap s); nextRef := nextRef s;
                rooms := delete c (rooms s);
                socketToRoom := socketToRoom s;
                timers := clearTimer room (timers s) |}, [])
          else (store s ref room (timers s), emitRoom room)
      end
  end.

(** A pending timeout fires: it leaves the queue and its closure runs. *)
Definition onTimer (t : nat) (now : Z) (s : Server) : Server * list Out :=
  match pending (timers s) !! t with
  | None => (s, [])
  | Some ref =>
      let tm := clearTimeout t (timers s) in
      match heap s !! ref with
      | None => (s, [])
      | Some room =>
          let '(room, tm, out) := onTimeout ref now room tm in
          (store s ref room tm, out)
      end
  end.

Inductive Action :=
| room_create (sid nm : string) (rnd : nat)
| room_join (sid c nm : string)
| game_start (sid : string) (rnd i j : nat) (now : Z)
| draw_stroke_in (sid : string) (stroke : DrawEvent)
| chat_send (sid msg : string) (now : Z)
| vote_submit (sid targetId : string)
| imposter_guess (sid guess : string)
| round_next (sid : string) (rnd i j : nat) (now : Z)
| disconnect (sid : string)
| timeout (t : nat) (now : Z).

Definition step (s : Server) (a : Action) : Server * list Out :=
  match a with
  | room_create sid nm rnd => onCreate sid nm rnd s
  | room_join sid c nm => onJoin sid c nm s
  | game_start sid rnd i j now => onStart sid rnd i j now s
  | draw_stroke_in sid stroke => onStroke sid stroke s
  | chat_send sid msg now => onChat sid msg now s
  | vote_submit sid targetId => onVote sid targetId s
  | imposter_guess sid guess => onGuess sid guess s
  | round_next sid rnd i j now => onStart sid rnd i j now s
  | disconnect sid => onDisconnect sid s
  | timeout t now => onTimer t now s
  end.

(** The server after a sequence of actions, and what it emitted. *)
Definition run (s : Server) (l : list Action) : Server * list Out :=
  foldl (λ '(s, out) a, let '(s', o) := step s a in (s', out ++ o)) (s, []) l.

Definition reachable (s : Server) : Prop := ∃ l, (run initial l).1 = s.

(** ** The client (App.tsx)

    The state that the [App] component keeps of the game, what the
    listeners registered on the socket do to it, and the values that the
    component derives from it when it renders. *)

Module Client.

Record State := {
  room : option RoomView;
  playerId : string;
  word : option string;
  isImposter : bool
}.

Definition setRoom (v : option RoomView) (st : State) : State :=
  {| room := v; playerId := playerId st; word := word st;
     isImposter := isImposter st |}.

Definition setPlayerId (pid : string) (st : State) : State :=
  {| room := room st; playerId := pid; word := word st;
     isImposter := isImposter st |}.

(** [{ ...prev, drawing: [...prev.drawing, stroke] }] *)
Definition addStroke (stroke : DrawEvent) (v : RoomView) : RoomView :=
  {| v_code := v_code v; v_phase := v_phase v; v_players := v_players v;
     v_turnIndex := v_turnIndex v; v_round := v_round v;
     v_imposterId := v_imposterId v;
     v_currentDrawerId := v_currentDrawerId v;
     v_drawing := v_drawing v ++ [stroke]; v_chat := v_chat v;
     v_turnEndsAt := v_turnEndsAt v; v_leaderboard := v_leaderboard v |}.

(** [{ ...prev, chat: [...prev.chat, msg] }] *)
Definition addChat (m : ChatMessage) (v : RoomView) : RoomView :=
  {| v_code := v_code v; v_phase := v_phase v; v_players := v_players v;
     v_turnIndex := v_turnIndex v; v_round := v_round v;
     v_imposterId := v_imposterId v;
     v_currentDrawerId := v_currentDrawerId v;
     v_drawing := v_drawing v; v_chat := v_chat v ++ [m];
     v_turnEndsAt := v_turnEndsAt v; v_leaderboard := v_leaderboard v |}.

(** The listeners for [room:update], [word:assigned], [draw:stroke] and
    [chat:new]; [sfx] only plays a sound, and the component listens to no
    other event. *)
Definition receive (st : State) (p : Payload) : State :=
  match p with
  | room_update v => setRoom (Some v) st
  | word_assigned w b =>
      {| room := room st; playerId := playerId st; word := w;
         isImposter := b |}
  | draw_stroke stroke => setRoom (addStroke stroke <$> room st) st
  | chat_new m => setRoom (addChat m <$> room st) st
  | _ => st
  end.

(** The acknowledgement callbacks of [createRoom] and [joinRoom]. *)
Definition created (st : State) (r : Reply) : State :=
  match r with
  | reply_room c pid => if decide (c = "") then st else setPlayerId pid st
  | _ => st
  end.

Definition joined (st : State) (r : Reply) : State :=
  match r with
  | reply_room _ pid => setPlayerId pid st
  | _ => st
  end.

(** The [onStroke] callback given to the canvas: the stroke is added
    locally and sent to the server. *)
Definition onStroke (stroke : DrawEvent) (st : State) : State * Action :=
  (setRoom (addStroke stroke <$> room st) st,
   draw_stroke_in (playerId st) stroke).

(** [room?.currentDrawerId === playerId] *)
Definition isMyTurn (st : State) : bool :=
  match room st with
  | Some v => bool_decide (v_currentDrawerId v = Some (playerId st))
  | None => false
  end.

(** [enabled={room.phase === 'drawing' && isMyTurn}] *)
Definition canvasEnabled (st : State) : bool :=
  match room st with
  | Some v => bool_decide (v_phase v = Drawing) && isMyTurn st
  | None => false
  end.

(** The comparator [(a, b) => b.wins - a.wins]. *)
Definition byWinsDesc (a b : LeaderRow) : Z :=
  (Z.of_nat (row_wins b) - Z.of_nat (row_wins a))%Z.

(** [[...room.leaderboard].sort((a, b) => b.wins - a.wins)] *)
Definition leaderboardShown (v : RoomView) : list LeaderRow :=
  Js.sort byWinsDesc (v_leaderboard v).

(** The buttons of the voting panel: the [targetId] each one submits. *)
Definition voteTargets (v : RoomView) : list string :=
  if decide (v_phase v = Voting) then p_id <$> v_players v else [].

(** [room?.players.find((p) => p.id === playerId)?.isHost] *)
Definition isHost (st : State) : option bool :=
  v ← room st;
  p ← List.find (λ p, bool_decide (p_id p = playerId st)) (v_players v);
  Some (isHost p).

(** [isHost && room.phase === 'lobby'] and
    [room.phase === 'results' && isHost]: the buttons that send
    [game:start] and [round:next]. *)
Definition startShown (st : State) : bool :=
  match room st with
  | Some v => bool_decide (isHost st = Some true) &&
              bool_decide (v_phase v = Lobby)
  | None => false
  end.

Definition nextRoundShown (st : State) : bool :=
  match room st with
  | Some v => bool_decide (v_phase v = Results) &&
              bool_decide (isHost st = Some true)
  | None => false
  end.

End Client.

(** * Notions used in the statements *)

(** ** Votes and tallies *)

(** Number of votes against [x]. *)
Definition votesFor (x : string) (accused : list string) : nat :=
  length (filter (λ y, y = x) accused).

(** The votes that [computeVoting] counts: a vote for [__proto__] leaves
    no trace in the tally. *)
Definition counted (accused : list string) : list string :=
  filter (λ x, x ≠ "__proto__") accused.

(** The number that a value of the tally stands for; a text stands for
    none. *)
Definition countOf (v : Tally) : nat :=
  match v with
  | Count n => n
  | Text _ _ => 0
  end.

(** Where [x] is first accused: the number of votes before the first vote
    against [x]. *)
Fixpoint firstPos (x : string) (accused : list string) : nat :=
  match accused with
  | [] => 0
  | y :: rest => if decide (y = x) then 0 else S (firstPos x rest)
  end.

(** The order in which the tally enumerates two accused identities: an
    array index before a larger one and before every other name; two other
    names in the order of their first accusation. *)
Definition enumBefore (accused : list string) (x y : string) : Prop :=
  match Js.array_index x, Js.array_index y with
  | Some i, Some j => (i < j)%N
  | Some _, None => True
  | None, Some _ => False
  | None, None => firstPos x accused < firstPos y accused
  end.

(** A list of names that is in that order. *)
Fixpoint enumerated (accused : list string) (ks : list string) : Prop :=
  match ks with
  | [] => True
  | k :: ks' => Forall (enumBefore accused k) ks' ∧ enumerated accused ks'
  end.

(** The value that the tally holds for an accused identity [x]: the
    number of votes against it or, when [x] names a method of
    [Object.prototype], a text with one "1" for every vote. *)
Definition tallied (accused : list string) (x : string) : Tally :=
  if decide (x ∈ Js.inherited) then Text x (votesFor x accused)
  else Count (votesFor x accused).


(** The tie-break in the words of the specification: going through the
    votes in the order of the vote map and counting, the first identity
    whose running count reaches the final maximum, [maxVotes]. *)
Definition maxVotes (accused : list string) : nat :=
  max_list ((λ x, votesFor x accused) <$> accused).

(** The first identity of [rest] whose count, votes in [seen] included,
    reaches [m]. *)
Fixpoint firstToReach (m : nat) (seen rest : list string) : option string :=
  match rest with
  | [] => None
  | x :: rest' =>
      if decide (votesFor x (seen ++ [x]) = m) then Some x
      else firstToReach m (seen ++ [x]) rest'
  end.

(** The suspect by that rule. *)
Definition firstToReachMax (accused : list string) : option string :=
  firstToReach (maxVotes accused) [] accused.

(** ** Rooms that differ in their secrets *)

(** A room whose secret words and vote map are replaced. *)
Definition with_secrets (real fake : option string) (vs : Js.obj string)
    (r : RoomState) : RoomState :=
  {| code := code r; players := players r; phase := phase r; hostId := hostId r;
     turnIndex := turnIndex r; round := round r; imposterId := imposterId r;
     realWord := real; fakeWord := fake;
     currentDrawerId := currentDrawerId r; drawing := drawing r;
     chat := chat r; votes := vs; leaderboard := leaderboard r;
     turnEndsAt := turnEndsAt r; timerRef := timerRef r |}.

(** ** Invariants of the reachable states *)

(** Host invariant of a room: the first player carries the host flag and is the room's [hostId];
    nobody else carries the flag. *)
Definition hostInv (room : RoomState) : Prop :=
  match players room with
  | [] => True
  | p :: ps =>
      isHost p = true ∧ p_id p = hostId room ∧
      Forall (λ q, isHost q = false) ps
  end.

(** Invariant of the server: references are allocated below [nextRef];
    a registered room is stored under its own code and has players; every
    room satisfies the host invariant; a pending timeout is younger than
    [nextTimer] and is the one named by the [timerRef] of its room, which
    has players and is drawing or, after a guess, showing results. *)
Record invariant (s : Server) : Prop := {
  inv_fresh : ∀ ref room, heap s !! ref = Some room → ref < nextRef s;
  inv_rooms : ∀ c ref, rooms s !! c = Some ref →
    ∃ room, heap s !! ref = Some room ∧ code room = c ∧ players room ≠ [];
  inv_host : ∀ ref room, heap s !! ref = Some room → hostInv room;
  inv_timer : ∀ t ref, pending (timers s) !! t = Some ref →
    t < nextTimer (timers s) ∧
    ∃ room, heap s !! ref = Some room ∧ timerRef room = Some t ∧
      players room ≠ [] ∧ (phase room = Drawing ∨ phase room = Results)
}.

(** ** Changes of a room object *)

(** The room after [startTurn] arms a turn with the timeout [t]. *)
Definition turnArmed (now : Z) (t : nat) (room : RoomState) : RoomState :=
  set_timerRef (Some t)
    (set_drawing []
       (set_turnEndsAt (Some (now + TURN_MS)%Z)
          (set_currentDrawerId (p_id <$> players room !! turnIndex room)
             (set_phase Drawing room)))).

(** The room after [startTurn] opens the vote. *)
Definition votingOpened (room : RoomState) : RoomState :=
  set_turnEndsAt None (set_currentDrawerId None (set_phase Voting room)).

(** The room after [startGame] has set up a round, before the first turn. *)
Definition roundStarted (rnd i j : nat) (room : RoomState) : RoomState :=
  set_secrets (pickImposter rnd (players room))
    (pickWordPair i j).1 (pickWordPair i j).2
    (set_votes [] (set_turnIndex 0 (set_round (round room + 1) room))).

(** The room after a correct guess. *)
Definition guessedRoom (sid : string) (room : RoomState) : RoomState :=
  set_leaderboard
    (foldl (scoreGuess sid) (leaderboard room) (players room))
    (set_phase Results room).

(** How a step can change the room object [ref]: not in its round, votes
    and phase (and without arming a timeout for it); by starting a round; by
    recording a vote; by a correct guess; by the expiry of its timeout. *)
Inductive Effect (s : Server) (a : Action) (ref : nat)
    (room room' : RoomState) : Prop :=
| eff_frame :
    round room' = round room → votes room' = votes room →
    phase room' = phase room →
    (∀ t, pending (timers (step s a).1) !! t = Some ref →
          pending (timers s) !! t = Some ref) →
    Effect s a ref room room'
| eff_start sid rnd i j now :
    a = game_start sid rnd i j now ∨ a = round_next sid rnd i j now →
    hostId room = sid → 3 ≤ length (players room) →
    round room' = round room + 1 → votes room' = [] →
    phase room' = Drawing →
    Effect s a ref room room'
| eff_vote sid targetId c :
    a = vote_submit sid targetId →
    roomOf s sid = Some (c, ref, room) → phase room = Voting →
    round room' = round room →
    votes room' = Js.set (votes room) sid targetId →
    timers (step s a).1 = timers s →
    phase room' =
      (if decide (length (players room) ≤
                  length (Js.keys (Js.set (votes room) sid targetId)))
       then Results else Voting) →
    Effect s a ref room room'
| eff_guess sid guess c :
    a = imposter_guess sid guess →
    roomOf s sid = Some (c, ref, room) →
    round room' = round room → votes room' = votes room →
    phase room' = Results →
    timers (step s a).1 = timers s →
    Effect s a ref room room'
| eff_timeout t now :
    a = timeout t now → pending (timers s) !! t = Some ref →
    round room' = round room → votes room' = votes room →
    Effect s a ref room room'.

(** ** Resolution of the vote *)

(** The [phase:results] event of [computeVoting]. *)
Definition is_resolution (o : Out) : bool :=
  match o with
  | Emit _ (phase_results _ _ _ _ _) => true
  | _ => false
  end.

(** Some output is the [phase:results] event of [computeVoting]. *)
Definition announcesResults (out : list Out) : bool :=
  existsb is_resolution out.



(** ** Scenarios *)

(** A fresh leaderboard entry. *)
Definition noScore : Score := {| wins := 0; losses := 0 |}.

(** Alice opens a room, Bob and Cara join. *)
Definition lobbyTrace : list Action :=
  [ room_create "a" "Alice" 0;
    room_join "b" "AAAAAA" "Bob";
    room_join "c" "AAAAAA" "Cara" ].

(** The room that [lobbyTrace] builds. *)
Definition lobbyRoom : RoomState :=
  {| code := "AAAAAA";
     players := [newPlayer "a" "Alice" true; newPlayer "b" "Bob" false;
                 newPlayer "c" "Cara" false];
     phase := Lobby; hostId := "a"; turnIndex := 0; round := 0;
     imposterId := None; realWord := None; fakeWord := None;
     currentDrawerId := None; drawing := []; chat := []; votes := [];
     leaderboard := <["c" := noScore]> (<["b" := noScore]> {["a" := noScore]});
     turnEndsAt := None; timerRef := None |}.

(** The host starts the game: Bob is the imposter, the word is "Tisch". *)
Definition drawingTrace : list Action :=
  lobbyTrace ++ [game_start "a" 1 0 0 0%Z].

(** The room that [drawingTrace] builds: first turn, "a" draws, "b" is the
    imposter. *)
Definition drawingRoom : RoomState :=
  {| code := "AAAAAA";
     players := [newPlayer "a" "Alice" true; newPlayer "b" "Bob" false;
                 newPlayer "c" "Cara" false];
     phase := Drawing; hostId := "a"; turnIndex := 0; round := 1;
     imposterId := Some "b"; realWord := Some "Tisch";
     fakeWord := Some "Rakete";
     currentDrawerId := Some "a"; drawing := []; chat := []; votes := [];
     leaderboard := <["c" := noScore]> (<["b" := noScore]> {["a" := noScore]});
     turnEndsAt := Some 20000%Z; timerRef := Some 0 |}.

(** The three turns expire and the vote opens. *)
Definition votingTrace : list Action :=
  drawingTrace ++ [timeout 0 20100%Z; timeout 1 40200%Z; timeout 2 60300%Z].

(** The room of [votingTrace] after "c" has voted. *)
Definition votedRoom : RoomState :=
  {| code := "AAAAAA";
     players := [newPlayer "a" "Alice" true; newPlayer "b" "Bob" false;
                 newPlayer "c" "Cara" false];
     phase := Voting; hostId := "a"; turnIndex := 3; round := 1;
     imposterId := Some "b"; realWord := Some "Tisch";
     fakeWord := Some "Rakete";
     currentDrawerId := None; drawing := []; chat := [];
     votes := [("c", "a")];
     leaderboard := <["c" := noScore]> (<["b" := noScore]> {["a" := noScore]});
     turnEndsAt := None; timerRef := Some 2 |}.


(** Four players reach the vote; a and d accuse a, b and c accuse b, and b
    is the imposter. *)
Definition tieTrace : list Action :=
  [ room_create "a" "Alice" 0;
    room_join "b" "AAAAAA" "Bob";
    room_join "c" "AAAAAA" "Cara";
    room_join "d" "AAAAAA" "Dan";
    game_start "a" 1 0 0 0%Z;
    timeout 0 20100%Z; timeout 1 40200%Z; timeout 2 60300%Z; timeout 3 80400%Z;
    vote_submit "a" "a"; vote_submit "b" "b"; vote_submit "c" "b" ].

(** The fourth vote, which resolves. *)
Definition tieLastVote : Action := vote_submit "d" "a".

(** The room of [votingTrace] with the votes of all three players: "a"
    accuses the imposter "b", "b" accuses "0", who is no player, and the
    vote of "c" is for [__proto__]. *)
Definition indexVotesRoom : RoomState :=
  set_votes [("a", "b"); ("b", "0"); ("c", "__proto__")] votedRoom.

(** * Further notions: how a room object evolves *)

(** The room object built by [room:create]. *)
Definition createdRoom (sid nm : string) (rnd : nat) : RoomState :=
  {| code := makeRoomCode rnd;
     players := [newPlayer sid (Js.or_default (Js.slice0 24 nm) "Host") true];
     phase := Lobby; hostId := sid; turnIndex := 0; round := 0;
     imposterId := None; realWord := None; fakeWord := None;
     currentDrawerId := None; drawing := []; chat := []; votes := [];
     leaderboard := {[ sid := noScore ]};
     turnEndsAt := None; timerRef := None |}.

(** The room after [room:join] has added the socket. *)
Definition joinedRoom (sid nm : string) (room : RoomState) : RoomState :=
  set_leaderboard (<[sid := noScore]> (leaderboard room))
    (set_players
       (players room ++
        [newPlayer sid (Js.or_default (Js.slice0 24 nm) "Spieler") false])
       room).

(** The message built by [chat:send] for the player [p]. *)
Definition chatMessage (sid : string) (p : Player) (msg : string) (now : Z)
  : ChatMessage :=
  {| playerId := sid; name := p_name p; message := Js.slice0 200 msg;
     ts := now |}.

(** The room after an accepted vote, before the threshold test. *)
Definition votedBy (sid targetId : string) (room : RoomState) : RoomState :=
  set_votes (Js.set (votes room) sid targetId) room.

(** Every way in which a handler or the timeout callback changes a room
    object of a reachable server. *)
Inductive RoomStep (room room' : RoomState) : Prop :=
| rs_same : room' = room → RoomStep room room'
| rs_join sid nm : room' = joinedRoom sid nm room → RoomStep room room'
| rs_start rnd i j now t :
    3 ≤ length (players room) →
    room' = turnArmed now t (roundStarted rnd i j room) →
    RoomStep room room'
| rs_stroke sid stroke :
    currentDrawerId room = Some sid → phase room = Drawing →
    room' = set_drawing (drawing room ++ [stroke]) room →
    RoomStep room room'
| rs_chat sid p msg now :
    p ∈ players room → p_id p = sid →
    room' = set_chat (chat room ++ [chatMessage sid p msg now]) room →
    RoomStep room room'
| rs_vote sid targetId :
    phase room = Voting →
    length (Js.keys (Js.set (votes room) sid targetId)) < length (players room) →
    room' = votedBy sid targetId room →
    RoomStep room room'
| rs_resolve sid targetId :
    phase room = Voting →
    length (players room) ≤ length (Js.keys (Js.set (votes room) sid targetId)) →
    room' = (computeVoting (votedBy sid targetId room)).1 →
    RoomStep room room'
| rs_guess sid guess :
    imposterId room = Some sid → guessCorrect guess room = true →
    room' = guessedRoom sid room →
    RoomStep room room'
| rs_leave sid : room' = leave sid room → RoomStep room room'
| rs_expire_last :
    players room ≠ [] → phase room = Drawing ∨ phase room = Results →
    length (players room) ≤ turnIndex room + 1 →
    room' = votingOpened (set_turnIndex (turnIndex room + 1) room) →
    RoomStep room room'
| rs_expire_next now t :
    phase room = Drawing ∨ phase room = Results →
    turnIndex room + 1 < length (players room) →
    room' = turnArmed now t (set_turnIndex (turnIndex room + 1) room) →
    RoomStep room room'.

(** ** Invariants of every room object *)

(** The secrets are set together by [startGame]: before the first round
    the room is in the lobby and has none; afterwards it has an imposter and
    two different words of the two lists. *)
Definition secretsInv (room : RoomState) : Prop :=
  match imposterId room with
  | None =>
      realWord room = None ∧ fakeWord room = None ∧
      round room = 0 ∧ phase room = Lobby
  | Some _ =>
      ∃ real fake,
        realWord room = Some real ∧ fakeWord room = Some fake ∧
        real ∈ WORDS ∧ fake ∈ FAKE_WORDS ∧ real ≠ fake ∧
        0 < round room ∧ phase room ≠ Lobby
  end.

(** What each phase shows of the turn. *)
Definition phaseInv (room : RoomState) : Prop :=
  match phase room with
  | Lobby =>
      currentDrawerId room = None ∧ turnEndsAt room = None ∧
      drawing room = [] ∧ votes room = [] ∧ turnIndex room = 0 ∧
      timerRef room = None
  | Drawing =>
      is_Some (currentDrawerId room) ∧ is_Some (turnEndsAt room) ∧
      is_Some (timerRef room)
  | Voting => currentDrawerId room = None ∧ turnEndsAt room = None
  | Results => True
  end.

(** A player record as [room:create] and [room:join] build it. *)
Definition playerOk (p : Player) : Prop :=
  p_name p ≠ "" ∧ String.length (p_name p) ≤ 24 ∧
  connected p = true ∧ p_wins p = 0 ∧ p_losses p = 0.

(** A chat message as [chat:send] builds it. *)
Definition messageOk (m : ChatMessage) : Prop :=
  String.length (message m) ≤ 200 ∧
  name m ≠ "" ∧ String.length (name m) ≤ 24.

Definition recordsInv (room : RoomState) : Prop :=
  Forall playerOk (players room) ∧ Forall messageOk (chat room).

(** The leaderboard has an entry exactly for the identities of the
    players. *)
Definition boardInv (room : RoomState) : Prop :=
  dom (leaderboard room) = (list_to_set (p_id <$> players room) : gset string).

(** ** Actions and their senders *)

(** The socket of an action that a handler looks up in [socketToRoom]
    before anything else. *)
Definition actorOf (a : Action) : option string :=
  match a with
  | game_start sid _ _ _ _ | round_next sid _ _ _ _
  | draw_stroke_in sid _ | chat_send sid _ _ | vote_submit sid _
  | imposter_guess sid _ | disconnect sid => Some sid
  | room_create _ _ _ | room_join _ _ _ | timeout _ _ => None
  end.

(** A [word:assigned] message. *)
Definition is_word (o : Out) : bool :=
  match o with
  | Emit _ (word_assigned _ _) => true
  | _ => false
  end.

(** ** The turns of a round *)

(** The timeout that the room object [ref] holds in [timerRef] comes due
    at time [now] (nothing happens when it is no longer pending). *)
Definition expire (ref : nat) (s : Server) (now : Z) : Server :=
  match heap s !! ref ≫= timerRef with
  | Some t => (step s (timeout t now)).1
  | None => s
  end.

(** One expiry after the other, at the times [nows]. *)
Definition expireAll (ref : nat) (s : Server) (nows : list Z) : Server :=
  foldl (expire ref) s nows.

(** ** The client's view *)

(** A snapshot with its chat cut to the last 60 messages. *)
Definition chatTail (v : RoomView) : RoomView :=
  {| v_code := v_code v; v_phase := v_phase v; v_players := v_players v;
     v_turnIndex := v_turnIndex v; v_round := v_round v;
     v_imposterId := v_imposterId v;
     v_currentDrawerId := v_currentDrawerId v;
     v_drawing := v_drawing v; v_chat := Js.last_n 60 (v_chat v);
     v_turnEndsAt := v_turnEndsAt v; v_leaderboard := v_leaderboard v |}.

(** The rooms have codes of the generator. *)
Definition codeInv (room : RoomState) : Prop :=
  ∃ rnd, code room = makeRoomCode rnd.

(** No row has more wins than a row before it. *)
Fixpoint descending (l : list LeaderRow) : Prop :=
  match l with
  | [] => True
  | a :: l' => Forall (λ b, row_wins b ≤ row_wins a) l' ∧ descending l'
  end.

(** The payloads of [outs] that reach the socket [me] while it is in the
    socket.io room [c]: what is emitted to [c] or to the socket's own
    channel, except what [me] itself broadcasts to the others. *)
Definition delivered (me c : string) (outs : list Out) : list Payload :=
  omap (λ o,
          match o with
          | Emit to p => if decide (to = c ∨ to = me) then Some p else None
          | EmitOthers sender to p =>
              if decide ((to = c ∨ to = me) ∧ sender ≠ me) then Some p
              else None
          | _ => None
          end) outs.

(** The client's view agrees with the room object, the chat up to the
    messages that the snapshot leaves out. *)
Definition inSync (st : Client.State) (room : RoomState) : Prop :=
  chatTail <$> Client.room st = Some (roomView room).

(** Payloads that leave the client's view of the room as it is. *)
Definition quiet (p : Payload) : Prop :=
  match p with
  | room_update _ | draw_stroke _ | chat_new _ => False
  | _ => True
  end.

Definition quietOut (o : Out) : Prop :=
  match o with
  | Emit _ p | EmitOthers _ _ p => quiet p
  | _ => True
  end.

(** The last snapshot among [outs] is the one of [room']. *)
Definition announces (room' : RoomState) (outs : list Out) : Prop :=
  ∃ pre r post,
    outs = pre ++ emitRoom r ++ post ∧ Forall quietOut post ∧
    roomView r = roomView room' ∧ code r = code room'.

(** The socket is registered to a room of which it is a player. *)
Definition registeredPlayer (s : Server) (sid : string) : Prop :=
  ∃ c ref room,
    roomOf s sid = Some (c, ref, room) ∧ sid ∈ p_id <$> players room.

(** * Properties *)

#[local] Set Warnings "-clear-no-such-hyp".

(** ** Ordered dictionaries and the stable sort *)

Section JsObj.
Context {V : Type}.
Implicit Types (o : Js.obj V) (k : string) (v : V).

Lemma get_set o k k' v :
  Js.get (Js.set o k v) k' = if decide (k = k') then Some v else Js.get o k'.
Proof.
  induction o as [|[k0 v0] o IH]; simpl.
  - repeat case_decide; congruence.
  - destruct (decide (k0 = k)) as [->|Hne]; simpl.
    + repeat case_decide; congruence.
    + rewrite IH. repeat case_decide; congruence.
Qed.

Lemma get_Some_elem o k v : Js.get o k = Some v → (k, v) ∈ o.
Proof.
  induction o as [|[k0 v0] o IH]; simpl; [done|].
  case_decide; intros; simplify_eq; [left | right; auto].
Qed.

Lemma elem_get o k v : NoDup (Js.keys o) → (k, v) ∈ o → Js.get o k = Some v.
Proof.
  unfold Js.keys. induction o as [|[k0 v0] o IH]; simpl.
  - intros _ H. by apply elem_of_nil in H.
  - rewrite NoDup_cons, elem_of_cons. intros [Hk0 Hnd] [Heq|Hin].
    + simplify_eq. by rewrite decide_True.
    + rewrite decide_False; [auto|].
      intros ->. apply Hk0. apply (list_elem_of_fmap_2 fst _ _ Hin).
Qed.

Lemma keys_set o k v :
  Js.keys (Js.set o k v) =
  if decide (k ∈ Js.keys o) then Js.keys o else Js.keys o ++ [k].
Proof.
  unfold Js.keys. induction o as [|[k0 v0] o IH].
  - cbn [Js.set fmap list_fmap]. destruct (decide (k ∈ [])) as [H|_]; [|done].
    by apply elem_of_nil in H.
  - cbn [Js.set fmap list_fmap fst].
    destruct (decide (k0 = k)) as [->|Hne]; cbn [fmap list_fmap fst].
    + rewrite decide_True; [done | left].
    + rewrite IH. destruct (decide (k ∈ o.*1)) as [Hin|Hnin].
      * rewrite decide_True; [done | by right].
      * rewrite decide_False; [done|].
        rewrite not_elem_of_cons. naive_solver.
Qed.

Lemma get_None o k : Js.get o k = None ↔ k ∉ Js.keys o.
Proof.
  unfold Js.keys. induction o as [|[k0 v0] o IH]; simpl.
  - split; [intros _ H; by apply elem_of_nil in H | done].
  - rewrite not_elem_of_cons. case_decide; naive_solver.
Qed.

Lemma keys_insert_index i o k v :
  Js.keys (Js.insert_index i k v o) ≡ₚ k :: Js.keys o.
Proof.
  unfold Js.keys. induction o as [|[k0 v0] o IH]; simpl; [done|].
  destruct (Js.array_index k0) as [j|]; [|done].
  destruct (decide (j < i)%N); [|done]. simpl. rewrite IH.
  apply Permutation_swap.
Qed.

Lemma get_insert_index i o k k' v :
  Js.get o k = None →
  Js.get (Js.insert_index i k v o) k'
  = if decide (k = k') then Some v else Js.get o k'.
Proof.
  induction o as [|[k0 v0] o IH]; cbn [Js.insert_index Js.get]; [done|].
  destruct (decide (k0 = k)) as [->|Hne]; [done|]. intros Hk.
  specialize (IH Hk).
  destruct (Js.array_index k0) as [j|]; [destruct (decide (j < i)%N)|];
    cbn [Js.get]; rewrite ?IH;
    destruct (decide (k = k')), (decide (k0 = k')); congruence.
Qed.

Lemma get_put o k k' v :
  Js.get (Js.put o k v) k' = if decide (k = k') then Some v else Js.get o k'.
Proof.
  unfold Js.put. destruct (Js.get o k) as [v0|] eqn:Hk; [apply get_set|].
  destruct (Js.array_index k) as [i|]; [|apply get_set].
  by apply get_insert_index.
Qed.

Lemma keys_put o k v :
  Js.keys (Js.put o k v) ≡ₚ
  if decide (k ∈ Js.keys o) then Js.keys o else k :: Js.keys o.
Proof.
  unfold Js.put. destruct (Js.get o k) as [v0|] eqn:Hk.
  - rewrite keys_set, !decide_True; [done|..];
      by apply dec_stable; rewrite <-get_None, Hk.
  - apply get_None in Hk. rewrite (decide_False (P := k ∈ Js.keys o)) by done.
    destruct (Js.array_index k) as [i|]; [apply keys_insert_index|].
    rewrite keys_set, decide_False by done.
    by rewrite Permutation_app_comm.
Qed.

Lemma NoDup_keys_put o k v :
  NoDup (Js.keys o) → NoDup (Js.keys (Js.put o k v)).
Proof.
  intros Hnd. rewrite keys_put. case_decide; [done|]. by constructor.
Qed.

End JsObj.

Section Sort.
Context {A : Type} (cmp : A → A → Z).

Lemma head_sort_insert x l :
  head (Js.sort_insert cmp x l) =
  match head l with
  | None => Some x
  | Some y => if (cmp x y <=? 0)%Z then Some x else Some y
  end.
Proof. destruct l as [|y l]; simpl; [done|]. by case_match. Qed.

Lemma head_sort_cons x l :
  head (Js.sort cmp (x :: l)) =
  match head (Js.sort cmp l) with
  | None => Some x
  | Some y => if (cmp x y <=? 0)%Z then Some x else Some y
  end.
Proof. apply head_sort_insert. Qed.

Lemma head_sort_elem l e : head (Js.sort cmp l) = Some e → e ∈ l.
Proof.
  revert e. induction l as [|x l IH]; intros e; [done|].
  rewrite head_sort_cons.
  destruct (head (Js.sort cmp l)) as [y|]; [|intros [= <-]; left].
  case_match; intros [= <-]; [left | right; by apply IH].
Qed.

Lemma head_sort_nil l : head (Js.sort cmp l) = None → l = [].
Proof.
  destruct l as [|x l]; [done|]. rewrite head_sort_cons.
  repeat case_match; done.
Qed.
End Sort.

(** The head of a stable sort by descending measure: the first element
    whose measure is maximal. *)
Lemma head_sort_by {A} (cmp : A → A → Z) (f : A → nat) (P : A → Prop)
    (l : list A) (e : A) :
  (∀ a b, P a → P b → cmp a b = (Z.of_nat (f b) - Z.of_nat (f a))%Z) →
  Forall P l →
  head (Js.sort cmp l) = Some e →
  ∃ a1 a2, l = a1 ++ e :: a2 ∧
    (∀ e', e' ∈ a1 → f e' < f e) ∧ (∀ e', e' ∈ a2 → f e' ≤ f e).
Proof.
  intros Hcmp Hall. revert e.
  induction Hall as [|x l Hx Hall IH]; intros e; [done|].
  rewrite head_sort_cons.
  destruct (head (Js.sort cmp l)) as [y|] eqn:Hy.
  - destruct (IH y eq_refl) as (a1 & a2 & -> & Hlt & Hle).
    assert (Py : P y).
    { eapply Forall_forall in Hall; [exact Hall|].
      rewrite elem_of_app, elem_of_cons. auto. }
    rewrite (Hcmp x y Hx Py). case_match eqn:Hc; intros [= <-].
    + apply Z.leb_le in Hc.
      exists [], (a1 ++ y :: a2). split; [done|]. split.
      * intros e' H. by apply elem_of_nil in H.
      * intros e'. rewrite elem_of_app, elem_of_cons.
        intros [H|[->|H]]; [apply Hlt in H | | apply Hle in H]; lia.
    + apply Z.leb_gt in Hc.
      exists (x :: a1), a2. split; [done|]. split; [|done].
      intros e'. rewrite elem_of_cons. intros [->|H]; [lia | by apply Hlt].
  - apply head_sort_nil in Hy as ->. intros [= <-].
    exists [], []. split; [done|].
    split; intros e' H; by apply elem_of_nil in H.
Qed.

(** ** The order of enumeration *)

Lemma array_index_inj x y i :
  Js.array_index x = Some i → Js.array_index y = Some i → x = y.
Proof.
  unfold Js.array_index. intros Hx Hy.
  destruct (NilZero.uint_of_string x) as [dx|]; [|done].
  destruct (NilZero.uint_of_string y) as [dy|]; [|done].
  cbv zeta in *. repeat case_decide; simplify_eq. naive_solver congruence.
Qed.

Lemma firstPos_app x l l' : x ∈ l → firstPos x (l ++ l') = firstPos x l.
Proof.
  induction l as [|y l IH]; simpl; [by intros ?%elem_of_nil|].
  rewrite elem_of_cons. destruct (decide (y = x)) as [|Hne]; [done|].
  intros [->|Hin]; [done|]. by rewrite IH.
Qed.

Lemma firstPos_lt x l : x ∈ l → firstPos x l < length l.
Proof.
  induction l as [|y l IH]; simpl; [by intros ?%elem_of_nil|].
  rewrite elem_of_cons. destruct (decide (y = x)) as [|Hne]; [lia|].
  intros [->|Hin]; [done|]. apply IH in Hin. lia.
Qed.

Lemma firstPos_new x l : x ∉ l → firstPos x (l ++ [x]) = length l.
Proof.
  induction l as [|y l IH]; simpl.
  - by rewrite decide_True.
  - rewrite not_elem_of_cons. intros [Hne Hnin].
    rewrite decide_False by done. by rewrite IH.
Qed.

Lemma enumBefore_trans acc x y z :
  enumBefore acc x y → enumBefore acc y z → enumBefore acc x z.
Proof.
  unfold enumBefore.
  destruct (Js.array_index x), (Js.array_index y), (Js.array_index z);
    try done; lia.
Qed.

Lemma enumBefore_snoc l z x y :
  x ∈ l → y ∈ l → enumBefore l x y → enumBefore (l ++ [z]) x y.
Proof.
  unfold enumBefore. intros Hx Hy.
  destruct (Js.array_index x), (Js.array_index y); try done.
  by rewrite !firstPos_app.
Qed.

Lemma enumerated_ext acc acc' ks :
  (∀ x y, x ∈ ks → y ∈ ks → enumBefore acc x y → enumBefore acc' x y) →
  enumerated acc ks → enumerated acc' ks.
Proof.
  induction ks as [|k ks IH]; [done|]. intros Hext [Hk Hks]. split.
  - apply Forall_forall. intros y Hy.
    apply Hext; [left | by right |].
    eapply Forall_forall in Hk; [exact Hk | done].
  - apply IH; [|done]. intros x y Hx Hy. apply Hext; by right.
Qed.

Lemma enumerated_snoc acc ks k :
  enumerated acc ks → Forall (λ x, enumBefore acc x k) ks →
  enumerated acc (ks ++ [k]).
Proof.
  induction ks as [|k0 ks IH]; simpl; [done|].
  intros [Hk0 Hks] [H0 Hall]%Forall_cons. split; [|by apply IH].
  apply Forall_app. split; [done|]. by constructor.
Qed.

Lemma enumerated_app acc ks1 k ks2 :
  enumerated acc (ks1 ++ k :: ks2) → Forall (enumBefore acc k) ks2.
Proof.
  induction ks1 as [|k0 ks1 IH]; simpl; [by intros [? _]|].
  intros [_ H]. by apply IH.
Qed.

Lemma enumerated_insert {V} acc i k (v : V) (o : Js.obj V) :
  Js.array_index k = Some i → k ∉ Js.keys o →
  enumerated acc (Js.keys o) →
  enumerated acc (Js.keys (Js.insert_index i k v o)).
Proof.
  intros Hi. unfold Js.keys.
  induction o as [|[k0 v0] o IH]; simpl; [done|].
  rewrite not_elem_of_cons. intros [Hne Hnin] [Hk0 Ho].
  assert (Hrest : enumBefore acc k k0 →
            Forall (enumBefore acc k) (k0 :: o.*1)).
  { intros Hb. constructor; [done|].
    eapply Forall_impl; [exact Hk0|]. intros y. by apply enumBefore_trans. }
  destruct (Js.array_index k0) as [j|] eqn:Hj.
  - case_decide as Hlt; simpl.
    + split; [|by apply IH].
      rewrite (keys_insert_index i o k v). constructor; [|done].
      unfold enumBefore. by rewrite Hj, Hi.
    + split; [|done]. apply Hrest. unfold enumBefore. rewrite Hi, Hj.
      destruct (decide (j = i)) as [->|]; [|lia].
      destruct Hne. by eapply array_index_inj.
  - simpl. split; [|done]. apply Hrest. unfold enumBefore. by rewrite Hi, Hj.
Qed.

(** ** The tally *)

Lemma tallyVotes_tallyOf vs : tallyVotes vs = tallyOf (Js.values vs).
Proof. reflexivity. Qed.

Lemma votesFor_snoc x l y :
  votesFor x (l ++ [y]) = votesFor x l + (if decide (y = x) then 1 else 0).
Proof.
  unfold votesFor. rewrite filter_app, length_app. f_equal.
  rewrite filter_cons, filter_nil. by case_decide.
Qed.

Lemma votesFor_pos x l : 0 < votesFor x l ↔ x ∈ l.
Proof.
  unfold votesFor. induction l as [|y l IH].
  - simpl. split; [lia | intros H; by apply elem_of_nil in H].
  - rewrite filter_cons, elem_of_cons. case_decide; simpl; naive_solver lia.
Qed.

Lemma elem_of_counted x l : x ∈ counted l ↔ x ∈ l ∧ x ≠ "__proto__".
Proof. unfold counted. rewrite list_elem_of_filter. tauto. Qed.

Lemma tallyOf_snoc l x : tallyOf (l ++ [x]) = tallyStep (tallyOf l) x.
Proof. unfold tallyOf. by rewrite foldl_app. Qed.

Lemma get_tallyOf l x :
  Js.get (tallyOf l) x =
  if decide (x ∈ counted l) then Some (tallied l x) else None.
Proof.
  induction l as [|y l IH] using rev_ind.
  - destruct (decide (x ∈ counted [])) as [H|_]; [by apply elem_of_nil in H | done].
  - rewrite tallyOf_snoc. unfold tallyStep.
    destruct (decide (y = "__proto__")) as [->|Hy].
    + rewrite IH.
      assert (Hc : counted (l ++ ["__proto__"]) = counted l).
      { unfold counted. rewrite filter_app, filter_cons, filter_nil.
        destruct (decide ("__proto__" ≠ "__proto__")) as [Hp|_];
          [by destruct Hp | by rewrite app_nil_r]. }
      rewrite Hc. destruct (decide (x ∈ counted l)) as [Hin|]; [|done].
      apply elem_of_counted in Hin as [_ Hx].
      unfold tallied. rewrite votesFor_snoc.
      by rewrite (decide_False (P := "__proto__" = x)), Nat.add_0_r.
    + rewrite get_put.
      assert (Hc : ∀ z, z ∈ counted (l ++ [y]) ↔ z ∈ counted l ∨ z = y).
      { intros z. rewrite !elem_of_counted, elem_of_app, list_elem_of_singleton.
        naive_solver. }
      destruct (decide (y = x)) as [->|Hne].
      * rewrite (decide_True (P := x ∈ counted (l ++ [x]))) by (apply Hc; auto).
        f_equal. unfold bumped. rewrite IH. unfold tallied.
        rewrite votesFor_snoc, (decide_True (P := x = x)) by done.
        destruct (decide (x ∈ counted l)) as [Hin|Hin].
        -- by destruct (decide (x ∈ Js.inherited)).
        -- assert (Hv : votesFor x l = 0).
           { assert (Hnin : x ∉ l)
               by (rewrite elem_of_counted in Hin; naive_solver).
             apply (not_iff_compat (votesFor_pos x l)) in Hnin. lia. }
           rewrite Hv.
           destruct (decide (x ∈ Js.inherited)) as [Hi|Hi].
           ++ rewrite decide_True; [done | by right].
           ++ rewrite decide_False; [done|].
              rewrite not_elem_of_cons. by split.
      * rewrite IH. unfold tallied. rewrite votesFor_snoc.
        rewrite (decide_False (P := y = x)), Nat.add_0_r by done.
        destruct (decide (x ∈ counted l)) as [Hin|Hin].
        -- rewrite (decide_True (P := x ∈ counted (l ++ [y])));
             [done | apply Hc; auto].
        -- rewrite (decide_False (P := x ∈ counted (l ++ [y])));
             [done|]. rewrite Hc. naive_solver.
Qed.

Lemma elem_of_keys_tallyOf l x : x ∈ Js.keys (tallyOf l) ↔ x ∈ counted l.
Proof.
  pose proof (get_None (tallyOf l) x) as H. rewrite get_tallyOf in H.
  case_decide; split; try done.
  - intros _. apply dec_stable. intros Hn. by apply H in Hn.
  - intros Hin. by apply H in Hin.
Qed.

Lemma NoDup_keys_tallyOf l : NoDup (Js.keys (tallyOf l)).
Proof.
  induction l as [|y l IH] using rev_ind; [constructor|].
  rewrite tallyOf_snoc. unfold tallyStep. case_decide; [done|].
  by apply NoDup_keys_put.
Qed.

Lemma enumerated_tallyOf l : enumerated l (Js.keys (tallyOf l)).
Proof.
  induction l as [|y l IH] using rev_ind; [done|].
  assert (Hold : enumerated (l ++ [y]) (Js.keys (tallyOf l))).
  { eapply enumerated_ext; [|exact IH]. intros a b Ha Hb.
    apply elem_of_keys_tallyOf, elem_of_counted in Ha as [Ha _].
    apply elem_of_keys_tallyOf, elem_of_counted in Hb as [Hb _].
    by apply enumBefore_snoc. }
  rewrite tallyOf_snoc. unfold tallyStep. case_decide as Hy; [done|].
  unfold Js.put. destruct (Js.get (tallyOf l) y) as [v0|] eqn:Hg.
  - rewrite keys_set, decide_True; [done|].
    apply dec_stable. by rewrite <-get_None, Hg.
  - apply get_None in Hg.
    destruct (Js.array_index y) as [i|] eqn:Hi.
    + by apply enumerated_insert.
    + rewrite keys_set, decide_False by done.
      apply enumerated_snoc; [done|]. apply Forall_forall. intros a Ha.
      assert (Hnin : y ∉ l).
      { intros Hin. apply Hg, elem_of_keys_tallyOf, elem_of_counted. done. }
      apply elem_of_keys_tallyOf, elem_of_counted in Ha as [Ha _].
      unfold enumBefore. rewrite Hi.
      destruct (Js.array_index a); [done|].
      rewrite firstPos_app, firstPos_new by done. by apply firstPos_lt.
Qed.

Lemma elem_tallyOf l x v :
  (x, v) ∈ tallyOf l → x ∈ counted l ∧ v = tallied l x.
Proof.
  intros H. apply elem_get in H; [|apply NoDup_keys_tallyOf].
  rewrite get_tallyOf in H. case_decide; naive_solver.
Qed.

Lemma tallied_count l x :
  Forall (λ y, y ∉ Js.inherited) l → x ∈ l →
  tallied l x = Count (votesFor x l).
Proof.
  intros Hall Hx. unfold tallied. rewrite decide_False; [done|].
  eapply Forall_forall in Hall; [exact Hall | done].
Qed.

(** The suspect read off the tally by [computeVoting], when no vote names
    a method of [Object.prototype]: a counted identity with the largest
    number of votes; among several, the one that the tally enumerates
    first. *)
Lemma suspectedOf_tallyOf (accused : list string) :
  Forall (λ x, x ∉ Js.inherited) accused →
  match suspectedOf (tallyOf accused) with
  | None => counted accused = []
  | Some x =>
      x ∈ counted accused ∧
      (∀ y, y ∈ counted accused →
         votesFor y accused ≤ votesFor x accused) ∧
      (∀ y, y ∈ counted accused → y ≠ x →
         votesFor y accused = votesFor x accused →
         enumBefore accused x y)
  end.
Proof.
  intros Hall. unfold suspectedOf, Js.entries.
  assert (Hcount : ∀ y v, (y, v) ∈ tallyOf accused →
            y ∈ counted accused ∧ v = Count (votesFor y accused)).
  { intros y v [Hy ->]%elem_tallyOf. split; [done|].
    apply tallied_count; [done|]. by apply elem_of_counted in Hy as [? _]. }
  destruct (head (Js.sort byCountDesc (tallyOf accused))) as [[x v]|] eqn:Hh;
    simpl.
  - apply (head_sort_by byCountDesc (λ e, countOf e.2)
             (λ e, ∃ n, e.2 = Count n)) in Hh
      as (a1 & a2 & Ht & Hlt & Hle).
    + assert (Hx : (x, v) ∈ tallyOf accused)
        by (rewrite Ht, elem_of_app, elem_of_cons; auto).
      apply Hcount in Hx as [Hx ->]. simpl in Hlt, Hle.
      assert (Hwhere : ∀ y, y ∈ counted accused → y ≠ x →
                (y, Count (votesFor y accused)) ∈ a1 ∨
                (y, Count (votesFor y accused)) ∈ a2).
      { intros y Hy Hne.
        pose proof (get_tallyOf accused y) as Hg.
        rewrite decide_True in Hg by done.
        apply get_Some_elem in Hg.
        rewrite tallied_count in Hg
          by (done || by apply elem_of_counted in Hy as [? _]).
        rewrite Ht, elem_of_app, elem_of_cons in Hg.
        destruct Hg as [Hg|[Hg|Hg]]; [by left | congruence | by right]. }
      split_and!; [done | |].
      * intros y Hy. destruct (decide (y = x)) as [->|Hne]; [done|].
        destruct (Hwhere y Hy Hne) as [Hg|Hg];
          [apply Hlt in Hg | apply Hle in Hg]; simpl in Hg; lia.
      * intros y Hy Hne Heq.
        destruct (Hwhere y Hy Hne) as [Hg|Hg].
        { apply Hlt in Hg. simpl in Hg. lia. }
        pose proof (enumerated_tallyOf accused) as Hen.
        unfold Js.keys in Hen. rewrite Ht, fmap_app, fmap_cons in Hen.
        apply enumerated_app in Hen.
        eapply Forall_forall in Hen; [exact Hen|].
        by apply (list_elem_of_fmap_2 fst _ _ Hg).
    + intros [a va] [b vb] [n Hn] [m Hm]. simpl in Hn, Hm. by subst.
    + apply Forall_forall. intros [y v'] Hy.
      apply Hcount in Hy as [_ ->]. by eexists.
  - apply head_sort_nil in Hh.
    destruct (counted accused) as [|y l] eqn:Hc; [done|]. exfalso.
    assert (Hy : y ∈ counted accused) by (rewrite Hc; left).
    apply elem_of_keys_tallyOf in Hy. rewrite Hh in Hy.
    by apply elem_of_nil in Hy.
Qed.

(** Whoever is suspected was counted; nobody is suspected exactly when
    nothing was counted. *)
Lemma suspectedOf_counted (accused : list string) :
  match suspectedOf (tallyOf accused) with
  | None => counted accused = []
  | Some x => x ∈ counted accused
  end.
Proof.
  unfold suspectedOf, Js.entries.
  destruct (head (Js.sort byCountDesc (tallyOf accused))) as [[x v]|] eqn:Hh;
    simpl.
  - apply head_sort_elem in Hh. by apply elem_tallyOf in Hh as [? _].
  - apply head_sort_nil in Hh.
    destruct (counted accused) as [|y l] eqn:Hc; [done|]. exfalso.
    assert (Hy : y ∈ counted accused) by (rewrite Hc; left).
    apply elem_of_keys_tallyOf in Hy. rewrite Hh in Hy.
    by apply elem_of_nil in Hy.
Qed.

Lemma strict_ne_false suspected imposter :
  strict_ne suspected imposter = false ↔
  ∃ x, suspected = Some x ∧ imposter = Some x.
Proof.
  destruct suspected as [a|], imposter as [b|]; simpl;
    rewrite ?bool_decide_eq_false; try naive_solver.
  split.
  - intros H. exists a. split; [done|]. f_equal.
    destruct (decide (a = b)); [done | contradiction].
  - intros (x & [= ->] & [= ->]). auto.
Qed.

(** ** Claim C1 *)

(** C1, counterexample: "a" and "b" end with two votes each; "b" is the
    first to reach two votes (at the third vote), yet the server names "a",
    whose first accusation is the earliest, and lets the imposter "b" win. *)
Lemma computeVoting_first_to_reach_counterexample :
  let s := (run initial tieTrace).1 in
  let s' := (step s tieLastVote).1 in
  (phase <$> heap s !! 0) = Some Voting ∧
  (votes <$> heap s' !! 0) =
    Some [("a", "a"); ("b", "b"); ("c", "b"); ("d", "a")] ∧
  last (step s tieLastVote).2 =
    Some (Emit "AAAAAA"
            (phase_results (Some "a") (Some "b") (Some "Tisch")
               [("a", Count 2); ("b", Count 2)] true)) ∧
  firstToReachMax ["a"; "b"; "b"; "a"] = Some "b".
Proof. vm_compute. done. Qed.

(** C1, as the code has it: [computeVoting] reports nobody exactly when no
    vote is counted, votes for [__proto__] not being counted; otherwise it
    reports a counted identity.  When no vote names a method of
    [Object.prototype], that identity has the largest number of votes, and
    ties go to the identity that the tally enumerates first, which is the
    smallest array index among them or, when none is an array index, the one
    whose first accusation comes first in the order of the vote map.  The
    imposter's side loses exactly when the suspected identity is the
    imposter's, so it wins in particular when no vote is counted. *)
Theorem computeVoting_suspected (room : RoomState) :
  let accused := Js.values (votes room) in
  ∃ suspected imposterWins,
    (computeVoting room).2 =
      emitRoom (computeVoting room).1 ++
      [Emit (code room)
         (phase_results suspected (imposterId room) (realWord room)
            (tallyVotes (votes room)) imposterWins)] ∧
    (imposterWins = false ↔
       ∃ x, suspected = Some x ∧ imposterId room = Some x) ∧
    (suspected = None ↔ counted accused = []) ∧
    (counted accused = [] → imposterWins = true) ∧
    ∀ x, suspected = Some x →
      x ∈ counted accused ∧
      (Forall (λ y, y ∉ Js.inherited) accused →
         (∀ y, y ∈ counted accused →
            votesFor y accused ≤ votesFor x accused) ∧
         (∀ y, y ∈ counted accused → y ≠ x →
            votesFor y accused = votesFor x accused →
            enumBefore accused x y)).
Proof.
  intros accused.
  exists (suspectedOf (tallyVotes (votes room))),
         (strict_ne (suspectedOf (tallyVotes (votes room))) (imposterId room)).
  rewrite tallyVotes_tallyOf. fold accused.
  pose proof (suspectedOf_counted accused) as Hc.
  split_and!.
  - unfold computeVoting. rewrite tallyVotes_tallyOf. fold accused.
    destruct (Js.truthy (imposterId room)); reflexivity.
  - apply strict_ne_false.
  - destruct (suspectedOf (tallyOf accused)) as [x|]; [|done].
    split; [done|]. intros Hnil. rewrite Hnil in Hc.
    by apply elem_of_nil in Hc.
  - intros Hnil. destruct (suspectedOf (tallyOf accused)) as [x|]; [|done].
    rewrite Hnil in Hc. by apply elem_of_nil in Hc.
  - intros x Hx. rewrite Hx in Hc. split; [done|]. intros Hall.
    pose proof (suspectedOf_tallyOf accused Hall) as Hs.
    rewrite Hx in Hs. by destruct Hs as (_ & ? & ?).
Qed.

Lemma computeVoting_suspected_witness :
  "0" ∈ counted (Js.values (votes indexVotesRoom)) ∧
  enumBefore (Js.values (votes indexVotesRoom)) "0" "b".
Proof.
  destruct (computeVoting_suspected indexVotesRoom)
    as (su & iw & Hout & _ & _ & _ & Hsome).
  assert (Hsu : su = Some "0").
  { apply (f_equal last) in Hout. rewrite last_snoc in Hout.
    vm_compute in Hout. by injection Hout as <- _. }
  destruct (Hsome "0" Hsu) as [Hin Htie]. split; [exact Hin|].
  destruct Htie as [_ Htie];
    [apply (bool_decide_unpack _); vm_compute; exact I|].
  apply Htie; [vm_compute; repeat constructor | discriminate | reflexivity].
Defined.

(** ** Claim C9 *)

(** C9: the snapshot carries the imposter identity in phase [Results] and
    [null] in every other phase, and it is the same for two rooms that
    differ only in the real word, the decoy word and the vote map. *)
Theorem roomView_hides_secrets (room : RoomState) :
  (phase room = Results ∧ v_imposterId (roomView room) = imposterId room ∨
   phase room ≠ Results ∧ v_imposterId (roomView room) = None) ∧
  (∀ real fake vs,
     roomView (with_secrets real fake vs room) = roomView room).
Proof.
  split.
  - unfold roomView; simpl. case_decide; auto.
  - reflexivity.
Qed.

(** ** Room operations: what they leave alone *)

Lemma startTurn_cases self now room tm :
  players room = [] ∧ startTurn self now room tm = (room, tm, []) ∨
  players room ≠ [] ∧ length (players room) ≤ turnIndex room ∧
    (∃ out, startTurn self now room tm =
       (set_turnEndsAt None (set_currentDrawerId None (set_phase Voting room)),
        tm, out)) ∨
  turnIndex room < length (players room) ∧
    (∃ out, startTurn self now room tm =
       (set_timerRef (Some (nextTimer tm))
          (set_drawing []
             (set_turnEndsAt (Some (now + TURN_MS)%Z)
                (set_currentDrawerId (p_id <$> players room !! turnIndex room)
                   (set_phase Drawing room)))),
        (setTimeout self (clearTimer room tm)).2, out)).
Proof.
  unfold startTurn. destruct (decide (length (players room) = 0)) as [H0|H0].
  - left. by apply nil_length_inv in H0.
  - right. assert (players room ≠ []) by (by intros H; rewrite H in H0).
    case_decide.
    + left. eauto.
    + right. split; [lia|]. simpl. eexists. f_equal. f_equal.
      unfold clearTimer. simpl. by destruct (timerRef room).
Qed.

Lemma startGame_cases self rnd i j now room tm :
  length (players room) < 3 ∧
    startGame self rnd i j now room tm = (room, tm, []) ∨
  3 ≤ length (players room) ∧
    (∃ out,
       startGame self rnd i j now room tm =
       (set_timerRef (Some (nextTimer tm))
          (set_drawing []
             (set_turnEndsAt (Some (now + TURN_MS)%Z)
                (set_currentDrawerId (p_id <$> players room !! 0)
                   (set_phase Drawing
                      (set_secrets (pickImposter rnd (players room))
                         (pickWordPair i j).1 (pickWordPair i j).2
                         (set_votes []
                            (set_turnIndex 0
                               (set_round (round room + 1) room)))))))),
        (setTimeout self (clearTimer room tm)).2, out)).
Proof.
  unfold startGame. case_decide as Hlen; [by left | right].
  split; [lia|]. destruct (pickWordPair i j) as [real fake] eqn:Hw.
  set (room1 := set_secrets _ _ _ _).
  destruct (startTurn_cases self now room1 tm)
    as [[Hnil _]|[(_ & Hge & _)|(_ & out & ->)]].
  - subst room1. simpl in Hnil. rewrite Hnil in Hlen. simpl in Hlen. lia.
  - subst room1. simpl in Hge. lia.
  - eexists. reflexivity.
Qed.

Lemma computeVoting_room room :
  (computeVoting room).1 =
  set_turnEndsAt None
    (set_phase Results
       (if Js.truthy (imposterId room)
        then set_leaderboard
               (foldl (scoreVote
                         (strict_ne (suspectedOf (tallyVotes (votes room)))
                            (imposterId room)) room)
                      (leaderboard room) (players room)) room
        else room)).
Proof. reflexivity. Qed.

(** ** Invariants of the reachable states *)

Lemma invariant_initial : invariant initial.
Proof. split; simpl; intros *; by rewrite lookup_empty. Qed.

(** A pending timeout of a room is the one its [timerRef] names. *)
Lemma pending_unique s t t' ref :
  invariant s →
  pending (timers s) !! t = Some ref → pending (timers s) !! t' = Some ref →
  t = t'.
Proof.
  intros Hinv H1 H2.
  apply (inv_timer _ Hinv) in H1 as (_ & room & Hr & Ht & _).
  apply (inv_timer _ Hinv) in H2 as (_ & room' & Hr' & Ht' & _).
  congruence.
Qed.

(** Writing a changed room object back keeps the invariant, provided the
    pending timeouts are accounted for. *)
Lemma invariant_store s ref room room' tm' :
  invariant s →
  heap s !! ref = Some room →
  code room' = code room →
  hostInv room' →
  (players room' ≠ [] ∨ ∀ c, rooms s !! c ≠ Some ref) →
  (∀ t ref0, pending tm' !! t = Some ref0 →
     t < nextTimer tm' ∧
     (ref0 ≠ ref ∧ pending (timers s) !! t = Some ref0 ∨
      ref0 = ref ∧ timerRef room' = Some t ∧ players room' ≠ [] ∧
        (phase room' = Drawing ∨ phase room' = Results))) →
  invariant (store s ref room' tm').
Proof.
  intros Hinv Href Hcode Hhost Hlive Htm. split; simpl.
  - intros r x. rewrite lookup_insert. case_decide; intros; simplify_eq.
    + by eapply inv_fresh.
    + by eapply inv_fresh.
  - intros c r Hc. destruct (inv_rooms _ Hinv _ _ Hc) as (x & Hx & Hcx & Hne).
    rewrite lookup_insert. case_decide; simplify_eq; [|eauto].
    exists room'. split_and!; [done | done |].
    destruct Hlive as [?|Hno]; [done | by apply Hno in Hc].
  - intros r x. rewrite lookup_insert. case_decide; intros; simplify_eq;
      [done | by eapply inv_host].
  - intros t r Ht. destruct (Htm _ _ Ht) as [Hlt [[Hne Hold]|(-> & ? & ? & ?)]].
    + split; [done|].
      destruct (inv_timer _ Hinv _ _ Hold) as (_ & x & ? & ? & ? & ?).
      exists x. by rewrite lookup_insert_ne.
    + split; [done|]. exists room'. by rewrite lookup_insert_eq.
Qed.

(** The three ways a handler treats the timeout queue. *)
Lemma timers_kept s ref room room' :
  invariant s → heap s !! ref = Some room →
  timerRef room' = timerRef room →
  players room' ≠ [] →
  (phase room' = phase room ∨ phase room' = Results) →
  ∀ t ref0, pending (timers s) !! t = Some ref0 →
    t < nextTimer (timers s) ∧
    (ref0 ≠ ref ∧ pending (timers s) !! t = Some ref0 ∨
     ref0 = ref ∧ timerRef room' = Some t ∧ players room' ≠ [] ∧
       (phase room' = Drawing ∨ phase room' = Results)).
Proof.
  intros Hinv Href Ht Hne Hph t ref0 Hp.
  destruct (inv_timer _ Hinv _ _ Hp) as (Hlt & x & Hx & Htx & _ & Hphx).
  split; [done|]. destruct (decide (ref0 = ref)) as [->|]; [right | by left].
  simplify_eq. split_and!; [done | congruence | done |].
  destruct Hph as [->| ->]; auto.
Qed.

Lemma timers_cleared s ref room room' (tm : Timers) :
  invariant s → heap s !! ref = Some room →
  (∀ t r, pending tm !! t = Some r → pending (timers s) !! t = Some r) →
  nextTimer tm = nextTimer (timers s) →
  (∀ t, timerRef room = Some t → pending tm !! t = None) →
  ∀ t ref0, pending tm !! t = Some ref0 →
    t < nextTimer tm ∧
    (ref0 ≠ ref ∧ pending (timers s) !! t = Some ref0 ∨
     ref0 = ref ∧ timerRef room' = Some t ∧ players room' ≠ [] ∧
       (phase room' = Drawing ∨ phase room' = Results)).
Proof.
  intros Hinv Href Hsub Hnext Hclr t ref0 Hp.
  pose proof (Hsub _ _ Hp) as Hold.
  destruct (inv_timer _ Hinv _ _ Hold) as (Hlt & x & Hx & Htx & _).
  split; [lia|]. left. split; [|done].
  intros ->. simplify_eq. apply Hclr in Htx. congruence.
Qed.

Lemma timers_rearmed s ref room room1 room' (tm : Timers) :
  invariant s → heap s !! ref = Some room →
  timerRef room1 = timerRef room →
  (∀ t r, pending tm !! t = Some r → pending (timers s) !! t = Some r) →
  nextTimer tm = nextTimer (timers s) →
  timerRef room' = Some (nextTimer tm) →
  players room' ≠ [] → phase room' = Drawing →
  ∀ t ref0,
    pending (setTimeout ref (clearTimer room1 tm)).2 !! t = Some ref0 →
    t < nextTimer (setTimeout ref (clearTimer room1 tm)).2 ∧
    (ref0 ≠ ref ∧ pending (timers s) !! t = Some ref0 ∨
     ref0 = ref ∧ timerRef room' = Some t ∧ players room' ≠ [] ∧
       (phase room' = Drawing ∨ phase room' = Results)).
Proof.
  intros Hinv Href Hsame Hsub Hnext Ht' Hne Hph t ref0.
  assert (Hn : nextTimer (clearTimer room1 tm) = nextTimer tm)
    by (unfold clearTimer; by destruct (timerRef room1)).
  unfold setTimeout; simpl. rewrite Hn, lookup_insert.
  case_decide as Heq.
  - intros [= <-]. subst t. split; [lia|]. right. auto.
  - intros Hp.
    assert (Hp' : pending tm !! t = Some ref0 ∧
                  timerRef room ≠ Some t).
    { unfold clearTimer, clearTimeout in Hp. rewrite Hsame in Hp.
      destruct (timerRef room) as [t0|]; simpl in Hp; [|done].
      rewrite lookup_delete in Hp. case_decide; [done|].
      split; [done | congruence]. }
    destruct Hp' as [Hp' Hnt]. apply Hsub in Hp'.
    destruct (inv_timer _ Hinv _ _ Hp') as (Hlt & x & Hx & Htx & _).
    split; [lia|]. left. split; [|done]. intros ->. simplify_eq.
Qed.

(** The invariant does not read [socketToRoom], and survives the removal of
    registry entries. *)
Lemma invariant_ext s s' :
  invariant s →
  heap s' = heap s → nextRef s' = nextRef s → timers s' = timers s →
  (∀ c ref, rooms s' !! c = Some ref → rooms s !! c = Some ref) →
  invariant s'.
Proof.
  intros Hinv Hh Hn Ht Hr. split; rewrite ?Hh, ?Hn, ?Ht.
  - apply (inv_fresh _ Hinv).
  - intros c ref Hc. apply Hr in Hc. by apply (inv_rooms _ Hinv).
  - apply (inv_host _ Hinv).
  - apply (inv_timer _ Hinv).
Qed.

Lemma roomOf_Some s sid c ref room :
  roomOf s sid = Some (c, ref, room) ↔
  socketToRoom s !! sid = Some c ∧ c ≠ "" ∧
  rooms s !! c = Some ref ∧ heap s !! ref = Some room.
Proof.
  unfold roomOf. destruct (socketToRoom s !! sid) as [c'|]; simpl;
    [|naive_solver].
  case_decide; [naive_solver|].
  destruct (rooms s !! c') as [ref'|] eqn:Hr; simpl; [|naive_solver].
  destruct (heap s !! ref') as [room'|] eqn:Hh; simpl; naive_solver.
Qed.

Lemma store_same s ref room :
  heap s !! ref = Some room → store s ref room (timers s) = s.
Proof.
  intros H. unfold store. rewrite insert_id by done. by destruct s.
Qed.

Lemma hostInv_players room room' :
  players room' = players room → hostId room' = hostId room →
  hostInv room → hostInv room'.
Proof. unfold hostInv. by intros -> ->. Qed.

Lemma onCreate_invariant sid nm rnd s :
  invariant s → invariant (onCreate sid nm rnd s).1.
Proof.
  intros Hinv. split; simpl.
  - intros ref room. rewrite lookup_insert. case_decide; simplify_eq.
    + intros _; simpl; lia.
    + intros Hx. apply (inv_fresh _ Hinv) in Hx. lia.
  - intros c ref. rewrite lookup_insert. case_decide; simplify_eq.
    + intros [= <-]. rewrite lookup_insert_eq. eexists. by split_and!.
    + intros Hc. destruct (inv_rooms _ Hinv _ _ Hc) as (x & Hx & ? & ?).
      exists x. rewrite lookup_insert_ne; [done|].
      apply (inv_fresh _ Hinv) in Hx. lia.
  - intros ref room. rewrite lookup_insert. case_decide; simplify_eq.
    + intros [= <-]. unfold hostInv; simpl. by split_and!.
    + apply (inv_host _ Hinv).
  - intros t ref Ht.
    destruct (inv_timer _ Hinv _ _ Ht) as (? & x & Hx & ?).
    split; [done|]. exists x. rewrite lookup_insert_ne; [done|].
    apply (inv_fresh _ Hinv) in Hx. lia.
Qed.

Lemma onJoin_invariant sid c nm s :
  invariant s → invariant (onJoin sid c nm s).1.
Proof.
  intros Hinv. unfold onJoin.
  destruct (rooms s !! Js.toUpperCase c) as [ref|] eqn:Hc; [|done].
  destruct (inv_rooms _ Hinv _ _ Hc) as (room & Hroom & Hcode & Hne).
  rewrite Hroom. simpl.
  set (room' := set_leaderboard _ _).
  apply (invariant_ext (store s ref room' (timers s))); try done.
  apply (invariant_store _ _ room); try done.
  - pose proof (inv_host _ Hinv _ _ Hroom) as Hh. unfold hostInv in *.
    subst room'; simpl. destruct (players room) as [|p ps]; [done|].
    simpl. destruct Hh as (? & ? & ?). split_and!; [done | done |].
    apply Forall_app. split; [done|]. by apply Forall_singleton.
  - left. subst room'; simpl. by destruct (players room).
  - apply (timers_kept _ _ room); try done; [|by left].
    subst room'; simpl. by destruct (players room).
Qed.

Lemma onStart_invariant sid rnd i j now s :
  invariant s → invariant (onStart sid rnd i j now s).1.
Proof.
  intros Hinv. unfold onStart.
  destruct (roomOf s sid) as [[[c ref] room]|] eqn:Hr; [|done].
  apply roomOf_Some in Hr as (_ & _ & Hc & Hroom).
  case_decide; [done|].
  destruct (inv_rooms _ Hinv _ _ Hc) as (? & ? & _ & Hne). simplify_eq.
  destruct (startGame_cases ref rnd i j now room (timers s))
    as [[_ ->]|[Hlen [out ->]]]; simpl.
  - by rewrite store_same.
  - apply (invariant_store _ _ room); try done.
    + by apply (hostInv_players room), (inv_host _ Hinv _ _ Hroom).
    + by left.
    + by apply (timers_rearmed _ _ room).
Qed.

Lemma onStroke_invariant sid stroke s :
  invariant s → invariant (onStroke sid stroke s).1.
Proof.
  intros Hinv. unfold onStroke.
  destruct (roomOf s sid) as [[[c ref] room]|] eqn:Hr; [|done].
  apply roomOf_Some in Hr as (_ & _ & Hc & Hroom).
  case_decide; [done|]. simpl.
  destruct (inv_rooms _ Hinv _ _ Hc) as (? & ? & _ & Hne). simplify_eq.
  apply (invariant_store _ _ room); try done.
  - by apply (hostInv_players room), (inv_host _ Hinv _ _ Hroom).
  - by left.
  - apply (timers_kept _ _ room); try done. by left.
Qed.

Lemma onChat_invariant sid msg now s :
  invariant s → invariant (onChat sid msg now s).1.
Proof.
  intros Hinv. unfold onChat.
  destruct (roomOf s sid) as [[[c ref] room]|] eqn:Hr; [|done].
  apply roomOf_Some in Hr as (_ & _ & Hc & Hroom).
  case_match; [|done]. simpl.
  destruct (inv_rooms _ Hinv _ _ Hc) as (? & ? & _ & Hne). simplify_eq.
  apply (invariant_store _ _ room); try done.
  - by apply (hostInv_players room), (inv_host _ Hinv _ _ Hroom).
  - by left.
  - apply (timers_kept _ _ room); try done. by left.
Qed.

Lemma computeVoting_frame room :
  let room' := (computeVoting room).1 in
  code room' = code room ∧ players room' = players room ∧
  hostId room' = hostId room ∧ timerRef room' = timerRef room ∧
  phase room' = Results ∧ round room' = round room ∧
  votes room' = votes room ∧ turnIndex room' = turnIndex room ∧
  imposterId room' = imposterId room ∧ realWord room' = realWord room.
Proof.
  rewrite computeVoting_room. by destruct (Js.truthy (imposterId room)).
Qed.

Lemma onVote_invariant sid targetId s :
  invariant s → invariant (onVote sid targetId s).1.
Proof.
  intros Hinv. unfold onVote.
  destruct (roomOf s sid) as [[[c ref] room]|] eqn:Hr; [|done].
  apply roomOf_Some in Hr as (_ & _ & Hc & Hroom).
  case_decide; [done|].
  destruct (inv_rooms _ Hinv _ _ Hc) as (? & ? & _ & Hne). simplify_eq.
  set (room1 := set_votes _ _).
  case_decide.
  - destruct (computeVoting room1) as [room' out'] eqn:Hcv. simpl.
    pose proof (computeVoting_frame room1) as Hf. rewrite Hcv in Hf.
    simpl in Hf. destruct Hf as (? & Hp & Hh & Ht & Hph & _).
    apply (invariant_store _ _ room); try done.
    + by apply (hostInv_players room), (inv_host _ Hinv _ _ Hroom).
    + left. by rewrite Hp.
    + apply (timers_kept _ _ room); try done; [by rewrite Hp | by right].
  - simpl. apply (invariant_store _ _ room); try done.
    + by apply (hostInv_players room), (inv_host _ Hinv _ _ Hroom).
    + by left.
    + apply (timers_kept _ _ room); try done. by left.
Qed.

Lemma onGuess_invariant sid guess s :
  invariant s → invariant (onGuess sid guess s).1.
Proof.
  intros Hinv. unfold onGuess.
  destruct (roomOf s sid) as [[[c ref] room]|] eqn:Hr; [|done].
  apply roomOf_Some in Hr as (_ & _ & Hc & Hroom).
  case_decide; [done|]. case_match; [|done]. simpl.
  destruct (inv_rooms _ Hinv _ _ Hc) as (? & ? & _ & Hne). simplify_eq.
  apply (invariant_store _ _ room); try done.
  - by apply (hostInv_players room), (inv_host _ Hinv _ _ Hroom).
  - by left.
  - apply (timers_kept _ _ room); try done. by right.
Qed.

Lemma leave_frame sid room :
  let room' := leave sid room in
  code room' = code room ∧ phase room' = phase room ∧
  round room' = round room ∧ turnIndex room' = turnIndex room ∧
  currentDrawerId room' = currentDrawerId room ∧
  turnEndsAt room' = turnEndsAt room ∧ drawing room' = drawing room ∧
  chat room' = chat room ∧ timerRef room' = timerRef room ∧
  votes room' = votes room ∧ imposterId room' = imposterId room ∧
  realWord room' = realWord room ∧ fakeWord room' = fakeWord room ∧
  leaderboard room' = delete sid (leaderboard room).
Proof. unfold leave; simpl. repeat case_match; by split_and!. Qed.

Lemma leave_players sid room :
  players (leave sid room) =
  if decide (hostId room = sid)
  then promoteFirst (filter (λ p, p_id p ≠ sid) (players room))
  else filter (λ p, p_id p ≠ sid) (players room).
Proof.
  unfold leave; simpl. case_decide; [|done].
  by destruct (filter _ (players room)).
Qed.

Lemma leave_hostId sid room :
  hostId (leave sid room) =
  match decide (hostId room = sid),
        filter (λ p, p_id p ≠ sid) (players room) with
  | left _, p :: _ => p_id p
  | _, _ => hostId room
  end.
Proof. unfold leave; simpl. by repeat case_match. Qed.

Lemma leave_hostInv sid room : hostInv room → hostInv (leave sid room).
Proof.
  unfold hostInv. rewrite leave_players, leave_hostId.
  destruct (players room) as [|p ps]; [by case_decide|].
  intros (Hp & Hid & Hps). rewrite filter_cons.
  assert (Hf : Forall (λ q, isHost q = false)
                 (filter (λ p, p_id p ≠ sid) ps))
    by (apply Forall_forall; intros q [_ Hq]%list_elem_of_filter;
        by eapply Forall_forall in Hps).
  destruct (decide (hostId room = sid)) as [Hs|Hs].
  - rewrite decide_False by congruence.
    destruct (filter _ ps) as [|q qs]; [done|]. simpl.
    apply Forall_cons in Hf as [_ Hf]. done.
  - rewrite decide_True by congruence. done.
Qed.

Lemma onDisconnect_invariant sid s :
  invariant s → invariant (onDisconnect sid s).1.
Proof.
  intros Hinv. unfold onDisconnect.
  destruct (socketToRoom s !! sid) as [c|]; [|done].
  case_decide; [done|]. simpl.
  destruct (rooms s !! c) as [ref|] eqn:Hc; simpl;
    [|by apply (invariant_ext s)].
  destruct (inv_rooms _ Hinv _ _ Hc) as (room & Hroom & Hcode & Hne).
  rewrite Hroom; simpl.
  destruct (leave_frame sid room) as (Hco & Hph & _ & _ & _ & _ & _ & _ & Ht & _).
  pose proof (leave_hostInv sid room (inv_host _ Hinv _ _ Hroom)) as Hh.
  case_decide as Hlen.
  - simpl.
    set (s1 := {| heap := heap s; nextRef := nextRef s;
                  rooms := delete c (rooms s);
                  socketToRoom := delete sid (socketToRoom s);
                  timers := timers s |}).
    assert (Hinv1 : invariant s1).
    { apply (invariant_ext s); try done. intros c' r. simpl.
      rewrite lookup_delete. by case_decide. }
    apply (invariant_store s1 ref room (leave sid room)
             (clearTimer (leave sid room) (timers s))) in Hinv1; try done.
    + right. intros c'. simpl. rewrite lookup_delete. case_decide; [done|].
      intros Hc'. destruct (inv_rooms _ Hinv _ _ Hc') as (x & ? & ? & _).
      congruence.
    + apply (timers_cleared _ _ room); try done.
      * unfold clearTimer, clearTimeout. simpl.
        destruct (timerRef (leave sid room)); simpl; [|done].
        intros t r. rewrite lookup_delete. by case_decide.
      * unfold clearTimer. by destruct (timerRef (leave sid room)).
      * unfold clearTimer. rewrite Ht. intros t ->. simpl.
        by rewrite lookup_delete_eq.
  - simpl.
    apply (invariant_ext (store s ref (leave sid room) (timers s))); try done.
    assert (players (leave sid room) ≠ [])
      by (intros Hnil; by rewrite Hnil in Hlen).
    apply (invariant_store _ _ room); try done; [by left|].
    apply (timers_kept _ _ room); try done. by left.
Qed.

Lemma onTimer_invariant t now s :
  invariant s → invariant (onTimer t now s).1.
Proof.
  intros Hinv. unfold onTimer.
  destruct (pending (timers s) !! t) as [ref|] eqn:Hp; [|done].
  destruct (inv_timer _ Hinv _ _ Hp) as (Hlt & room & Hroom & Ht & Hne & _).
  rewrite Hroom. unfold onTimeout.
  set (room1 := set_turnIndex _ _). set (tm := clearTimeout t (timers s)).
  assert (Hsub : ∀ t' r, pending tm !! t' = Some r →
                         pending (timers s) !! t' = Some r).
  { intros t' r. subst tm; simpl. rewrite lookup_delete. by case_decide. }
  assert (Hclr : ∀ t', timerRef room = Some t' → pending tm !! t' = None).
  { intros t' Ht'. simplify_eq. subst tm; simpl. by rewrite lookup_delete_eq. }
  pose proof (inv_host _ Hinv _ _ Hroom) as Hh.
  destruct (startTurn_cases ref now room1 tm)
    as [[_ ->]|[(_ & _ & out & ->)|(_ & out & ->)]]; simpl.
  - apply (invariant_store _ _ room); try done; [by left|].
    by apply (timers_cleared _ _ room).
  - apply (invariant_store _ _ room); try done; [by left|].
    by apply (timers_cleared _ _ room).
  - apply (invariant_store _ _ room); try done; [by left|].
    by apply (timers_rearmed _ _ room).
Qed.

Lemma step_invariant s a : invariant s → invariant (step s a).1.
Proof.
  destruct a; cbn [step].
  - apply onCreate_invariant.
  - apply onJoin_invariant.
  - apply onStart_invariant.
  - apply onStroke_invariant.
  - apply onChat_invariant.
  - apply onVote_invariant.
  - apply onGuess_invariant.
  - apply onStart_invariant.
  - apply onDisconnect_invariant.
  - apply onTimer_invariant.
Qed.

Lemma run_snoc s l a :
  run s (l ++ [a]) =
  ((step (run s l).1 a).1, (run s l).2 ++ (step (run s l).1 a).2).
Proof.
  unfold run. rewrite foldl_app. simpl.
  destruct (foldl _ _ l) as [s' out]. simpl. by destruct (step s' a).
Qed.

Lemma run_cons s a l :
  (run s (a :: l)).1 = (run (step s a).1 l).1.
Proof.
  revert a. induction l as [|b l IH] using rev_ind; intros a.
  - unfold run; simpl. by destruct (step s a).
  - by rewrite app_comm_cons, !run_snoc, IH.
Qed.

Lemma run_invariant s l : invariant s → invariant (run s l).1.
Proof.
  intros Hinv. induction l as [|a l IH] using rev_ind; [done|].
  rewrite run_snoc. simpl. by apply step_invariant.
Qed.

Lemma reachable_invariant s : reachable s → invariant s.
Proof. intros [l <-]. apply run_invariant, invariant_initial. Qed.

Lemma reachable_step s a : reachable s → reachable (step s a).1.
Proof. intros [l <-]. exists (l ++ [a]). by rewrite run_snoc. Qed.

(** ** The [disconnect] handler *)

Lemma onDisconnect_room sid s c ref room :
  roomOf s sid = Some (c, ref, room) →
  onDisconnect sid s =
  if decide (length (players (leave sid room)) = 0) then
    ({| heap := <[ref := leave sid room]> (heap s); nextRef := nextRef s;
        rooms := delete c (rooms s);
        socketToRoom := delete sid (socketToRoom s);
        timers := clearTimer (leave sid room) (timers s) |}, [])
  else
    ({| heap := <[ref := leave sid room]> (heap s); nextRef := nextRef s;
        rooms := rooms s;
        socketToRoom := delete sid (socketToRoom s);
        timers := timers s |}, emitRoom (leave sid room)).
Proof.
  intros (Hs & Hc & Hr & Hh)%roomOf_Some. unfold onDisconnect.
  rewrite Hs, decide_False by done. simpl. rewrite Hr. simpl.
  rewrite Hh. simpl. by case_decide.
Qed.

(** ** Claim C7 *)

(** C7, counterexample: the host "a" of a room with a second player opens
    another room and then disconnects.  The handler works on the room that
    the socket is registered to, the new one; the first room keeps the
    departed socket as its flagged host, and nothing migrates to "b". *)
Lemma host_leaves_without_migration_counterexample :
  let s := (run initial [room_create "a" "Alice" 0;
                          room_join "b" "AAAAAA" "Bob";
                          room_create "a" "Alice" 1]).1 in
  let s' := (step s (disconnect "a")).1 in
  rooms s !! "AAAAAA" = Some 0 ∧
  ((λ r, (players r, hostId r)) <$> heap s !! 0) =
    Some ([newPlayer "a" "Alice" true; newPlayer "b" "Bob" false], "a") ∧
  socketToRoom s' !! "a" = None ∧
  rooms s' !! "AAAAAA" = Some 0 ∧
  ((λ r, (players r, hostId r)) <$> heap s' !! 0) =
    Some ([newPlayer "a" "Alice" true; newPlayer "b" "Bob" false], "a").
Proof. vm_compute. done. Qed.

(** C7, as the code has it: in a reachable state every room with players
    has exactly one player flagged as host.  When the flagged player
    disconnects from the room that its socket is registered to, and others
    remain there, the first of those carries the flag afterwards and is the
    room's host.  A room that the socket is not registered to, because the
    socket has created or joined another room since, is left as it is by the
    disconnect, with the socket in its player list and, when it was the
    host, flagged as host. *)
Theorem exactly_one_host (s : Server) :
  reachable s →
  (∀ ref room,
     heap s !! ref = Some room → players room ≠ [] →
     length (filter (λ p, isHost p = true) (players room)) = 1) ∧
  (∀ sid c ref room p q qs,
     roomOf s sid = Some (c, ref, room) →
     p ∈ players room → p_id p = sid → isHost p = true →
     filter (λ p, p_id p ≠ sid) (players room) = q :: qs →
     ∃ room',
       heap (step s (disconnect sid)).1 !! ref = Some room' ∧
       players room' = set_isHost true q :: qs ∧
       hostId room' = p_id q ∧
       length (filter (λ p, isHost p = true) (players room')) = 1) ∧
  (∀ sid ref room,
     heap s !! ref = Some room →
     (∀ c, roomOf s sid ≠ Some (c, ref, room)) →
     heap (step s (disconnect sid)).1 !! ref = Some room).
Proof.
  intros Hinv%reachable_invariant.
  assert (Hone : ∀ room, hostInv room → players room ≠ [] →
            length (filter (λ p, isHost p = true) (players room)) = 1).
  { intros room Hh Hne. unfold hostInv in Hh.
    destruct (players room) as [|p ps]; [done|].
    destruct Hh as (Hp & _ & Hps).
    rewrite filter_cons, decide_True by done. simpl. f_equal.
    clear Hne. induction Hps as [|x l Hx _ IH]; [done|].
    by rewrite filter_cons, decide_False by congruence. }
  split_and!.
  - intros ref room Hroom Hne. apply Hone; [|done].
    by apply (inv_host _ Hinv _ _ Hroom).
  - intros sid c ref room p q qs Hr Hin Hid Hflag Hrest.
    pose proof Hr as (_ & _ & _ & Hroom)%roomOf_Some.
    pose proof (inv_host _ Hinv _ _ Hroom) as Hh.
    assert (Hhost : hostId room = sid).
    { unfold hostInv in Hh. destruct (players room) as [|p0 ps]; [by apply elem_of_nil in Hin|].
      destruct Hh as (_ & Hid0 & Hps).
      apply elem_of_cons in Hin as [->|Hin]; [congruence|].
      eapply Forall_forall in Hps; [|exact Hin]. congruence. }
    assert (Hpl : players (leave sid room) = set_isHost true q :: qs)
      by (by rewrite leave_players, decide_True, Hrest).
    exists (leave sid room). cbn [step].
    rewrite (onDisconnect_room _ _ _ _ _ Hr).
    rewrite decide_False by (by rewrite Hpl). simpl.
    rewrite lookup_insert_eq. split_and!; [done | done | |].
    + by rewrite leave_hostId, decide_True, Hrest.
    + apply Hone; [by apply leave_hostInv|]. by rewrite Hpl.
  - intros sid ref room Hroom Hnot. cbn [step].
    destruct (roomOf s sid) as [[[c ref0] room0]|] eqn:Hr.
    + rewrite (onDisconnect_room _ _ _ _ _ Hr).
      assert (Hne : ref0 ≠ ref).
      { intros ->. apply (Hnot c).
        pose proof Hr as (_ & _ & _ & Hroom0)%roomOf_Some. congruence. }
      case_decide; cbn [fst heap]; by rewrite lookup_insert_ne.
    + unfold roomOf in Hr. unfold onDisconnect.
      destruct (socketToRoom s !! sid) as [c|]; [|done].
      cbn [mbind option_bind] in Hr.
      destruct (decide (c = "")); [done|]. cbn [rooms heap].
      destruct (rooms s !! c) as [ref0|]; [|done].
      cbn [mbind option_bind] in Hr |- *.
      destruct (heap s !! ref0) as [room0|]; [done | done].
Qed.

Lemma lobbyTrace_room :
  roomOf (run initial lobbyTrace).1 "a" = Some ("AAAAAA", 0, lobbyRoom).
Proof. vm_compute. reflexivity. Qed.

Lemma exactly_one_host_witness :
  reachable (run initial lobbyTrace).1 ∧
  ∃ room',
    heap (step (run initial lobbyTrace).1 (disconnect "a")).1 !! 0 = Some room' ∧
    players room' = [newPlayer "b" "Bob" true; newPlayer "c" "Cara" false] ∧
    hostId room' = "b".
Proof.
  assert (Hreach : reachable (run initial lobbyTrace).1) by (by exists lobbyTrace).
  split; [exact Hreach|].
  destruct (exactly_one_host _ Hreach) as (_ & Hmig & _).
  destruct (Hmig "a" "AAAAAA" 0 lobbyRoom
              (newPlayer "a" "Alice" true)
              (newPlayer "b" "Bob" false) [newPlayer "c" "Cara" false])
    as (room' & H1 & H2 & H3 & _).
  - exact lobbyTrace_room.
  - left.
  - reflexivity.
  - reflexivity.
  - reflexivity.
  - exists room'. split_and!; [exact H1 | exact H2 | exact H3].
Defined.

(** ** Claim C8 *)

(** C8, counterexample: the generator returns a code that is in use; the
    new room takes the code of the existing room and replaces it in the
    registry, where the socket "b" of the old room now finds the new one. *)
Lemma createRoom_fresh_code_counterexample :
  let s := (run initial [room_create "a" "Alice" 0;
                         room_join "b" "AAAAAA" "Bob"]).1 in
  let s' := (step s (room_create "c" "Cara" 0)).1 in
  rooms s !! "AAAAAA" = Some 0 ∧
  (code <$> heap s !! 0) = Some "AAAAAA" ∧
  rooms s' !! "AAAAAA" = Some 1 ∧
  (code <$> heap s' !! 1) = Some "AAAAAA" ∧
  (code <$> heap s' !! 0) = Some "AAAAAA" ∧
  ((λ x, p_id <$> players x.2) <$> roomOf s' "b") = Some ["c"].
Proof. vm_compute. done. Qed.

(** C8, as the code has it: [room:create] draws a six-character code and
    registers the new room, with the caller as its only player and host,
    under that code whether or not the code is in use; the other entries of
    the registry stay.  Every registered room is stored under its own code,
    so two entries of the registry never hold rooms with the same code. *)
Theorem createRoom_registers (s : Server) :
  reachable s →
  (∀ sid nm rnd,
     let c := makeRoomCode rnd in
     let s' := (step s (room_create sid nm rnd)).1 in
     String.length c = 6 ∧
     (∃ room, roomOf s' sid = Some (c, nextRef s, room) ∧
        code room = c ∧ hostId room = sid ∧
        (p_id <$> players room) = [sid] ∧ phase room = Lobby) ∧
     (∀ c', c' ≠ c → rooms s' !! c' = rooms s !! c') ∧
     heap s !! nextRef s = None ∧
     (∀ ref, ref ≠ nextRef s → heap s' !! ref = heap s !! ref)) ∧
  (∀ c1 c2 ref1 ref2 room1 room2,
     rooms s !! c1 = Some ref1 → heap s !! ref1 = Some room1 →
     rooms s !! c2 = Some ref2 → heap s !! ref2 = Some room2 →
     code room1 = c1 ∧ (code room1 = code room2 → c1 = c2 ∧ ref1 = ref2)).
Proof.
  intros Hinv%reachable_invariant. split.
  - intros sid nm rnd c s'. split_and!.
    + reflexivity.
    + eexists. split.
      * apply roomOf_Some. subst s'.
        cbn [step onCreate fst rooms socketToRoom heap].
        rewrite !lookup_insert_eq. split_and!; done.
      * split_and!; reflexivity.
    + intros c' Hc'. subst s'. simpl. by rewrite lookup_insert_ne.
    + destruct (heap s !! nextRef s) as [x|] eqn:Hx; [|done].
      apply (inv_fresh _ Hinv) in Hx. lia.
    + intros ref Href. subst s'. simpl. by rewrite lookup_insert_ne.
  - intros c1 c2 ref1 ref2 room1 room2 Hc1 Hr1 Hc2 Hr2.
    destruct (inv_rooms _ Hinv _ _ Hc1) as (x1 & ? & ? & _).
    destruct (inv_rooms _ Hinv _ _ Hc2) as (x2 & ? & ? & _).
    simplify_eq. split; [done|]. intros Heq. split; [done|].
    rewrite Heq in Hc1. congruence.
Qed.

Lemma createRoom_registers_witness :
  reachable (run initial lobbyTrace).1 ∧
  (∃ room,
     roomOf (step (run initial lobbyTrace).1 (room_create "d" "Dan" 7)).1 "d"
       = Some ("HAAAAA", 1, room)) ∧
  rooms (step (run initial lobbyTrace).1 (room_create "d" "Dan" 7)).1 !! "AAAAAA"
    = Some 0.
Proof.
  assert (Hreach : reachable (run initial lobbyTrace).1) by (by exists lobbyTrace).
  split; [exact Hreach|].
  destruct (createRoom_registers _ Hreach) as [Hcreate _].
  destruct (Hcreate "d" "Dan" 7) as (_ & (room & Hroom & _) & Hother & _).
  split.
  - exists room. exact Hroom.
  - rewrite (Hother "AAAAAA"); [reflexivity | discriminate].
Defined.

(** ** Claim C10 *)

(** C10: when a socket disconnects and players remain in its room, the
    room keeps its phase, round, turn index, current drawer, deadline,
    stroke log, chat, timer handle (and votes and secrets), and the timeout
    queue is untouched; the player list loses the socket's entries, the
    leaderboard loses the socket's entry, and the host may change.  A drawer
    who disconnects stays the current drawer of the running turn. *)
Theorem disconnect_frame (s : Server) (sid c : string) (ref : nat)
    (room : RoomState) :
  roomOf s sid = Some (c, ref, room) →
  filter (λ p, p_id p ≠ sid) (players room) ≠ [] →
  ∃ room',
    heap (step s (disconnect sid)).1 !! ref = Some room' ∧
    phase room' = phase room ∧ round room' = round room ∧
    turnIndex room' = turnIndex room ∧
    currentDrawerId room' = currentDrawerId room ∧
    turnEndsAt room' = turnEndsAt room ∧ drawing room' = drawing room ∧
    chat room' = chat room ∧ timerRef room' = timerRef room ∧
    timers (step s (disconnect sid)).1 = timers s ∧
    code room' = code room ∧ votes room' = votes room ∧
    imposterId room' = imposterId room ∧ realWord room' = realWord room ∧
    fakeWord room' = fakeWord room ∧
    leaderboard room' = delete sid (leaderboard room) ∧
    (p_id <$> players room') =
      filter (λ x, x ≠ sid) (p_id <$> players room) ∧
    (hostId room' = hostId room ∨
     hostId room = sid ∧ head (p_id <$> players room') = Some (hostId room')) ∧
    (phase room = Drawing → currentDrawerId room = Some sid →
     phase room' = Drawing ∧ currentDrawerId room' = Some sid ∧
     sid ∉ p_id <$> players room').
Proof.
  intros Hr Hrest. exists (leave sid room). cbn [step].
  rewrite (onDisconnect_room _ _ _ _ _ Hr).
  destruct (leave_frame sid room)
    as (? & Hph & ? & ? & Hdr & ? & ? & ? & ? & ? & ? & ? & ? & ?).
  assert (Hids : p_id <$> players (leave sid room) =
                 filter (λ x, x ≠ sid) (p_id <$> players room)).
  { rewrite leave_players.
    assert (Hf : p_id <$> filter (λ p, p_id p ≠ sid) (players room) =
                 filter (λ x, x ≠ sid) (p_id <$> players room)).
    { clear. induction (players room) as [|p ps IH]; [done|].
      rewrite fmap_cons, !filter_cons.
      case_decide; [rewrite fmap_cons|]; by rewrite IH. }
    case_decide; [|done]. rewrite <-Hf.
    by destruct (filter _ (players room)). }
  assert (Hne : players (leave sid room) ≠ []).
  { rewrite leave_players. case_decide; [|done].
    by destruct (filter _ (players room)). }
  rewrite decide_False by (by destruct (players (leave sid room))).
  simpl. rewrite lookup_insert_eq.
  split_and!; try done.
  - rewrite leave_hostId. destruct (decide (hostId room = sid)) as [Hh|Hh];
      [|by left].
    destruct (filter _ (players room)) as [|q qs] eqn:Hq; [done|].
    right. split; [done|].
    by rewrite leave_players, decide_True, Hq.
  - intros Hd Hs. split_and!; [congruence | congruence |].
    rewrite Hids. intros [? _]%list_elem_of_filter. done.
Qed.

Lemma drawingTrace_room sid :
  sid ∈ ["a"; "b"; "c"] →
  roomOf (run initial drawingTrace).1 sid = Some ("AAAAAA", 0, drawingRoom).
Proof.
  rewrite !elem_of_cons, elem_of_nil.
  intros [->|[->|[->|[]]]]; vm_compute; reflexivity.
Qed.

Lemma disconnect_frame_witness :
  ∃ room',
    heap (step (run initial drawingTrace).1 (disconnect "a")).1 !! 0
      = Some room' ∧
    phase room' = Drawing ∧ currentDrawerId room' = Some "a" ∧
    (p_id <$> players room') = ["b"; "c"] ∧
    timers (step (run initial drawingTrace).1 (disconnect "a")).1
      = timers (run initial drawingTrace).1.
Proof.
  destruct (disconnect_frame (run initial drawingTrace).1 "a" "AAAAAA" 0
              drawingRoom)
    as (room' & H1 & H2 & _ & _ & H3 & _ & _ & _ & _ & H4 & _ & _ & _ & _ &
        _ & _ & H5 & _).
  - apply drawingTrace_room. left.
  - discriminate.
  - exists room'. split_and!; [exact H1 | exact H2 | exact H3 | exact H5 | exact H4].
Defined.

(** ** Claim C5 *)

(** C5, counterexample: during the first drawing turn the host sends
    [game:start] again; the action is not dropped: a second round begins. *)
Lemma start_during_drawing_counterexample :
  let s := (run initial drawingTrace).1 in
  let s' := (step s (game_start "a" 2 1 1 5000%Z)).1 in
  ((λ r, (phase r, round r, imposterId r, realWord r)) <$> heap s !! 0) =
    Some (Drawing, 1, Some "b", Some "Tisch") ∧
  ((λ r, (phase r, round r, imposterId r, realWord r)) <$> heap s' !! 0) =
    Some (Drawing, 2, Some "c", Some "Katze") ∧
  s' ≠ s.
Proof.
  split_and!; [vm_compute; reflexivity..|].
  intros H. apply (f_equal (λ x, round <$> heap x !! 0)) in H.
  vm_compute in H. discriminate.
Qed.

(** C5, as the code has it: [game:start] and [round:next] are dropped,
    with no state change and no output, when the caller is in no room, is
    not the host, or the room has fewer than three players.  Sent by the host
    of a room with at least three players they take effect in every phase: the
    round number goes up by one, the votes are cleared and the first turn
    starts. *)
Theorem start_guard (s : Server) (a : Action) (sid : string)
    (rnd i j : nat) (now : Z) :
  a = game_start sid rnd i j now ∨ a = round_next sid rnd i j now →
  match roomOf s sid with
  | None => step s a = (s, [])
  | Some (c, ref, room) =>
      if decide (hostId room = sid ∧ 3 ≤ length (players room)) then
        ∃ room',
          heap (step s a).1 !! ref = Some room' ∧
          round room' = round room + 1 ∧ phase room' = Drawing ∧
          turnIndex room' = 0 ∧ votes room' = [] ∧
          players room' = players room
      else step s a = (s, [])
  end.
Proof.
  intros Ha. assert (Hs : step s a = onStart sid rnd i j now s)
    by (by destruct Ha as [-> | ->]).
  rewrite Hs. clear Ha Hs. unfold onStart.
  destruct (roomOf s sid) as [[[c ref] room]|] eqn:Hr; [|done].
  apply roomOf_Some in Hr as (_ & _ & _ & Hroom).
  destruct (startGame_cases ref rnd i j now room (timers s))
    as [[Hlen Hg]|[Hlen [out Hg]]].
  - destruct (decide (hostId room = sid ∧ 3 ≤ length (players room)))
      as [[_ ?]|_]; [lia|].
    case_decide; [done|]. rewrite Hg. by rewrite store_same.
  - destruct (decide (hostId room = sid ∧ 3 ≤ length (players room)))
      as [[Hhost _]|Hno].
    + rewrite decide_False by (intros ?; done).
      rewrite Hg. simpl. rewrite lookup_insert_eq. eexists.
      split_and!; [done | reflexivity..].
    + rewrite decide_True; [done|]. intros ?. apply Hno. done.
Qed.

Lemma start_guard_witness :
  (∃ room',
     heap (step (run initial drawingTrace).1 (round_next "a" 2 1 1 5000%Z)).1 !! 0
       = Some room' ∧ round room' = 2) ∧
  step (run initial drawingTrace).1 (game_start "b" 2 1 1 5000%Z)
    = ((run initial drawingTrace).1, []).
Proof.
  split.
  - pose proof (start_guard (run initial drawingTrace).1
                  (round_next "a" 2 1 1 5000%Z) "a" 2 1 1 5000%Z
                  (or_intror eq_refl)) as H.
    rewrite (drawingTrace_room "a") in H by left.
    rewrite decide_True in H by (split; [reflexivity | simpl; lia]).
    destruct H as (room' & H1 & H2 & _). exists room'. split; [exact H1 | exact H2].
  - pose proof (start_guard (run initial drawingTrace).1
                  (game_start "b" 2 1 1 5000%Z) "b" 2 1 1 5000%Z
                  (or_introl eq_refl)) as H.
    rewrite (drawingTrace_room "b") in H by (right; left).
    rewrite decide_False in H by (intros [? _]; discriminate).
    exact H.
Defined.

(** ** What one step does to one room *)

Lemma step_heap_lookup s a ref room :
  invariant s → heap s !! ref = Some room →
  ∃ room', heap (step s a).1 !! ref = Some room'.
Proof.
  intros Hinv Href.
  assert (Hnew : heap s !! nextRef s = None).
  { destruct (heap s !! nextRef s) as [x|] eqn:Hx; [|done].
    apply (inv_fresh _ Hinv) in Hx. lia. }
  destruct a; cbn [step];
    unfold onCreate, onJoin, onStart, onStroke, onChat, onVote, onGuess,
      onDisconnect, onTimer;
    repeat case_match; simpl; rewrite ?lookup_insert;
    repeat case_decide; simplify_eq; eauto.
Qed.

Lemma Effect_refl s a ref room :
  timers (step s a).1 = timers s → Effect s a ref room room.
Proof. intros Ht. apply eff_frame; try done. by rewrite Ht. Qed.

Lemma lookup_store s r x tm ref :
  heap (store s r x tm) !! ref =
  if decide (r = ref) then Some x else heap s !! ref.
Proof. simpl. apply lookup_insert. Qed.

(** Timeouts armed for another room are not pending timeouts of [ref]. *)
Lemma rearm_other (tm : Timers) room1 ref0 ref t :
  ref ≠ ref0 →
  pending (setTimeout ref0 (clearTimer room1 tm)).2 !! t = Some ref →
  pending tm !! t = Some ref.
Proof.
  intros Hne. unfold setTimeout, clearTimer, clearTimeout. simpl.
  rewrite lookup_insert. case_decide; [congruence|].
  destruct (timerRef room1); simpl; [|done].
  rewrite lookup_delete. by case_decide.
Qed.

Lemma onStart_shape sid rnd i j now s :
  onStart sid rnd i j now s = (s, []) ∨
  ∃ c ref room out,
    roomOf s sid = Some (c, ref, room) ∧ hostId room = sid ∧
    3 ≤ length (players room) ∧
    onStart sid rnd i j now s =
      (store s ref
         (turnArmed now (nextTimer (timers s)) (roundStarted rnd i j room))
         (setTimeout ref (clearTimer room (timers s))).2, out).
Proof.
  unfold onStart.
  destruct (roomOf s sid) as [[[c ref] room]|] eqn:Hr; [|by left].
  pose proof Hr as (_ & _ & _ & Hroom)%roomOf_Some.
  destruct (decide (hostId room ≠ sid)) as [|Hhost]; [by left|].
  apply dec_stable in Hhost.
  destruct (startGame_cases ref rnd i j now room (timers s))
    as [[Hlen ->]|[Hlen [out ->]]].
  - left. by rewrite store_same.
  - right. by exists c, ref, room, out.
Qed.

Lemma onTimer_shape t now s :
  pending (timers s) !! t = None ∧ onTimer t now s = (s, []) ∨
  ∃ ref,
    pending (timers s) !! t = Some ref ∧
    (heap s !! ref = None ∧ onTimer t now s = (s, []) ∨
     ∃ room out,
       heap s !! ref = Some room ∧
       let room1 := set_turnIndex (turnIndex room + 1) room in
       let tm := clearTimeout t (timers s) in
       (players room = [] ∧ onTimer t now s = (store s ref room1 tm, []) ∨
        players room ≠ [] ∧ length (players room) ≤ turnIndex room + 1 ∧
          onTimer t now s = (store s ref (votingOpened room1) tm, out) ∨
        turnIndex room + 1 < length (players room) ∧
          onTimer t now s =
            (store s ref (turnArmed now (nextTimer tm) room1)
               (setTimeout ref (clearTimer room tm)).2, out))).
Proof.
  unfold onTimer.
  destruct (pending (timers s) !! t) as [ref|] eqn:Hp; [right | by left].
  exists ref. split; [done|].
  destruct (heap s !! ref) as [room|] eqn:Hroom; [right | by left].
  unfold onTimeout.
  destruct (startTurn_cases ref now (set_turnIndex (turnIndex room + 1) room)
              (clearTimeout t (timers s)))
    as [[Hnil ->]|[(Hne & Hlen & out & ->)|(Hlen & out & ->)]].
  - exists room, []. split; [done|]. by left.
  - exists room, out. split; [done|]. right; left. done.
  - exists room, out. split; [done|]. right; right. done.
Qed.

Lemma effect_same s a ref room room' :
  (step s a).1 = s →
  heap s !! ref = Some room → heap (step s a).1 !! ref = Some room' →
  Effect s a ref room room'.
Proof.
  intros Hs Href Href'. rewrite Hs in Href'. simplify_eq.
  apply Effect_refl. by rewrite Hs.
Qed.

Lemma effect_other s a ref0 x tm ref room room' :
  (step s a).1 = store s ref0 x tm → ref ≠ ref0 →
  (∀ t, pending tm !! t = Some ref → pending (timers s) !! t = Some ref) →
  heap s !! ref = Some room → heap (step s a).1 !! ref = Some room' →
  Effect s a ref room room'.
Proof.
  intros Hs Hne Htm Href Href'. rewrite Hs, lookup_store in Href'.
  rewrite decide_False in Href' by done. simplify_eq.
  apply eff_frame; try done. by rewrite Hs.
Qed.

Lemma onStart_effect s sid rnd i j now a ref room room' :
  a = game_start sid rnd i j now ∨ a = round_next sid rnd i j now →
  heap s !! ref = Some room → heap (step s a).1 !! ref = Some room' →
  Effect s a ref room room'.
Proof.
  intros Ha Href Href'.
  assert (Hs : step s a = onStart sid rnd i j now s)
    by (by destruct Ha as [-> | ->]).
  destruct (onStart_shape sid rnd i j now s)
    as [Hsame|(c & ref0 & room0 & out & Hr & Hhost & Hlen & Hst)];
    rewrite <-Hs in *.
  - apply effect_same; [by rewrite Hsame | done..].
  - pose proof Hr as (_ & _ & _ & Hroom0)%roomOf_Some.
    destruct (decide (ref = ref0)) as [->|Hne].
    + rewrite Hst in Href'. cbn [fst] in Href'.
      rewrite lookup_store, decide_True in Href' by done.
      simplify_eq. by eapply eff_start.
    + eapply (effect_other _ _ ref0); [by rewrite Hst | done | | done..].
      intros t. by apply rearm_other.
Qed.

Lemma onTimer_effect s t now ref room room' :
  heap s !! ref = Some room →
  heap (step s (timeout t now)).1 !! ref = Some room' →
  Effect s (timeout t now) ref room room'.
Proof.
  intros Href Href'.
  assert (Hdel : ∀ t', pending (clearTimeout t (timers s)) !! t' = Some ref →
                       pending (timers s) !! t' = Some ref).
  { intros t'. simpl. rewrite lookup_delete. by case_decide. }
  destruct (onTimer_shape t now s)
    as [[_ Hsame]|(ref0 & Hp &
         [[_ Hsame]|(room0 & out & Hroom0 &
                     [[_ Hst]|[(_ & _ & Hst)|(_ & Hst)]])])];
    cbn [step] in *.
  1, 2: apply effect_same; [cbn [step]; by rewrite Hsame | done..].
  all: destruct (decide (ref = ref0)) as [->|Hne];
    [ rewrite Hst in Href'; cbn [fst] in Href';
      rewrite lookup_store, decide_True in Href' by done;
      simplify_eq; by eapply eff_timeout
    | eapply (effect_other _ _ ref0);
        [cbn [step]; by rewrite Hst | done | try done | done..] ].
  intros t' H. apply rearm_other in H; auto.
Qed.

Lemma onVote_shape sid targetId s :
  onVote sid targetId s = (s, []) ∨
  ∃ c ref room,
    roomOf s sid = Some (c, ref, room) ∧ phase room = Voting ∧
    let room1 := set_votes (Js.set (votes room) sid targetId) room in
    (length (players room) ≤ length (Js.keys (votes room1)) ∧
       onVote sid targetId s =
         (store s ref (computeVoting room1).1 (timers s),
          emitRoom room1 ++ [Emit c (sfx "voting")] ++ (computeVoting room1).2) ∨
     length (Js.keys (votes room1)) < length (players room) ∧
       onVote sid targetId s = (store s ref room1 (timers s), emitRoom room1)).
Proof.
  unfold onVote.
  destruct (roomOf s sid) as [[[c ref] room]|] eqn:Hr; [|by left].
  destruct (decide (phase room ≠ Voting)) as [|Hph]; [by left|].
  apply dec_stable in Hph. right. exists c, ref, room.
  split; [done|]. split; [done|]. simpl.
  case_decide.
  - left. split; [done|].
    by destruct (computeVoting (set_votes (Js.set (votes room) sid targetId) room)).
  - right. split; [lia | done].
Qed.

Lemma onGuess_shape sid guess s :
  onGuess sid guess s = (s, []) ∨
  ∃ c ref room,
    roomOf s sid = Some (c, ref, room) ∧ imposterId room = Some sid ∧
    (guessCorrect guess room = true ∧
       onGuess sid guess s =
         (store s ref (guessedRoom sid room) (timers s),
          emitRoom (guessedRoom sid room) ++
          [Emit c (phase_results_guessed (imposterId room) (realWord room)
                     (votes room) guess);
           Ack sid (reply_guess true)]) ∨
     guessCorrect guess room = false ∧
       onGuess sid guess s = (s, [Ack sid (reply_guess false)])).
Proof.
  unfold onGuess.
  destruct (roomOf s sid) as [[[c ref] room]|] eqn:Hr; [|by left].
  destruct (decide (Some sid ≠ imposterId room)) as [|Himp]; [by left|].
  apply dec_stable in Himp. right. exists c, ref, room.
  split; [done|]. split; [done|].
  destruct (guessCorrect guess room); [left | right]; done.
Qed.

Lemma onVote_effect s sid targetId ref room room' :
  heap s !! ref = Some room →
  heap (step s (vote_submit sid targetId)).1 !! ref = Some room' →
  Effect s (vote_submit sid targetId) ref room room'.
Proof.
  intros Href Href'.
  destruct (onVote_shape sid targetId s)
    as [Hsame|(c & ref0 & room0 & Hr & Hph & [[Hlen Hst]|[Hlen Hst]])];
    cbn [step] in *.
  - apply effect_same; [cbn [step]; by rewrite Hsame | done..].
  - pose proof Hr as (_ & _ & _ & Hroom0)%roomOf_Some.
    destruct (decide (ref = ref0)) as [->|Hne].
    + rewrite Hst in Href'; cbn [fst] in Href'.
      rewrite lookup_store, decide_True in Href' by done. simplify_eq.
      destruct (computeVoting_frame
                  (set_votes (Js.set (votes room) sid targetId) room))
        as (_ & _ & _ & _ & Hp' & Hr' & Hv' & _).
      eapply eff_vote; try done.
      * cbn [step]. by rewrite Hst.
      * rewrite Hp'. by rewrite decide_True.
    + eapply (effect_other _ _ ref0);
        [cbn [step]; by rewrite Hst | done..].
  - pose proof Hr as (_ & _ & _ & Hroom0)%roomOf_Some.
    destruct (decide (ref = ref0)) as [->|Hne].
    + rewrite Hst in Href'; cbn [fst] in Href'.
      rewrite lookup_store, decide_True in Href' by done. simplify_eq.
      eapply eff_vote; try done.
      * cbn [step]. by rewrite Hst.
      * simpl in *. by rewrite decide_False by lia.
    + eapply (effect_other _ _ ref0);
        [cbn [step]; by rewrite Hst | done..].
Qed.

Lemma onGuess_effect s sid guess ref room room' :
  heap s !! ref = Some room →
  heap (step s (imposter_guess sid guess)).1 !! ref = Some room' →
  Effect s (imposter_guess sid guess) ref room room'.
Proof.
  intros Href Href'.
  destruct (onGuess_shape sid guess s)
    as [Hsame|(c & ref0 & room0 & Hr & Himp & [[Hok Hst]|[Hno Hsame]])];
    cbn [step] in *.
  - apply effect_same; [cbn [step]; by rewrite Hsame | done..].
  - pose proof Hr as (_ & _ & _ & Hroom0)%roomOf_Some.
    destruct (decide (ref = ref0)) as [->|Hne].
    + rewrite Hst in Href'; cbn [fst] in Href'.
      rewrite lookup_store, decide_True in Href' by done. simplify_eq.
      eapply eff_guess; try done. cbn [step]. by rewrite Hst.
    + eapply (effect_other _ _ ref0);
        [cbn [step]; by rewrite Hst | done..].
  - apply effect_same; [cbn [step]; by rewrite Hsame | done..].
Qed.

Lemma onDisconnect_effect s sid ref room room' :
  invariant s →
  heap s !! ref = Some room →
  heap (step s (disconnect sid)).1 !! ref = Some room' →
  Effect s (disconnect sid) ref room room'.
Proof.
  intros Hinv Href. cbn [step]. unfold onDisconnect.
  destruct (socketToRoom s !! sid) as [c|] eqn:Hs;
    [|intros; simpl in *; simplify_eq; apply Effect_refl; cbn [step];
      unfold onDisconnect; by rewrite Hs].
  destruct (decide (c = "")) as [Hc|Hc];
    [intros; simpl in *; simplify_eq; apply Effect_refl; cbn [step];
      unfold onDisconnect; by rewrite Hs|].
  simpl. destruct (rooms s !! c) as [ref0|] eqn:Hrm; simpl.
  2: { intros; simplify_eq. apply Effect_refl. cbn [step].
       unfold onDisconnect. rewrite Hs, decide_False by done. simpl.
       by rewrite Hrm. }
  destruct (inv_rooms _ Hinv _ _ Hrm) as (room0 & Hroom0 & _).
  rewrite Hroom0; simpl.
  assert (Hr : roomOf s sid = Some (c, ref0, room0))
    by (by apply roomOf_Some).
  destruct (leave_frame sid room0)
    as (_ & Hph & Hrd & _ & _ & _ & _ & _ & _ & Hv & _).
  assert (Hsub : ∀ t, pending (clearTimer (leave sid room0) (timers s)) !! t
                        = Some ref →
                      pending (timers s) !! t = Some ref).
  { intros t. unfold clearTimer, clearTimeout.
    destruct (timerRef (leave sid room0)); simpl; [|done].
    rewrite lookup_delete. by case_decide. }
  intros Href'.
  assert (Hroom' : room' = if decide (ref0 = ref) then leave sid room0 else room).
  { case_decide; simpl in Href'; rewrite lookup_insert in Href';
      case_decide; congruence. }
  apply eff_frame.
  - case_decide; simplify_eq; done.
  - case_decide; simplify_eq; done.
  - case_decide; simplify_eq; done.
  - cbn [step]. rewrite (onDisconnect_room _ _ _ _ _ Hr).
    destruct (decide (length (players (leave sid room0)) = 0)); simpl;
      [apply Hsub | done].
Qed.

(** Every step acts on a room in one of the five ways. *)
Lemma step_effect s a ref room room' :
  invariant s →
  heap s !! ref = Some room → heap (step s a).1 !! ref = Some room' →
  Effect s a ref room room'.
Proof.
  intros Hinv Href Href'. destruct a.
  - (* room:create *)
    cbn [step onCreate fst heap] in Href'.
    rewrite lookup_insert_ne in Href'
      by (apply (inv_fresh _ Hinv) in Href; lia).
    simplify_eq. by apply Effect_refl.
  - (* room:join *)
    cbn [step] in Href'. unfold onJoin in Href'.
    destruct (rooms s !! Js.toUpperCase c) as [ref0|] eqn:Hc;
      [|simpl in *; simplify_eq; apply Effect_refl; cbn [step];
        unfold onJoin; by rewrite Hc].
    destruct (heap s !! ref0) as [room0|] eqn:Hroom0;
      [|simpl in *; simplify_eq; apply Effect_refl; cbn [step];
        unfold onJoin; by rewrite Hc, Hroom0].
    simpl in Href'. rewrite lookup_insert in Href'.
    apply eff_frame;
      try (case_decide; simplify_eq; done).
    cbn [step]. unfold onJoin. by rewrite Hc, Hroom0.
  - by eapply onStart_effect; [left|..].
  - (* draw:stroke *)
    cbn [step] in Href'. unfold onStroke in Href'.
    destruct (roomOf s sid) as [[[c ref0] room0]|] eqn:Hr;
      [|simpl in *; simplify_eq; apply Effect_refl; cbn [step];
        unfold onStroke; by rewrite Hr].
    pose proof Hr as (_ & _ & _ & Hroom0)%roomOf_Some.
    destruct (decide (currentDrawerId room0 ≠ Some sid ∨ phase room0 ≠ Drawing))
      as [Hd|Hd];
      [simpl in *; simplify_eq; apply Effect_refl; cbn [step];
       unfold onStroke; by rewrite Hr, decide_True|].
    simpl in Href'. rewrite lookup_insert in Href'.
    apply eff_frame; try (case_decide; simplify_eq; done).
    cbn [step]. unfold onStroke. by rewrite Hr, decide_False.
  - (* chat:send *)
    cbn [step] in Href'. unfold onChat in Href'.
    destruct (roomOf s sid) as [[[c ref0] room0]|] eqn:Hr;
      [|simpl in *; simplify_eq; apply Effect_refl; cbn [step];
        unfold onChat; by rewrite Hr].
    pose proof Hr as (_ & _ & _ & Hroom0)%roomOf_Some.
    destruct (List.find _ (players room0)) as [p|] eqn:Hf;
      [|simpl in *; simplify_eq; apply Effect_refl; cbn [step];
        unfold onChat; by rewrite Hr, Hf].
    simpl in Href'. rewrite lookup_insert in Href'.
    apply eff_frame; try (case_decide; simplify_eq; done).
    cbn [step]. unfold onChat. by rewrite Hr, Hf.
  - by apply onVote_effect.
  - by apply onGuess_effect.
  - by eapply onStart_effect; [right|..].
  - by apply onDisconnect_effect.
  - by apply onTimer_effect.
Qed.

(** ** Claim C6 *)

(** C6, counterexample: "c" votes and then disconnects; its vote stays in
    the vote map of the room, whose players are now "a" and "b". *)
Lemma votes_subset_of_players_counterexample :
  let s := (run initial (votingTrace ++ [vote_submit "c" "a"])).1 in
  let s' := (step s (disconnect "c")).1 in
  reachable s' ∧
  ((λ r, (phase r, Js.keys (votes r), p_id <$> players r)) <$> heap s' !! 0) =
    Some (Voting, ["c"], ["a"; "b"]) ∧
  rooms s' !! "AAAAAA" = Some 0.
Proof.
  split; [|vm_compute; done].
  exists (votingTrace ++ [vote_submit "c" "a"; disconnect "c"]).
  vm_compute. reflexivity.
Qed.

(** C6, as the code has it: a step that changes the round counter of a room
    leaves its vote map empty; within a round the vote map changes only by
    a [vote:submit] in the voting phase of a socket registered to the room,
    which writes that socket's entry.  A [disconnect] never changes a vote
    map: the vote of the player who left stays. *)
Theorem votes_evolution (s : Server) (a : Action) (ref : nat)
    (room room' : RoomState) :
  reachable s →
  heap s !! ref = Some room → heap (step s a).1 !! ref = Some room' →
  (round room' ≠ round room →
     round room' = round room + 1 ∧ votes room' = []) ∧
  (round room' = round room →
     votes room' = votes room ∨
     ∃ sid targetId c,
       a = vote_submit sid targetId ∧ roomOf s sid = Some (c, ref, room) ∧
       phase room = Voting ∧
       votes room' = Js.set (votes room) sid targetId) ∧
  (∀ sid, a = disconnect sid → votes room' = votes room).
Proof.
  intros Hinv%reachable_invariant Href Href'.
  destruct (step_effect _ _ _ _ _ Hinv Href Href')
    as [Hr Hv _ _|sid rnd i j now Ha _ _ Hr Hv _|sid t c Ha Hroom Hph Hr Hv _ _
       |sid g c Ha _ Hr Hv _ _|t now Ha _ Hr Hv].
  - split_and!; [done | by left | done].
  - split_and!; [done | lia |]. intros sid' ->. by destruct Ha.
  - split_and!; [done | | by intros sid' ->].
    intros _. right. by exists sid, t, c.
  - split_and!; [done | by left | done].
  - split_and!; [done | by left | done].
Qed.

Lemma votes_evolution_witness :
  let s := (run initial (votingTrace ++ [vote_submit "c" "a"])).1 in
  reachable s ∧ heap s !! 0 = Some votedRoom ∧
  heap (step s (disconnect "c")).1 !! 0 = Some (leave "c" votedRoom) ∧
  votes (leave "c" votedRoom) = votes votedRoom.
Proof.
  intros s.
  assert (Hreach : reachable s)
    by (by exists (votingTrace ++ [vote_submit "c" "a"])).
  assert (Hroom : heap s !! 0 = Some votedRoom)
    by (vm_compute; reflexivity).
  assert (Hroom' : heap (step s (disconnect "c")).1 !! 0
                   = Some (leave "c" votedRoom))
    by (vm_compute; reflexivity).
  split_and!; [exact Hreach | exact Hroom | exact Hroom' |].
  exact (proj2 (proj2 (votes_evolution s (disconnect "c") 0 votedRoom
                         (leave "c" votedRoom) Hreach Hroom Hroom'))
           "c" eq_refl).
Defined.

(** ** Claim C3 *)







Lemma round_mono_step s a ref room room' :
  invariant s →
  heap s !! ref = Some room → heap (step s a).1 !! ref = Some room' →
  round room ≤ round room'.
Proof.
  intros Hinv Href Href'.
  destruct (step_effect _ _ _ _ _ Hinv Href Href'); lia.
Qed.

Lemma run_heap_lookup s l ref room :
  invariant s → heap s !! ref = Some room →
  ∃ room', heap (run s l).1 !! ref = Some room'.
Proof.
  intros Hinv Href. induction l as [|a l [x Hx]] using rev_ind; [by eexists|].
  rewrite run_snoc. simpl.
  eapply step_heap_lookup; [by apply run_invariant | done].
Qed.

Lemma round_mono_run s l ref room room' :
  invariant s →
  heap s !! ref = Some room → heap (run s l).1 !! ref = Some room' →
  round room ≤ round room'.
Proof.
  intros Hinv Href. revert room'.
  induction l as [|a l IH] using rev_ind; intros room' Href'.
  - simpl in Href'. simplify_eq. done.
  - rewrite run_snoc in Href'. simpl in Href'.
    assert (Hinv' : invariant (run s l).1) by (by apply run_invariant).
    destruct (run_heap_lookup s l ref room Hinv Href) as [x Hx].
    pose proof (IH _ Hx).
    pose proof (round_mono_step _ _ _ _ _ Hinv' Hx Href'). lia.
Qed.







(** ** Claim C4 *)

(** C4, counterexample: the timeout of the first turn is pending when the
    imposter "b" guesses the word; the room goes to the results and the
    timeout stays pending.  When it fires, the room is no longer in the
    drawing state it was armed for, and the callback does not return
    without effect: it starts the second turn. *)
Lemma timer_fires_after_guess_counterexample :
  let s := (run initial drawingTrace).1 in
  let s1 := (step s (imposter_guess "b" "tisch")).1 in
  let s2 := (step s1 (timeout 0 20100%Z)).1 in
  pending (timers s) !! 0 = Some 0 ∧
  ((λ r, (phase r, turnIndex r)) <$> heap s !! 0) = Some (Drawing, 0) ∧
  ((λ r, (phase r, turnIndex r)) <$> heap s1 !! 0) = Some (Results, 0) ∧
  pending (timers s1) !! 0 = Some 0 ∧
  ((λ r, (phase r, turnIndex r, currentDrawerId r)) <$> heap s2 !! 0) =
    Some (Drawing, 1, Some "b") ∧
  heap s2 !! 0 ≠ heap s1 !! 0.
Proof.
  split_and!; [vm_compute; reflexivity..|].
  intros H. apply (f_equal (fmap turnIndex)) in H.
  vm_compute in H. discriminate.
Qed.

(** C4, as the code has it: the callback of a turn timeout has no guard.
    When a pending timeout fires, whatever the phase of its room is by then,
    the turn index goes up by one and the room enters the next drawing turn,
    or the vote after the last player.  A room has at most one pending
    timeout, the one its [timerRef] names: arming a turn cancels the
    previous timeout, as when the host starts a round; and the disconnect of
    the last player cancels the timeout of the room it removes from the
    registry, so that no timeout is left to fire on it. *)
Theorem timer_expiry (s : Server) :
  reachable s →
  (∀ t ref now,
     pending (timers s) !! t = Some ref →
     ∃ room room',
       heap s !! ref = Some room ∧ timerRef room = Some t ∧
       heap (step s (timeout t now)).1 !! ref = Some room' ∧
       turnIndex room' = turnIndex room + 1 ∧
       phase room' =
         (if decide (turnIndex room + 1 < length (players room))
          then Drawing else Voting) ∧
       pending (timers (step s (timeout t now)).1) !! t = None) ∧
  (∀ t t' ref,
     pending (timers s) !! t = Some ref →
     pending (timers s) !! t' = Some ref → t = t') ∧
  (∀ sid rnd i j now c ref room t,
     roomOf s sid = Some (c, ref, room) → hostId room = sid →
     3 ≤ length (players room) →
     pending (timers s) !! t = Some ref →
     pending (timers (step s (game_start sid rnd i j now)).1) !! t = None) ∧
  (∀ sid c ref room,
     roomOf s sid = Some (c, ref, room) →
     filter (λ p, p_id p ≠ sid) (players room) = [] →
     rooms (step s (disconnect sid)).1 !! c = None ∧
     ∀ t, pending (timers (step s (disconnect sid)).1) !! t ≠ Some ref).
Proof.
  intros Hinv%reachable_invariant. split_and!.
  - intros t ref now Hp.
    destruct (inv_timer _ Hinv _ _ Hp) as (Hlt & room & Hroom & Ht & Hne & _).
    cbn [step].
    destruct (onTimer_shape t now s)
      as [[Hp' _]|(ref0 & Hp' &
           [[Hnone _]|(room0 & out & Hroom0 &
                       [[Hnil _]|[(_ & Hlen & ->)|(Hlen & ->)]])])];
      [congruence | congruence | congruence | |];
      rewrite Hp in Hp'; injection Hp' as <-;
      rewrite Hroom in Hroom0; injection Hroom0 as <-.
    + exists room, (votingOpened (set_turnIndex (turnIndex room + 1) room)).
      cbn [fst]. rewrite lookup_store, decide_True by done.
      split_and!; try done.
      * by rewrite decide_False by lia.
      * simpl. by rewrite lookup_delete_eq.
    + exists room,
        (turnArmed now (nextTimer (clearTimeout t (timers s)))
           (set_turnIndex (turnIndex room + 1) room)).
      cbn [fst]. rewrite lookup_store, decide_True by done.
      split_and!; try done.
      * by rewrite decide_True by lia.
      * unfold clearTimer. rewrite Ht. simpl.
        rewrite lookup_insert_ne by lia.
        by rewrite lookup_delete_eq.
  - intros t t' ref. by apply pending_unique.
  - intros sid rnd i j now c ref room t Hr Hhost Hlen Hp.
    destruct (inv_timer _ Hinv _ _ Hp) as (Hlt & x & Hx & Ht & _).
    pose proof Hr as (_ & _ & _ & Hroom)%roomOf_Some.
    rewrite Hroom in Hx. injection Hx as <-.
    cbn [step]. unfold onStart. rewrite Hr, decide_False by (by intros ?).
    destruct (startGame_cases ref rnd i j now room (timers s))
      as [[? _]|[_ [out ->]]]; [lia|].
    simpl. unfold clearTimer. rewrite Ht. simpl.
    rewrite lookup_insert_ne by lia. by rewrite lookup_delete_eq.
  - intros sid c ref room Hr Hrest.
    assert (Hnil : players (leave sid room) = []).
    { rewrite leave_players, Hrest. by case_decide. }
    cbn [step]. rewrite (onDisconnect_room _ _ _ _ _ Hr), Hnil. simpl.
    split; [by rewrite lookup_delete_eq|].
    intros t Ht.
    assert (Hp : pending (timers s) !! t = Some ref ∧
                 timerRef (leave sid room) ≠ Some t).
    { unfold clearTimer, clearTimeout in Ht.
      destruct (timerRef (leave sid room)); simpl in Ht; [|done].
      rewrite lookup_delete in Ht. case_decide; [done|].
      split; [done | congruence]. }
    destruct Hp as [Hp Hnt].
    destruct (inv_timer _ Hinv _ _ Hp) as (_ & x & Hx & Hxt & _).
    pose proof Hr as (_ & _ & _ & Hroom)%roomOf_Some.
    rewrite Hroom in Hx. injection Hx as <-.
    destruct (leave_frame sid room) as (_ & _ & _ & _ & _ & _ & _ & _ & Ht' & _).
    congruence.
Qed.

Lemma timer_expiry_witness :
  let s := (step (run initial drawingTrace).1 (imposter_guess "b" "tisch")).1 in
  reachable s ∧
  ∃ room room',
    heap s !! 0 = Some room ∧ phase room = Results ∧
    heap (step s (timeout 0 20100%Z)).1 !! 0 = Some room' ∧
    phase room' = Drawing ∧ turnIndex room' = 1.
Proof.
  intros s.
  assert (Hreach : reachable s).
  { exists (drawingTrace ++ [imposter_guess "b" "tisch"]).
    vm_compute. reflexivity. }
  split; [exact Hreach|].
  destruct (timer_expiry s Hreach) as (Hfire & _).
  destruct (Hfire 0 0 20100%Z eq_refl)
    as (room & room' & Hroom & _ & Hroom' & Hti & Hph & _).
  exists room, room'.
  assert (Hr : heap s !! 0 = Some (guessedRoom "b" drawingRoom))
    by (vm_compute; reflexivity).
  rewrite Hroom in Hr. injection Hr as ->.
  split_and!; [exact Hroom | reflexivity | exact Hroom' | exact Hph | exact Hti].
Defined.

(** ** Scoring a guess *)



(** * Further properties *)

(** ** Every step as a change of one room object *)

Lemma find_player_Some sid (ps : list Player) p :
  List.find (λ p, bool_decide (p_id p = sid)) ps = Some p →
  p ∈ ps ∧ p_id p = sid.
Proof.
  intros [Hin Hb]%find_some. split; [by apply list_elem_of_In|].
  by apply bool_decide_eq_true in Hb.
Qed.

Lemma step_room s a ref room room' :
  invariant s →
  heap s !! ref = Some room → heap (step s a).1 !! ref = Some room' →
  RoomStep room room'.
Proof.
  intros Hinv Href Href'.
  assert (Hstore : ∀ ref0 x tm,
            (step s a).1 = store s ref0 x tm →
            room' = if decide (ref0 = ref) then x else room).
  { intros ref0 x tm Hs. rewrite Hs, lookup_store in Href'.
    case_decide; congruence. }
  assert (Hsame : (step s a).1 = s → RoomStep room room').
  { intros Hs. rewrite Hs in Href'. apply rs_same. congruence. }
  destruct a; cbn [step] in *.
  - (* room:create *)
    cbn [onCreate fst heap] in Href'.
    rewrite lookup_insert_ne in Href'
      by (apply (inv_fresh _ Hinv) in Href; lia).
    apply rs_same. congruence.
  - (* room:join *)
    unfold onJoin in *.
    destruct (rooms s !! Js.toUpperCase c) as [ref0|]; [|by apply Hsame].
    destruct (heap s !! ref0) as [room0|] eqn:Hroom0; [|by apply Hsame].
    cbn [fst heap] in Href'. rewrite lookup_insert in Href'.
    case_decide; simplify_eq; [by eapply rs_join | by apply rs_same].
  - (* game:start *)
    destruct (onStart_shape sid rnd i j now s)
      as [Hs|(c & ref0 & room0 & out & Hr & _ & Hlen & Hs)];
      [apply Hsame; by rewrite Hs|].
    apply roomOf_Some in Hr as (_ & _ & _ & Hroom0).
    rewrite Hs in Hstore. specialize (Hstore _ _ _ eq_refl).
    case_decide; simplify_eq; [by eapply rs_start | by apply rs_same].
  - (* draw:stroke *)
    unfold onStroke in *.
    destruct (roomOf s sid) as [[[c ref0] room0]|] eqn:Hr; [|by apply Hsame].
    apply roomOf_Some in Hr as (_ & _ & _ & Hroom0).
    destruct (decide (currentDrawerId room0 ≠ Some sid ∨ phase room0 ≠ Drawing))
      as [|Hd]; [by apply Hsame|].
    specialize (Hstore _ _ _ eq_refl).
    case_decide; simplify_eq; [|by apply rs_same].
    eapply rs_stroke; [| |done].
    + destruct (decide (currentDrawerId room = Some sid)); [done|tauto].
    + destruct (decide (phase room = Drawing)); [done|tauto].
  - (* chat:send *)
    unfold onChat in *.
    destruct (roomOf s sid) as [[[c ref0] room0]|] eqn:Hr; [|by apply Hsame].
    apply roomOf_Some in Hr as (_ & _ & _ & Hroom0).
    destruct (List.find _ (players room0)) as [p|] eqn:Hf; [|by apply Hsame].
    apply find_player_Some in Hf as [Hin Hid].
    specialize (Hstore _ _ _ eq_refl).
    case_decide; simplify_eq; [by eapply rs_chat | by apply rs_same].
  - (* vote:submit *)
    destruct (onVote_shape sid targetId s)
      as [Hs|(c & ref0 & room0 & Hr & Hph & [[Hlen Hs]|[Hlen Hs]])];
      [apply Hsame; by rewrite Hs| |];
      apply roomOf_Some in Hr as (_ & _ & _ & Hroom0);
      rewrite Hs in Hstore; specialize (Hstore _ _ _ eq_refl);
      case_decide; simplify_eq; try (by apply rs_same).
    + eapply rs_resolve; [exact Hph | exact Hlen | reflexivity].
    + eapply rs_vote; [exact Hph | exact Hlen | reflexivity].
  - (* imposter:guess *)
    destruct (onGuess_shape sid guess s)
      as [Hs|(c & ref0 & room0 & Hr & Himp & [[Hok Hs]|[Hno Hs]])];
      [apply Hsame; by rewrite Hs| |apply Hsame; by rewrite Hs].
    apply roomOf_Some in Hr as (_ & _ & _ & Hroom0).
    rewrite Hs in Hstore. specialize (Hstore _ _ _ eq_refl).
    case_decide; simplify_eq; [by eapply rs_guess | by apply rs_same].
  - (* round:next *)
    destruct (onStart_shape sid rnd i j now s)
      as [Hs|(c & ref0 & room0 & out & Hr & _ & Hlen & Hs)];
      [apply Hsame; by rewrite Hs|].
    apply roomOf_Some in Hr as (_ & _ & _ & Hroom0).
    rewrite Hs in Hstore. specialize (Hstore _ _ _ eq_refl).
    case_decide; simplify_eq; [by eapply rs_start | by apply rs_same].
  - (* disconnect *)
    destruct (socketToRoom s !! sid) as [c|] eqn:Hsock;
      [|apply Hsame; unfold onDisconnect; by rewrite Hsock].
    destruct (decide (c = "")) as [Hc|Hc];
      [apply Hsame; unfold onDisconnect; by rewrite Hsock, decide_True|].
    destruct (rooms s !! c) as [ref0|] eqn:Hrm.
    2: { unfold onDisconnect in Href'.
         rewrite Hsock, decide_False in Href' by done.
         simpl in Href'. rewrite Hrm in Href'. simpl in Href'.
         apply rs_same. congruence. }
    destruct (inv_rooms _ Hinv _ _ Hrm) as (room0 & Hroom0 & _).
    assert (Hr : roomOf s sid = Some (c, ref0, room0))
      by (by apply roomOf_Some).
    rewrite (onDisconnect_room _ _ _ _ _ Hr) in Href'.
    assert (Hl : <[ref0 := leave sid room0]> (heap s) !! ref = Some room')
      by (by destruct (decide (length (players (leave sid room0)) = 0))).
    rewrite lookup_insert in Hl.
    case_decide; simplify_eq; [by eapply rs_leave | by apply rs_same].
  - (* timeout *)
    destruct (onTimer_shape t now s)
      as [[_ Hs]|(ref0 & Hp &
           [[_ Hs]|(room0 & out & Hroom0 &
                    [[Hnil Hs]|[(Hne & Hlen & Hs)|(Hlen & Hs)]])])];
      try (apply Hsame; by rewrite Hs).
    all: destruct (inv_timer _ Hinv _ _ Hp) as (_ & x & Hx & _ & Hnx & Hph);
      rewrite Hroom0 in Hx; injection Hx as <-.
    + done.
    + rewrite Hs in Hstore. specialize (Hstore _ _ _ eq_refl).
      case_decide; simplify_eq; [by eapply rs_expire_last | by apply rs_same].
    + rewrite Hs in Hstore. specialize (Hstore _ _ _ eq_refl).
      case_decide; simplify_eq; [by eapply rs_expire_next | by apply rs_same].
Qed.

(** A room object that appears is the one built by [room:create]. *)
Lemma step_new s a ref room' :
  invariant s →
  heap s !! ref = None → heap (step s a).1 !! ref = Some room' →
  ∃ sid nm rnd, room' = createdRoom sid nm rnd.
Proof.
  intros Hinv Href Href'.
  assert (Hstore : ∀ ref0 x tm room0,
            heap s !! ref0 = Some room0 →
            (step s a).1 = store s ref0 x tm → False).
  { intros ref0 x tm room0 Hroom0 Hs. rewrite Hs, lookup_store in Href'.
    case_decide; congruence. }
  assert (Hsame : (step s a).1 = s → False).
  { intros Hs. rewrite Hs in Href'. congruence. }
  destruct a; cbn [step] in *.
  - cbn [onCreate fst heap] in Href'. rewrite lookup_insert in Href'.
    case_decide; [|congruence]. injection Href' as <-. by exists sid, nm, rnd.
  - unfold onJoin in *.
    destruct (rooms s !! Js.toUpperCase c) as [ref0|]; [|by destruct Hsame].
    destruct (heap s !! ref0) as [room0|] eqn:Hroom0; [|by destruct Hsame].
    cbn [fst heap] in Href'. rewrite lookup_insert in Href'.
    case_decide; congruence.
  - destruct (onStart_shape sid rnd i j now s)
      as [Hs|(c & ref0 & room0 & out & Hr & _ & Hlen & Hs)];
      [destruct Hsame; by rewrite Hs|].
    apply roomOf_Some in Hr as (_ & _ & _ & Hroom0).
    destruct (Hstore _ _ _ _ Hroom0 ltac:(by rewrite Hs)).
  - unfold onStroke in *.
    destruct (roomOf s sid) as [[[c ref0] room0]|] eqn:Hr; [|by destruct Hsame].
    apply roomOf_Some in Hr as (_ & _ & _ & Hroom0).
    case_decide; [by destruct Hsame|].
    destruct (Hstore _ _ _ _ Hroom0 eq_refl).
  - unfold onChat in *.
    destruct (roomOf s sid) as [[[c ref0] room0]|] eqn:Hr; [|by destruct Hsame].
    apply roomOf_Some in Hr as (_ & _ & _ & Hroom0).
    destruct (List.find _ (players room0)); [|by destruct Hsame].
    destruct (Hstore _ _ _ _ Hroom0 eq_refl).
  - destruct (onVote_shape sid targetId s)
      as [Hs|(c & ref0 & room0 & Hr & Hph & [[Hlen Hs]|[Hlen Hs]])];
      [destruct Hsame; by rewrite Hs| |];
      apply roomOf_Some in Hr as (_ & _ & _ & Hroom0);
      destruct (Hstore _ _ _ _ Hroom0 ltac:(by rewrite Hs)).
  - destruct (onGuess_shape sid guess s)
      as [Hs|(c & ref0 & room0 & Hr & Himp & [[Hok Hs]|[Hno Hs]])];
      [destruct Hsame; by rewrite Hs| |destruct Hsame; by rewrite Hs].
    apply roomOf_Some in Hr as (_ & _ & _ & Hroom0).
    destruct (Hstore _ _ _ _ Hroom0 ltac:(by rewrite Hs)).
  - destruct (onStart_shape sid rnd i j now s)
      as [Hs|(c & ref0 & room0 & out & Hr & _ & Hlen & Hs)];
      [destruct Hsame; by rewrite Hs|].
    apply roomOf_Some in Hr as (_ & _ & _ & Hroom0).
    destruct (Hstore _ _ _ _ Hroom0 ltac:(by rewrite Hs)).
  - destruct (socketToRoom s !! sid) as [c|] eqn:Hsock;
      [|destruct Hsame; unfold onDisconnect; by rewrite Hsock].
    destruct (decide (c = "")) as [Hc|Hc];
      [destruct Hsame; unfold onDisconnect; by rewrite Hsock, decide_True|].
    destruct (rooms s !! c) as [ref0|] eqn:Hrm.
    2: { unfold onDisconnect in Href'.
         rewrite Hsock, decide_False in Href' by done.
         simpl in Href'. rewrite Hrm in Href'. simpl in Href'. congruence. }
    destruct (inv_rooms _ Hinv _ _ Hrm) as (room0 & Hroom0 & _).
    assert (Hr : roomOf s sid = Some (c, ref0, room0))
      by (by apply roomOf_Some).
    rewrite (onDisconnect_room _ _ _ _ _ Hr) in Href'.
    assert (Hl : <[ref0 := leave sid room0]> (heap s) !! ref = Some room')
      by (by destruct (decide (length (players (leave sid room0)) = 0))).
    rewrite lookup_insert in Hl. case_decide; congruence.
  - destruct (onTimer_shape t now s)
      as [[_ Hs]|(ref0 & Hp &
           [[_ Hs]|(room0 & out & Hroom0 &
                    [[Hnil Hs]|[(Hne & Hlen & Hs)|(Hlen & Hs)]])])];
      try (destruct Hsame; by rewrite Hs);
      destruct (Hstore _ _ _ _ Hroom0 ltac:(by rewrite Hs)).
Qed.

(** A property of the room built by [room:create] that every change of a
    room object preserves holds of every room of a reachable server. *)
Lemma room_invariant (P : RoomState → Prop) :
  (∀ sid nm rnd, P (createdRoom sid nm rnd)) →
  (∀ room room', P room → RoomStep room room' → P room') →
  ∀ s, reachable s → ∀ ref room, heap s !! ref = Some room → P room.
Proof.
  intros Hnew Hstep s [l <-].
  induction l as [|a l IH] using rev_ind; intros ref room.
  - simpl. by rewrite lookup_empty.
  - rewrite run_snoc. cbn [fst]. intros Href'.
    assert (Hinv : invariant (run initial l).1)
      by apply run_invariant, invariant_initial.
    destruct (heap (run initial l).1 !! ref) as [room0|] eqn:Href.
    + eapply Hstep; [by eapply IH | by eapply step_room].
    + destruct (step_new _ _ _ _ Hinv Href Href') as (sid & nm & rnd & ->).
      apply Hnew.
Qed.

(** ** Claim C2: the guess of the imposter *)






(** ** words.ts *)

(** X1: whatever the two random draws are, [pickWordPair] returns a word of
    [WORDS] and a different word of [FAKE_WORDS]. *)
Theorem pickWordPair_distinct (i j : nat) :
  (pickWordPair i j).1 ∈ WORDS ∧ (pickWordPair i j).2 ∈ FAKE_WORDS ∧
  (pickWordPair i j).1 ≠ (pickWordPair i j).2.
Proof.
  assert (Hall : Forall (λ a, Forall (λ b,
            (pickWordPair a b).1 ∈ WORDS ∧ (pickWordPair a b).2 ∈ FAKE_WORDS ∧
            (pickWordPair a b).1 ≠ (pickWordPair a b).2) (seq 0 20)) (seq 0 20)).
  { apply (bool_decide_unpack _). vm_compute. exact I. }
  assert (Hmod : pickWordPair i j = pickWordPair (i mod 20) (j mod 20)).
  { unfold pickWordPair. change (length WORDS) with 20.
    change (length FAKE_WORDS) with 20.
    by rewrite !Nat.Div0.mod_mod. }
  rewrite Hmod.
  eapply Forall_forall in Hall;
    [|apply elem_of_seq; split; [lia | apply (Nat.mod_upper_bound i 20); lia]].
  eapply Forall_forall in Hall;
    [exact Hall|apply elem_of_seq; split; [lia | apply (Nat.mod_upper_bound j 20); lia]].
Qed.

(** ** Invariants of the rooms *)

Lemma computeVoting_fields room :
  let room' := (computeVoting room).1 in
  currentDrawerId room' = currentDrawerId room ∧
  drawing room' = drawing room ∧ chat room' = chat room ∧
  fakeWord room' = fakeWord room ∧ turnEndsAt room' = None.
Proof.
  rewrite computeVoting_room. by destruct (Js.truthy (imposterId room)).
Qed.

Lemma secretsInv_keep room room' :
  imposterId room' = imposterId room → realWord room' = realWord room →
  fakeWord room' = fakeWord room → round room' = round room →
  phase room' = phase room ∨ phase room' ≠ Lobby ∧ phase room ≠ Lobby →
  secretsInv room → secretsInv room'.
Proof.
  unfold secretsInv. intros -> -> -> -> Hph.
  destruct (imposterId room).
  - intros (real & fake & ? & ? & ? & ? & ? & ? & ?).
    exists real, fake. split_and!; try done. destruct Hph as [->|[? _]]; done.
  - intros (? & ? & ? & Hl). split_and!; try done.
    destruct Hph as [->|[_ ?]]; done.
Qed.

(** X2: in every reachable state a room either has no imposter and no
    words, is in the lobby and in round 0, or has an imposter, a real word
    of [WORDS] and a different decoy of [FAKE_WORDS], has left the lobby
    and counts at least one round. *)
Theorem secrets_invariant (s : Server) (ref : nat) (room : RoomState) :
  reachable s → heap s !! ref = Some room → secretsInv room.
Proof.
  intros Hreach. revert ref room. apply room_invariant; [done| |done].
  clear. intros room room' HP Hstep.
  destruct Hstep as [->| sid nm -> |rnd i j now t _ ->|sid st _ Hph ->
                    |sid p msg now _ _ ->|sid tg Hph _ ->|sid tg Hph _ ->
                    |sid g Himp _ ->|sid ->|_ Hph _ ->|now t Hph _ ->].
  - done.
  - by apply (secretsInv_keep room); [..|left|].
  - unfold secretsInv. simpl.
    destruct (pickWordPair_distinct i j) as (? & ? & ?).
    eexists _, _. split_and!; try done; lia.
  - by apply (secretsInv_keep room); [..|left|].
  - by apply (secretsInv_keep room); [..|left|].
  - by apply (secretsInv_keep room); [..|left|].
  - destruct (computeVoting_frame (votedBy sid tg room))
      as (_ & _ & _ & _ & Hp & Hr & _ & _ & Hi & Hw).
    destruct (computeVoting_fields (votedBy sid tg room)) as (_ & _ & _ & Hf & _).
    apply (secretsInv_keep room); try done.
    right. rewrite Hp, Hph. done.
  - apply (secretsInv_keep room); try done.
    right. split; [done|]. intros Hl.
    unfold secretsInv in HP. rewrite Himp in HP.
    by destruct HP as (? & ? & _ & _ & _ & _ & _ & _ & ?).
  - destruct (leave_frame sid room)
      as (_ & Hp & Hr & _ & _ & _ & _ & _ & _ & _ & Hi & Hw & Hf & _).
    by apply (secretsInv_keep room); [..|left|].
  - apply (secretsInv_keep room); try done.
    right. split; [done|]. destruct Hph as [-> | ->]; done.
  - apply (secretsInv_keep room); try done.
    right. split; [done|]. destruct Hph as [-> | ->]; done.
Qed.

Lemma secrets_invariant_witness :
  ∃ real fake,
    realWord drawingRoom = Some real ∧ fakeWord drawingRoom = Some fake ∧
    real ≠ fake.
Proof.
  pose proof (secrets_invariant (run initial drawingTrace).1 0 drawingRoom
                (ex_intro _ drawingTrace eq_refl)
                ltac:(vm_compute; reflexivity)) as H.
  destruct H as (real & fake & H1 & H2 & _ & _ & H3 & _).
  exists real, fake. split_and!; [exact H1 | exact H2 | exact H3].
Defined.

(** X3: in every reachable state a room in the lobby shows no drawer, no
    deadline, no stroke and no vote and never armed a timeout; a room that
    is drawing names a drawer and a deadline and has armed a timeout; a room
    that is voting names neither drawer nor deadline. *)
Theorem phase_invariant (s : Server) (ref : nat) (room : RoomState) :
  reachable s → heap s !! ref = Some room → phaseInv room.
Proof.
  intros Hreach. revert ref room. apply room_invariant; [done| |done].
  clear. intros room room' HP Hstep. unfold phaseInv in *.
  destruct Hstep as [->| sid nm -> |rnd i j now t Hlen ->|sid st _ Hph ->
                    |sid p msg now _ _ ->|sid tg Hph _ ->|sid tg Hph _ ->
                    |sid g Himp _ ->|sid ->|_ _ _ ->|now t _ Hlen ->].
  - done.
  - done.
  - simpl. split_and!; [|done..]. apply fmap_is_Some, lookup_lt_is_Some. lia.
  - simpl. by rewrite Hph in *.
  - done.
  - simpl. by rewrite Hph in *.
  - destruct (computeVoting_frame (votedBy sid tg room))
      as (_ & _ & _ & _ & -> & _). done.
  - done.
  - destruct (leave_frame sid room)
      as (_ & -> & _ & -> & -> & -> & -> & _ & -> & -> & _). done.
  - done.
  - simpl. split_and!; [|done..]. by apply fmap_is_Some, lookup_lt_is_Some.
Qed.

Lemma phase_invariant_witness :
  currentDrawerId votedRoom = None ∧ turnEndsAt votedRoom = None.
Proof.
  exact (phase_invariant
           (run initial (votingTrace ++ [vote_submit "c" "a"])).1 0 votedRoom
           (ex_intro _ (votingTrace ++ [vote_submit "c" "a"]) eq_refl)
           ltac:(vm_compute; reflexivity)).
Defined.

Lemma length_slice0 n s : String.length (Js.slice0 n s) ≤ n.
Proof.
  unfold Js.slice0. revert s. induction n as [|n IH]; intros [|c s]; simpl;
    try lia.
  specialize (IH s). lia.
Qed.

Lemma name_or_default n nm d :
  d ≠ "" → String.length d ≤ n →
  Js.or_default (Js.slice0 n nm) d ≠ "" ∧
  String.length (Js.or_default (Js.slice0 n nm) d) ≤ n.
Proof.
  intros Hd Hlen. unfold Js.or_default. case_decide; [done|].
  split; [done | apply length_slice0].
Qed.

Lemma playerOk_new sid nm d host :
  d ≠ "" → String.length d ≤ 24 →
  playerOk (newPlayer sid (Js.or_default (Js.slice0 24 nm) d) host).
Proof.
  intros Hd Hlen. destruct (name_or_default 24 nm d Hd Hlen).
  by split_and!.
Qed.

Lemma Forall_promoteFirst (P : Player → Prop) ps :
  (∀ p, P p → P (set_isHost true p)) → Forall P ps → Forall P (promoteFirst ps).
Proof.
  intros HP [|p ps' Hp Hps]; [done|]. simpl. constructor; auto.
Qed.

Lemma Forall_leave (P : Player → Prop) sid room :
  (∀ p, P p → P (set_isHost true p)) →
  Forall P (players room) → Forall P (players (leave sid room)).
Proof.
  intros HP Hall. rewrite leave_players.
  assert (Forall P (filter (λ p, p_id p ≠ sid) (players room))).
  { apply Forall_forall. intros p [_ Hp]%list_elem_of_filter.
    by eapply Forall_forall in Hall. }
  case_decide; [by apply Forall_promoteFirst | done].
Qed.

(** X4: in every reachable state every player has a non-empty name of at
    most 24 characters, is flagged connected and has the counters [wins]
    and [losses] of its player record at 0 (the scores live in the
    leaderboard only); every chat message has a text of at most 200
    characters and carries such a name. *)
Theorem records_invariant (s : Server) (ref : nat) (room : RoomState) :
  reachable s → heap s !! ref = Some room → recordsInv room.
Proof.
  intros Hreach. revert ref room. apply room_invariant; [| |done].
  { intros sid nm rnd. split; [|constructor].
    apply Forall_singleton. apply playerOk_new; [done | simpl; lia]. }
  clear. intros room room' [Hps Hms] Hstep.
  destruct Hstep as [->| sid nm -> |rnd i j now t Hlen ->|sid st _ Hph ->
                    |sid p msg now Hin _ ->|sid tg Hph _ ->|sid tg Hph _ ->
                    |sid g Himp _ ->|sid ->|_ _ _ ->|now t _ Hlen ->];
    try done.
  - split; [|done]. simpl. apply Forall_app. split; [done|].
    apply Forall_singleton. apply playerOk_new; [done | simpl; lia].
  - split; [done|]. simpl. apply Forall_app. split; [done|].
    apply Forall_singleton. eapply Forall_forall in Hps; [|exact Hin].
    destruct Hps as (? & ? & _).
    split_and!; [apply length_slice0 | done | done].
  - destruct (computeVoting_frame (votedBy sid tg room))
      as (_ & Hp & _).
    destruct (computeVoting_fields (votedBy sid tg room)) as (_ & _ & Hc & _).
    split; [by rewrite Hp | by rewrite Hc].
  - destruct (leave_frame sid room)
      as (_ & _ & _ & _ & _ & _ & _ & Hc & _).
    split; [|by rewrite Hc]. by apply Forall_leave.
Qed.

Lemma records_invariant_witness : Forall playerOk (players lobbyRoom).
Proof.
  exact (proj1 (records_invariant (run initial lobbyTrace).1 0 lobbyRoom
                  (ex_intro _ lobbyTrace eq_refl)
                  ltac:(vm_compute; reflexivity))).
Defined.

Lemma NoDup_keys_set {V} (o : Js.obj V) k v :
  NoDup (Js.keys o) → NoDup (Js.keys (Js.set o k v)).
Proof.
  intros Hnd. rewrite keys_set. case_decide as Hk; [done|].
  apply NoDup_app. split_and!; [done| |apply NoDup_singleton].
  intros x Hx. rewrite list_elem_of_singleton. by intros ->.
Qed.

(** X5: in every reachable state the vote map of a room holds at most one
    vote per voter. *)
Theorem votes_one_per_voter (s : Server) (ref : nat) (room : RoomState) :
  reachable s → heap s !! ref = Some room → NoDup (Js.keys (votes room)).
Proof.
  intros Hreach. revert ref room.
  apply (room_invariant (λ room, NoDup (Js.keys (votes room))));
    [intros; constructor| |done].
  clear. intros room room' Hnd Hstep.
  destruct Hstep as [->| sid nm -> |rnd i j now t Hlen ->|sid st _ Hph ->
                    |sid p msg now Hin _ ->|sid tg Hph _ ->|sid tg Hph _ ->
                    |sid g Himp _ ->|sid ->|_ _ _ ->|now t _ Hlen ->];
    try done.
  - constructor.
  - by apply NoDup_keys_set.
  - destruct (computeVoting_frame (votedBy sid tg room))
      as (_ & _ & _ & _ & _ & _ & -> & _).
    by apply NoDup_keys_set.
  - by destruct (leave_frame sid room)
      as (_ & _ & _ & _ & _ & _ & _ & _ & _ & -> & _).
Qed.

Lemma votes_one_per_voter_witness : NoDup (Js.keys (votes votedRoom)).
Proof.
  exact (votes_one_per_voter
           (run initial (votingTrace ++ [vote_submit "c" "a"])).1 0 votedRoom
           (ex_intro _ (votingTrace ++ [vote_submit "c" "a"]) eq_refl)
           ltac:(vm_compute; reflexivity)).
Defined.

(** ** The leaderboard *)

Lemma leave_ids sid room :
  p_id <$> players (leave sid room) =
  filter (λ x, x ≠ sid) (p_id <$> players room).
Proof.
  rewrite leave_players.
  assert (Hf : p_id <$> filter (λ p, p_id p ≠ sid) (players room) =
               filter (λ x, x ≠ sid) (p_id <$> players room)).
  { induction (players room) as [|p ps IH]; [done|].
    rewrite fmap_cons, !filter_cons.
    case_decide; [rewrite fmap_cons|]; by rewrite IH. }
  case_decide; [|done]. rewrite <-Hf.
  by destruct (filter _ (players room)).
Qed.

Lemma dom_foldl_scoreVote w room0 (ps : list Player) (lb : gmap string Score) :
  dom (foldl (scoreVote w room0) lb ps) =
  dom lb ∪ (list_to_set (p_id <$> ps) : gset string).
Proof.
  revert lb. induction ps as [|p ps IH]; intros lb; simpl.
  - set_solver.
  - rewrite IH. unfold scoreVote. rewrite dom_insert_L. set_solver.
Qed.

Lemma dom_foldl_scoreGuess sid (ps : list Player) (lb : gmap string Score) :
  dom (foldl (scoreGuess sid) lb ps) =
  dom lb ∪ (list_to_set (p_id <$> ps) : gset string).
Proof.
  revert lb. induction ps as [|p ps IH]; intros lb; simpl.
  - set_solver.
  - rewrite IH. unfold scoreGuess. rewrite dom_insert_L. set_solver.
Qed.

Lemma boardInv_step room room' :
  boardInv room → RoomStep room room' → boardInv room'.
Proof.
  unfold boardInv. intros HP Hstep.
  destruct Hstep as [->| sid nm -> |rnd i j now t Hlen ->|sid st _ Hph ->
                    |sid p msg now Hin _ ->|sid tg Hph _ ->|sid tg Hph _ ->
                    |sid g Himp _ ->|sid ->|_ _ _ ->|now t _ Hlen ->];
    try done.
  - simpl. rewrite dom_insert_L, fmap_app, list_to_set_app_L, HP. simpl.
    set_solver.
  - rewrite computeVoting_room.
    destruct (Js.truthy _); simpl; [|done].
    rewrite dom_foldl_scoreVote, HP. set_solver.
  - simpl. rewrite dom_foldl_scoreGuess, HP. set_solver.
  - destruct (leave_frame sid room)
      as (_ & _ & _ & _ & _ & _ & _ & _ & _ & _ & _ & _ & _ & ->).
    rewrite leave_ids, dom_delete_L, HP.
    apply set_eq. intros x.
    rewrite elem_of_difference, !elem_of_list_to_set, list_elem_of_filter.
    set_solver.
Qed.

(** X6: in every reachable state the leaderboard of a room has an entry
    exactly for the identities of its players, so every leaderboard row of
    the snapshot shows the leaderboard record of its player and never falls
    back to the counters of the player record. *)
Theorem leaderboard_invariant (s : Server) (ref : nat) (room : RoomState) :
  reachable s → heap s !! ref = Some room →
  (∀ id, is_Some (leaderboard room !! id) ↔ id ∈ p_id <$> players room) ∧
  Forall2 (λ p row,
             ∃ e, leaderboard room !! p_id p = Some e ∧
                  row = {| row_id := p_id p; row_name := p_name p;
                           row_wins := wins e; row_losses := losses e |})
          (players room) (v_leaderboard (roomView room)).
Proof.
  intros Hreach Href.
  assert (HP : boardInv room).
  { revert ref room Href. apply room_invariant; [|apply boardInv_step|done].
    intros sid nm rnd. unfold boardInv. simpl.
    rewrite dom_singleton_L. set_solver. }
  assert (Hiff : ∀ id, is_Some (leaderboard room !! id) ↔
                       id ∈ p_id <$> players room).
  { intros id. rewrite <-elem_of_dom, HP. apply elem_of_list_to_set. }
  split; [done|]. simpl. apply Forall2_fmap_r, Forall2_same_length_lookup.
  split; [done|]. intros i p p' Hp Hp'. simplify_eq.
  assert (Hin : p_id p ∈ p_id <$> players room).
  { apply list_elem_of_fmap_2. by eapply list_elem_of_lookup_2. }
  apply Hiff in Hin as [e He]. exists e. split; [done|].
  unfold leaderRow. by rewrite He.
Qed.

Lemma leaderboard_invariant_witness :
  is_Some (leaderboard drawingRoom !! "b") ↔
  "b" ∈ p_id <$> players drawingRoom.
Proof.
  exact (proj1 (leaderboard_invariant (run initial drawingTrace).1 0
                  drawingRoom (ex_intro _ drawingTrace eq_refl)
                  ltac:(vm_compute; reflexivity)) "b").
Defined.

(** ** The tally and the scores of [computeVoting] *)

Lemma sum_set (o : Js.obj Tally) x v :
  sum_list (countOf <$> Js.values (Js.set o x v))
    + countOf (default (Count 0) (Js.get o x))
  = sum_list (countOf <$> Js.values o) + countOf v.
Proof.
  unfold Js.values. induction o as [|[k n] o IH]; [simpl; lia|].
  cbn [Js.set Js.get].
  destruct (decide (k = x)); rewrite !fmap_cons;
    cbn [snd sum_list_with default option_rect from_option] in *;
    unfold id in *; lia.
Qed.

Lemma sum_insert_index i (o : Js.obj Tally) x v :
  sum_list (countOf <$> Js.values (Js.insert_index i x v o))
  = sum_list (countOf <$> Js.values o) + countOf v.
Proof.
  unfold Js.values. induction o as [|[k n] o IH]; [simpl; lia|].
  cbn [Js.insert_index].
  destruct (Js.array_index k) as [j|]; [destruct (decide (j < i)%N)|];
    rewrite !fmap_cons; cbn [snd sum_list_with] in *; unfold id in *; lia.
Qed.

Lemma sum_put (o : Js.obj Tally) x v :
  sum_list (countOf <$> Js.values (Js.put o x v))
    + countOf (default (Count 0) (Js.get o x))
  = sum_list (countOf <$> Js.values o) + countOf v.
Proof.
  unfold Js.put. destruct (Js.get o x) as [v0|] eqn:Hx.
  - pose proof (sum_set o x v) as H. by rewrite Hx in H.
  - destruct (Js.array_index x) as [i|].
    + rewrite sum_insert_index. simpl. lia.
    + pose proof (sum_set o x v) as H. by rewrite Hx in H.
Qed.

(** X7: the tally of [computeVoting] has a property for exactly the
    accused identities other than [__proto__]: the number of votes against
    the identity or, for an identity that names a method of
    [Object.prototype], a text with one "1" for every vote.  It enumerates
    the array indices first, in ascending order, and then the other
    identities in the order of their first accusation.  Its counts add up
    to the number of votes for identities that [Object.prototype] does not
    have. *)
Theorem tallyVotes_counts (vs : Js.obj string) :
  let accused := Js.values vs in
  (∀ x, Js.get (tallyVotes vs) x =
        if decide (x ∈ counted accused) then Some (tallied accused x)
        else None) ∧
  NoDup (Js.keys (tallyVotes vs)) ∧
  enumerated accused (Js.keys (tallyVotes vs)) ∧
  sum_list (countOf <$> Js.values (tallyVotes vs))
  = length (filter (λ x, x ∉ "__proto__" :: Js.inherited) accused).
Proof.
  intros accused. unfold tallyVotes. fold accused. split_and!.
  - intros x. apply get_tallyOf.
  - apply NoDup_keys_tallyOf.
  - apply enumerated_tallyOf.
  - induction accused as [|y l IH] using rev_ind; [done|].
    rewrite tallyOf_snoc, filter_app, length_app, <-IH. unfold tallyStep.
    rewrite filter_cons, filter_nil.
    destruct (decide (y = "__proto__")) as [->|Hy].
    { rewrite decide_False; [simpl; lia|].
      intros H. apply H. left. }
    pose proof (sum_put (tallyOf l) y (bumped (tallyOf l) y)) as Hsum.
    unfold bumped in Hsum |- *. rewrite get_tallyOf in Hsum |- *.
    unfold tallied in Hsum |- *.
    destruct (decide (y ∈ Js.inherited)) as [Hi|Hi].
    + rewrite (decide_False (P := y ∉ "__proto__" :: Js.inherited))
        by (intros H; apply H; by right).
      rewrite (decide_True (P := y ∈ "__proto__" :: Js.inherited))
        in Hsum |- * by (by right).
      destruct (decide (y ∈ counted l)); simpl in *; lia.
    + rewrite (decide_True (P := y ∉ "__proto__" :: Js.inherited))
        by (rewrite not_elem_of_cons; done).
      rewrite (decide_False (P := y ∈ "__proto__" :: Js.inherited))
        in Hsum |- * by (rewrite not_elem_of_cons; done).
      destruct (decide (y ∈ counted l)); simpl in *; lia.
Qed.

Lemma foldl_scoreVote w room0 (ps : list Player) (lb : gmap string Score) p :
  NoDup (p_id <$> ps) → p ∈ ps →
  foldl (scoreVote w room0) lb ps !! p_id p =
  Some (let e := default {| wins := p_wins p; losses := p_losses p |}
                   (lb !! p_id p) in
        if bool_decide (is_imposter room0 p = w) then win e else lose e).
Proof.
  revert lb. induction ps as [|q ps IH]; intros lb Hnd Hin.
  - by apply elem_of_nil in Hin.
  - rewrite fmap_cons in Hnd. apply NoDup_cons in Hnd as [Hq Hnd].
    cbn [foldl]. apply elem_of_cons in Hin as [->|Hin].
    + assert (Hkeep : ∀ lb', foldl (scoreVote w room0) lb' ps !! p_id q
                             = lb' !! p_id q).
      { clear -Hq. induction ps as [|r ps IH]; intros lb'; [done|].
        rewrite fmap_cons, not_elem_of_cons in Hq. destruct Hq as [Hne Hq].
        cbn [foldl]. rewrite IH by done. unfold scoreVote.
        by rewrite lookup_insert_ne. }
      rewrite Hkeep. unfold scoreVote. rewrite lookup_insert_eq.
      f_equal. destruct w, (is_imposter room0 q); done.
    + rewrite IH by done. unfold scoreVote at 1.
      rewrite lookup_insert_ne; [done|].
      intros Heq. apply Hq. rewrite Heq. by apply list_elem_of_fmap_2.
Qed.

Lemma foldl_scoreVote_other w room0 (ps : list Player) (lb : gmap string Score) id :
  id ∉ p_id <$> ps → foldl (scoreVote w room0) lb ps !! id = lb !! id.
Proof.
  revert lb. induction ps as [|r ps IH]; intros lb Hid; [done|].
  rewrite fmap_cons, not_elem_of_cons in Hid. destruct Hid as [Hne Hid].
  cbn [foldl]. rewrite IH by done. unfold scoreVote.
  by rewrite lookup_insert_ne.
Qed.

(** X8: when the room has an imposter and its players have distinct
    identities, [computeVoting] adds exactly one point to the record of every
    player, by the verdict that its [phase:results] event announces: a win
    to the imposter and a loss to everybody else when the event says that
    the imposter's side wins, which it says exactly when the suspect it
    names is not the imposter; a loss to the imposter and a win to
    everybody else otherwise.  The records of other identities, the
    players, the votes and the secrets are unchanged, and the room shows the
    results without a deadline. *)
Theorem computeVoting_scores (room : RoomState) (imp : string) :
  imposterId room = Some imp → imp ≠ "" →
  NoDup (p_id <$> players room) →
  let room' := (computeVoting room).1 in
  ∃ suspected tally imposterWins,
    last (computeVoting room).2 =
      Some (Emit (code room)
              (phase_results suspected (Some imp) (realWord room) tally
                 imposterWins)) ∧
    (imposterWins = false ↔ suspected = Some imp) ∧
    (∀ p, p ∈ players room →
       leaderboard room' !! p_id p =
       Some (let e := default {| wins := p_wins p; losses := p_losses p |}
                        (leaderboard room !! p_id p) in
             if bool_decide (bool_decide (p_id p = imp) = imposterWins)
             then win e else lose e)) ∧
    (∀ id, id ∉ p_id <$> players room →
       leaderboard room' !! id = leaderboard room !! id) ∧
    room' = set_turnEndsAt None
              (set_phase Results (set_leaderboard (leaderboard room') room)).
Proof.
  intros Himp Hne Hnd room'. subst room'.
  exists (suspectedOf (tallyVotes (votes room))), (tallyVotes (votes room)),
    (strict_ne (suspectedOf (tallyVotes (votes room))) (Some imp)).
  assert (Ht : Js.truthy (Some imp) = true)
    by (simpl; by rewrite decide_False).
  split_and!.
  - unfold computeVoting. rewrite Himp, Ht. simpl. by rewrite Himp.
  - rewrite strict_ne_false. naive_solver.
  - rewrite computeVoting_room, Himp, Ht. simpl.
    intros p Hp. rewrite foldl_scoreVote by done. simpl.
    unfold is_imposter. rewrite Himp.
    assert (Hb : bool_decide (Some (p_id p) = Some imp)
                 = bool_decide (p_id p = imp))
      by (apply bool_decide_ext; naive_solver).
    by rewrite Hb.
  - rewrite computeVoting_room, Himp, Ht. simpl.
    intros id Hid. by apply foldl_scoreVote_other.
  - by rewrite computeVoting_room, Himp, Ht.
Qed.

Lemma computeVoting_scores_witness :
  let room := set_votes [("a", "b"); ("b", "0"); ("c", "b")] votedRoom in
  ∃ suspected tally imposterWins,
    last (computeVoting room).2 =
      Some (Emit (code room)
              (phase_results suspected (Some "b") (realWord room) tally
                 imposterWins)) ∧
    (imposterWins = false ↔ suspected = Some "b") ∧
    leaderboard (computeVoting room).1 !! "a" =
      Some (if bool_decide (false = imposterWins)
            then {| wins := 1; losses := 0 |}
            else {| wins := 0; losses := 1 |}).
Proof.
  intros room.
  destruct (computeVoting_scores room "b") as (su & ta & iw & H1 & H2 & H3 & _).
  - reflexivity.
  - discriminate.
  - simpl. repeat constructor; rewrite ?elem_of_cons, ?elem_of_nil;
      intros H; repeat destruct H as [H|H]; discriminate || done.
  - exists su, ta, iw. split_and!; [exact H1 | exact H2 |].
    pose proof (H3 (newPlayer "a" "Alice" true) ltac:(left)) as H4.
    change (p_id (newPlayer "a" "Alice" true)) with "a" in H4.
    rewrite H4. destruct iw; vm_compute; reflexivity.
Defined.

(** ** The private words of [startGame] *)

Lemma bool_decide_Some (a b : string) :
  bool_decide (Some a = Some b) = bool_decide (a = b).
Proof. apply bool_decide_ext. split; [by intros [= ->] | by intros ->]. Qed.

Lemma pickImposter_player rnd (ps : list Player) :
  ps ≠ [] → pickImposter rnd ps ∈ p_id <$> ps.
Proof.
  intros Hne. unfold pickImposter.
  assert (Hlt : rnd mod length ps < length ps).
  { apply Nat.mod_upper_bound. by destruct ps. }
  apply lookup_lt_is_Some in Hlt as [p Hp]. rewrite Hp. simpl.
  apply list_elem_of_fmap_2. by eapply list_elem_of_lookup_2.
Qed.

Lemma startGame_out self rnd i j now room tm :
  3 ≤ length (players room) →
  ∃ rest,
    (startGame self rnd i j now room tm).2 =
      broadcastWords (roundStarted rnd i j room) ++ rest ∧
    forallb (λ o, negb (is_word o)) rest = true.
Proof.
  intros Hlen. unfold startGame. rewrite decide_False by lia.
  destruct (pickWordPair i j) as [real fake] eqn:Hw. cbv zeta.
  set (room1 := set_secrets _ _ _ _).
  assert (Hr : room1 = roundStarted rnd i j room)
    by (unfold roundStarted; by rewrite Hw).
  clearbody room1. subst room1. unfold startTurn.
  rewrite decide_False by (simpl; lia).
  rewrite decide_False by (simpl; lia).
  cbv zeta. cbn [setTimeout snd]. eexists. rewrite <-app_assoc.
  split; [reflexivity | reflexivity].
Qed.

(** X9: when the host starts a round, the imposter is drawn among the
    players; every player is sent a [word:assigned] message under the own
    identity, the imposter with the decoy word and the imposter flag,
    everybody else with the real word and without the flag; and no other
    [word:assigned] message is sent. *)
Theorem startGame_words (s : Server) (sid c : string) (ref : nat)
    (room : RoomState) (rnd i j : nat) (now : Z) :
  roomOf s sid = Some (c, ref, room) → hostId room = sid →
  3 ≤ length (players room) →
  let out := (step s (game_start sid rnd i j now)).2 in
  let imp := pickImposter rnd (players room) in
  let real := (pickWordPair i j).1 in
  let fake := (pickWordPair i j).2 in
  let message to :=
    Emit to (word_assigned (Some (if decide (to = imp) then fake else real))
               (bool_decide (to = imp))) in
  imp ∈ p_id <$> players room ∧ real ≠ fake ∧
  (∃ room', heap (step s (game_start sid rnd i j now)).1 !! ref = Some room' ∧
     imposterId room' = Some imp ∧ realWord room' = Some real ∧
     fakeWord room' = Some fake) ∧
  (∀ p, p ∈ players room → message (p_id p) ∈ out) ∧
  (∀ o, o ∈ out → is_word o = true →
     ∃ p, p ∈ players room ∧ o = message (p_id p)).
Proof.
  intros Hr Hhost Hlen out imp real fake message.
  assert (Hwords : broadcastWords (roundStarted rnd i j room)
                   = (λ p, message (p_id p)) <$> players room).
  { unfold broadcastWords. simpl. apply list_fmap_ext. intros _ p _.
    unfold is_imposter, message. simpl. fold imp real fake.
    rewrite bool_decide_Some.
    destruct (decide (p_id p = imp));
      [rewrite bool_decide_eq_true_2 | rewrite bool_decide_eq_false_2]; done. }
  split_and!.
  - apply pickImposter_player. intros Hnil. rewrite Hnil in Hlen. simpl in Hlen. lia.
  - apply pickWordPair_distinct.
  - cbn [step]. unfold onStart. rewrite Hr, decide_False by (by intros ?).
    destruct (startGame_cases ref rnd i j now room (timers s))
      as [[? _]|[_ [o ->]]]; [lia|].
    cbn [fst]. rewrite lookup_store, decide_True by done.
    eexists. split; [reflexivity|]. by split_and!.
  - intros p Hp. subst out. cbn [step]. unfold onStart.
    rewrite Hr, decide_False by (by intros ?).
    destruct (startGame_out ref rnd i j now room (timers s) Hlen)
      as (rest & Hout & _).
    destruct (startGame ref rnd i j now room (timers s)) as [[r tm] o].
    cbn [snd] in *. rewrite Hout, Hwords, elem_of_app. left.
    by apply (list_elem_of_fmap_2 (λ p, message (p_id p))).
  - intros o Ho Hw. subst out. cbn [step] in Ho. unfold onStart in Ho.
    rewrite Hr, decide_False in Ho by (by intros ?).
    destruct (startGame_out ref rnd i j now room (timers s) Hlen)
      as (rest & Hout & Hrest).
    destruct (startGame ref rnd i j now room (timers s)) as [[r tm] o'].
    cbn [snd] in *. rewrite Hout, Hwords, elem_of_app in Ho.
    destruct Ho as [Ho|Ho].
    + apply list_elem_of_fmap in Ho as (p & -> & Hp). by exists p.
    + rewrite forallb_forall in Hrest.
      apply list_elem_of_In, Hrest in Ho. by rewrite Hw in Ho.
Qed.

Lemma startGame_words_witness :
  Emit "b" (word_assigned (Some "Rakete") true)
    ∈ (step (run initial lobbyTrace).1 (game_start "a" 1 0 0 0%Z)).2 ∧
  Emit "c" (word_assigned (Some "Tisch") false)
    ∈ (step (run initial lobbyTrace).1 (game_start "a" 1 0 0 0%Z)).2.
Proof.
  destruct (startGame_words (run initial lobbyTrace).1 "a" "AAAAAA" 0 lobbyRoom
              1 0 0 0%Z lobbyTrace_room eq_refl ltac:(simpl; lia))
    as (_ & _ & _ & H & _).
  split.
  - exact (H (newPlayer "b" "Bob" false) ltac:(right; left)).
  - exact (H (newPlayer "c" "Cara" false) ltac:(right; right; left)).
Defined.

(** ** Sockets outside every room *)

(** X10: an action of a socket that is registered to no room, other than
    [room:create] and [room:join], changes nothing and emits nothing; and
    after its [disconnect] a socket finds no room, so that whatever it
    sends afterwards is ignored in this way. *)
Theorem unregistered_ignored (s : Server) (sid : string) (a : Action) :
  actorOf a = Some sid →
  (socketToRoom s !! sid = None → step s a = (s, [])) ∧
  roomOf (step s (disconnect sid)).1 sid = None ∧
  step (step s (disconnect sid)).1 a = ((step s (disconnect sid)).1, []).
Proof.
  intros Ha.
  assert (Hign : ∀ s0,
            socketToRoom s0 !! sid = None ∨ socketToRoom s0 !! sid = Some "" →
            roomOf s0 sid = None ∧ step s0 a = (s0, [])).
  { intros s0 Hs0.
    assert (Hr : roomOf s0 sid = None)
      by (unfold roomOf; destruct Hs0 as [-> | ->]; done).
    split; [done|].
    destruct a; simplify_eq/=;
      unfold onStart, onStroke, onChat, onVote, onGuess; rewrite ?Hr; try done.
    unfold onDisconnect. destruct Hs0 as [-> | ->]; done. }
  assert (Hdis : socketToRoom (step s (disconnect sid)).1 !! sid = None ∨
                 socketToRoom (step s (disconnect sid)).1 !! sid = Some "").
  { cbn [step]. unfold onDisconnect.
    destruct (socketToRoom s !! sid) as [c|] eqn:Hs; [|by left].
    case_decide; [right; by subst|]. left.
    cbv zeta. cbn [rooms heap].
    destruct (rooms s !! c ≫= _) as [[ref room]|];
      [case_decide|]; apply lookup_delete_eq. }
  split_and!.
  - intros Hs. apply Hign. by left.
  - by apply Hign.
  - by apply Hign.
Qed.

Lemma unregistered_ignored_witness :
  step (step (run initial lobbyTrace).1 (disconnect "c")).1
       (vote_submit "c" "a")
  = ((step (run initial lobbyTrace).1 (disconnect "c")).1, []).
Proof.
  exact (proj2 (proj2 (unregistered_ignored (run initial lobbyTrace).1 "c"
                         (vote_submit "c" "a") eq_refl))).
Defined.

(** ** The chat *)

Lemma chat_step room room' :
  RoomStep room room' →
  chat room' = chat room ∨ ∃ m, chat room' = chat room ++ [m].
Proof.
  intros Hstep.
  destruct Hstep as [->| sid nm -> |rnd i j now t Hlen ->|sid st _ Hph ->
                    |sid p msg now Hin _ ->|sid tg Hph _ ->|sid tg Hph _ ->
                    |sid g Himp _ ->|sid ->|_ _ _ ->|now t _ Hlen ->];
    try (by left).
  - right. by eexists.
  - left. by destruct (computeVoting_fields (votedBy sid tg room))
      as (_ & _ & -> & _).
  - left. by destruct (leave_frame sid room)
      as (_ & _ & _ & _ & _ & _ & _ & -> & _).
Qed.

Lemma last_n_spec {A} n (l : list A) :
  Js.last_n n l `suffix_of` l ∧ length (Js.last_n n l) = n `min` length l.
Proof.
  unfold Js.last_n. split; [apply suffix_drop|]. rewrite length_drop. lia.
Qed.

(** X11: the chat history of a room only grows: whatever happens, the
    history of an earlier state is a prefix of the history of a later
    state.  The snapshot carries the last 60 messages of the history, or
    all of them when there are fewer. *)
Theorem chat_append_only (s : Server) (l : list Action) (ref : nat)
    (room room' : RoomState) :
  reachable s →
  heap s !! ref = Some room → heap (run s l).1 !! ref = Some room' →
  chat room `prefix_of` chat room' ∧
  v_chat (roomView room') `suffix_of` chat room' ∧
  length (v_chat (roomView room')) = 60 `min` length (chat room').
Proof.
  intros Hinv%reachable_invariant Href Href'.
  split; [|apply last_n_spec].
  revert room' Href'. induction l as [|a l IH] using rev_ind; intros room' Href'.
  - simpl in Href'. by simplify_eq.
  - rewrite run_snoc in Href'. cbn [fst] in Href'.
    destruct (run_heap_lookup s l ref room Hinv Href) as [x Hx].
    pose proof (IH _ Hx) as Hpre.
    assert (Hinv' : invariant (run s l).1) by (by apply run_invariant).
    destruct (chat_step _ _ (step_room _ _ _ _ _ Hinv' Hx Href'))
      as [-> | [m ->]]; [done|].
    by apply prefix_app_r.
Qed.

Lemma chat_append_only_witness :
  let s := (run initial lobbyTrace).1 in
  ∃ room',
    heap (run s [chat_send "b" "hallo" 5%Z; disconnect "b"]).1 !! 0
      = Some room' ∧
    chat lobbyRoom `prefix_of` chat room'.
Proof.
  intros s.
  destruct (run_heap_lookup s [chat_send "b" "hallo" 5%Z; disconnect "b"] 0
              lobbyRoom) as [room' Hroom'].
  - apply reachable_invariant. by exists lobbyTrace.
  - vm_compute. reflexivity.
  - exists room'. split; [exact Hroom'|].
    exact (proj1 (chat_append_only s _ 0 lobbyRoom room'
                    (ex_intro _ lobbyTrace eq_refl)
                    ltac:(vm_compute; reflexivity) Hroom')).
Defined.

(** ** Room codes: [room:create] and [room:join] *)

Lemma alphabet_upper k :
  k < 32 →
  Js.upper_ascii (default "A"%char (String.get k alphabet))
    = default "A"%char (String.get k alphabet) ∧
  Js.upper_ascii (Js.lower_ascii (default "A"%char (String.get k alphabet)))
    = default "A"%char (String.get k alphabet) ∧
  default "A"%char (String.get k alphabet) ∈ list_ascii_of_string alphabet.
Proof.
  intros Hk.
  assert (Hall : Forall (λ k,
            Js.upper_ascii (default "A"%char (String.get k alphabet))
              = default "A"%char (String.get k alphabet) ∧
            Js.upper_ascii
              (Js.lower_ascii (default "A"%char (String.get k alphabet)))
              = default "A"%char (String.get k alphabet) ∧
            default "A"%char (String.get k alphabet)
              ∈ list_ascii_of_string alphabet) (seq 0 32)).
  { apply (bool_decide_unpack _). vm_compute. exact I. }
  eapply Forall_forall in Hall; [exact Hall|]. apply elem_of_seq. lia.
Qed.

Lemma customAlphabet_upper n rnd :
  Js.toUpperCase (customAlphabet alphabet n rnd) = customAlphabet alphabet n rnd ∧
  Js.toUpperCase (Js.toLowerCase (customAlphabet alphabet n rnd))
    = customAlphabet alphabet n rnd ∧
  String.length (customAlphabet alphabet n rnd) = n ∧
  Forall (λ ch, ch ∈ list_ascii_of_string alphabet)
    (list_ascii_of_string (customAlphabet alphabet n rnd)).
Proof.
  revert rnd. induction n as [|n IH]; intros rnd; [by split_and!|].
  destruct (IH (rnd / String.length alphabet)) as (IH1 & IH2 & IH3 & IH4).
  destruct (alphabet_upper (rnd mod 32)) as (H1 & H2 & H3);
    [apply Nat.mod_upper_bound; lia|].
  change (customAlphabet alphabet (S n) rnd)
    with (String (default "A"%char (String.get (rnd mod 32) alphabet))
            (customAlphabet alphabet n (rnd / String.length alphabet))).
  set (ch := default "A"%char (String.get (rnd mod 32) alphabet)) in *.
  set (rest := customAlphabet alphabet n (rnd / String.length alphabet)) in *.
  clearbody ch rest.
  unfold Js.toUpperCase, Js.toLowerCase in *. cbn [Js.map_string].
  rewrite H1, H2, IH1, IH2. split_and!; [done | done | |].
  - cbn [String.length]. by rewrite IH3.
  - cbn [list_ascii_of_string]. by constructor.
Qed.

(** X12: a room code is six characters of the alphabet, which has no
    lower-case letter; so after [room:create] a [room:join] with the code
    returned, typed in upper or lower case, enters the room just created:
    the joiner is registered to it and is its second player, not host, with
    an empty record. *)
Theorem create_then_join (s : Server) (sid nm sid2 c2 nm2 : string)
    (rnd : nat) :
  let c := makeRoomCode rnd in
  let s1 := (step s (room_create sid nm rnd)).1 in
  String.length c = 6 ∧
  Forall (λ ch, ch ∈ list_ascii_of_string alphabet) (list_ascii_of_string c) ∧
  last (step s (room_create sid nm rnd)).2 = Some (Ack sid (reply_room c sid)) ∧
  (c2 = c ∨ c2 = Js.toLowerCase c →
   roomOf (step s1 (room_join sid2 c2 nm2)).1 sid2
     = Some (c, nextRef s, joinedRoom sid2 nm2 (createdRoom sid nm rnd)) ∧
   last (step s1 (room_join sid2 c2 nm2)).2
     = Some (Ack sid2 (reply_room c sid2))).
Proof.
  intros c s1. destruct (customAlphabet_upper 6 rnd) as (Hu & Hul & Hlen & Hall).
  fold (makeRoomCode rnd) in *. fold c in Hu, Hul, Hlen, Hall.
  split_and!; [done | done | done |].
  intros Hc2.
  assert (Hup : Js.toUpperCase c2 = c) by (by destruct Hc2 as [-> | ->]).
  subst s1. cbn [step]. unfold onJoin.
  cbn [onCreate fst rooms heap]. fold c. rewrite Hup, !lookup_insert_eq.
  cbv zeta. cbn [fst snd]. split; [|done].
  apply roomOf_Some. cbn [socketToRoom rooms heap].
  rewrite !lookup_insert_eq. split_and!; done.
Qed.

Lemma create_then_join_witness :
  roomOf (step (step initial (room_create "a" "Alice" 7)).1
               (room_join "b" "haaaaa" "Bob")).1 "b"
  = Some ("HAAAAA", 0, joinedRoom "b" "Bob" (createdRoom "a" "Alice" 7)).
Proof.
  exact (proj1 (proj2 (proj2 (proj2
           (create_then_join initial "a" "Alice" "b" "haaaaa" "Bob" 7)))
           (or_intror eq_refl))).
Defined.

(** ** The turns of a round *)

(** X13: after the host has started a round in a room of [n] players, and
    with nothing else happening, [k] expiries of the turn timeout leave the
    room in the drawing turn of the player at position [k] of the player
    list, with an empty stroke log and a deadline 20 seconds after the last
    expiry, as long as [k < n]; the [n]th expiry opens the vote, and later
    expiries do not occur.  Every player thus draws exactly once, in the
    order of the list. *)
Theorem turn_schedule (s : Server) (sid c : string) (ref : nat)
    (room : RoomState) (rnd i j : nat) (now : Z) (nows : list Z) :
  reachable s →
  roomOf s sid = Some (c, ref, room) → hostId room = sid →
  3 ≤ length (players room) →
  ∃ room',
    heap (expireAll ref (step s (game_start sid rnd i j now)).1 nows) !! ref
      = Some room' ∧
    players room' = players room ∧ round room' = round room + 1 ∧
    turnIndex room' = length nows `min` length (players room) ∧
    if decide (length nows < length (players room)) then
      phase room' = Drawing ∧
      currentDrawerId room' = p_id <$> players room !! length nows ∧
      drawing room' = [] ∧
      turnEndsAt room' = Some (default now (last nows) + TURN_MS)%Z
    else
      phase room' = Voting ∧ currentDrawerId room' = None ∧
      turnEndsAt room' = None.
Proof.
  intros Hinv%reachable_invariant Hr Hhost Hlen.
  set (s0 := (step s (game_start sid rnd i j now)).1).
  assert (Hinv0 : invariant s0) by (by apply step_invariant).
  pose proof Hr as (_ & _ & _ & Hroom)%roomOf_Some.
  cut (∃ room',
    invariant (expireAll ref s0 nows) ∧
    heap (expireAll ref s0 nows) !! ref = Some room' ∧
    players room' = players room ∧ round room' = round room + 1 ∧
    turnIndex room' = length nows `min` length (players room) ∧
    (∃ t, timerRef room' = Some t ∧
          (length nows < length (players room) →
           pending (timers (expireAll ref s0 nows)) !! t = Some ref) ∧
          (length (players room) ≤ length nows →
           pending (timers (expireAll ref s0 nows)) !! t = None)) ∧
    if decide (length nows < length (players room)) then
      phase room' = Drawing ∧
      currentDrawerId room' = p_id <$> players room !! length nows ∧
      drawing room' = [] ∧
      turnEndsAt room' = Some (default now (last nows) + TURN_MS)%Z
    else
      phase room' = Voting ∧ currentDrawerId room' = None ∧
      turnEndsAt room' = None).
  { intros (room' & _ & ? & ? & ? & ? & _ & ?). exists room'. by split_and!. }
  induction nows as [|nowk nows IH] using rev_ind.
  - (* the round has just been started *)
    subst s0. cbn [expireAll foldl step] in *. unfold onStart in *.
    rewrite Hr, decide_False in * by (by intros ?).
    destruct (startGame_cases ref rnd i j now room (timers s))
      as [[? _]|[_ [out Hg]]]; [lia|].
    rewrite Hg in *. cbn [fst] in *.
    rewrite lookup_store, decide_True by done.
    eexists. split; [done|]. split; [reflexivity|].
    split_and!; try done.
    + exists (nextTimer (timers s)). split; [done|].
      split; [|simpl; lia]. intros _. simpl.
      assert (Hn : nextTimer (clearTimer room (timers s)) = nextTimer (timers s))
        by (unfold clearTimer; by destruct (timerRef room)).
      rewrite Hn. apply lookup_insert_eq.
    + rewrite decide_True by (simpl; lia). by split_and!.
  - (* one more expiry *)
    destruct IH as (r & Hinvk & Hrk & Hpl & Hrd & Hti & (t & Ht & Hpend & Hgone)
                      & Hcase).
    unfold expireAll in *. rewrite foldl_app. cbn [foldl].
    set (sk := foldl (expire ref) s0 nows) in *.
    assert (Hexp : expire ref sk nowk = (onTimer t nowk sk).1).
    { unfold expire. rewrite Hrk. simpl. by rewrite Ht. }
    rewrite Hexp. clear Hexp.
    rewrite length_app, last_snoc. cbn [length default].
    destruct (decide (length nows < length (players room))) as [Hk|Hk].
    + destruct Hcase as (Hph & Hcd & Hdr & Hte).
      specialize (Hpend Hk). clear Hgone.
      assert (Hinv' : invariant (onTimer t nowk sk).1)
        by (by apply onTimer_invariant).
      destruct (onTimer_shape t nowk sk)
        as [[Hp' _]|(ref0 & Hp' &
             [[Hnone _]|(room0 & out & Hroom0 &
                         [[Hnil _]|[(_ & Hl & Hs)|(Hl & Hs)]])])];
        [congruence | | | |];
        rewrite Hpend in Hp'; injection Hp' as <-;
        rewrite Hrk in *; try congruence;
        injection Hroom0 as <-.
      * rewrite Hpl in Hnil. rewrite Hnil in Hlen. simpl in Hlen. lia.
      * rewrite Hs in *. cbn [fst] in *.
        rewrite lookup_store, decide_True by done.
        eexists. split; [done|]. split; [reflexivity|].
        rewrite Hpl, Hti in Hl.
        split_and!; try done.
        -- simpl. lia.
        -- exists t. split; [done|]. split; [lia|]. intros _. simpl.
           by rewrite lookup_delete_eq.
        -- rewrite decide_False by lia. done.
      * rewrite Hs in *. cbn [fst] in *.
        rewrite lookup_store, decide_True by done.
        eexists. split; [done|]. split; [reflexivity|].
        rewrite Hpl, Hti in Hl.
        split_and!; try done.
        -- simpl. lia.
        -- eexists. split; [reflexivity|]. split; [|lia]. intros _.
           cbn [setTimeout snd pending]. unfold clearTimer. rewrite Ht.
           cbn [clearTimeout nextTimer pending]. apply lookup_insert_eq.
        -- rewrite decide_True by lia. split_and!; try done.
           simpl. rewrite Hpl, Hti. f_equal. f_equal. lia.
    + destruct Hcase as (Hph & Hcd & Hte).
      specialize (Hgone ltac:(lia)). unfold onTimer. rewrite Hgone.
      cbn [fst]. exists r. split_and!; try done.
      * lia.
      * exists t. split; [done|]. split; [lia | done].
      * rewrite decide_False by lia. done.
Qed.

Lemma turn_schedule_witness :
  ∃ room',
    heap (expireAll 0 (step (run initial lobbyTrace).1
                         (game_start "a" 1 0 0 0%Z)).1
            [20100%Z; 40200%Z]) !! 0 = Some room' ∧
    phase room' = Drawing ∧ currentDrawerId room' = Some "c".
Proof.
  destruct (turn_schedule (run initial lobbyTrace).1 "a" "AAAAAA" 0 lobbyRoom
              1 0 0 0%Z [20100%Z; 40200%Z]
              (ex_intro _ lobbyTrace eq_refl) lobbyTrace_room eq_refl
              ltac:(simpl; lia))
    as (room' & H1 & _ & _ & _ & H2).
  exists room'. split; [exact H1|].
  destruct H2 as (H2 & H3 & _). split; [exact H2 | exact H3].
Defined.

Lemma code_step room room' : RoomStep room room' → code room' = code room.
Proof.
  intros Hstep.
  destruct Hstep as [->| sid nm -> |rnd i j now t Hlen ->|sid st _ Hph ->
                    |sid p msg now Hin _ ->|sid tg Hph _ ->|sid tg Hph _ ->
                    |sid g Himp _ ->|sid ->|_ _ _ ->|now t _ Hlen ->];
    try done.
  - by destruct (computeVoting_frame (votedBy sid tg room)) as (-> & _).
  - by destruct (leave_frame sid room) as (-> & _).
Qed.

Lemma room_code_nonempty s ref room :
  reachable s → heap s !! ref = Some room → code room ≠ "".
Proof.
  intros Hreach Hroom.
  assert (HP : codeInv room).
  { revert Hroom. generalize room. generalize ref.
    apply room_invariant; [by eexists| |done].
    intros r r' [rnd Hr] Hstep. exists rnd.
    by rewrite (code_step _ _ Hstep). }
  destruct HP as [rnd ->]. done.
Qed.



(** ** The client *)

(** X15: for a client that holds the current snapshot of its room, the
    canvas is enabled exactly when the server accepts a stroke of that
    socket.  An accepted stroke is appended to the stroke log of the room
    and relayed to the other sockets only; the sender's local echo and
    the receivers' [draw:stroke] listener produce the snapshot of the room
    with that stroke.  A stroke sent while the canvas is disabled changes
    nothing and is not relayed. *)
Theorem canvas_matches_server (s : Server) (sid c : string) (ref : nat)
    (room : RoomState) (st : Client.State) (stroke : DrawEvent) :
  roomOf s sid = Some (c, ref, room) →
  Client.room st = Some (roomView room) → Client.playerId st = sid →
  if Client.canvasEnabled st then
    let room' := set_drawing (drawing room ++ [stroke]) room in
    step s (draw_stroke_in sid stroke)
      = (store s ref room' (timers s), [EmitOthers sid c (draw_stroke stroke)]) ∧
    Client.onStroke stroke st
      = (Client.setRoom (Some (roomView room')) st, draw_stroke_in sid stroke) ∧
    (∀ st', Client.room st' = Some (roomView room) →
       Client.room (Client.receive st' (draw_stroke stroke))
       = Some (roomView room'))
  else step s (draw_stroke_in sid stroke) = (s, []).
Proof.
  intros Hr Hroom Hid. unfold Client.canvasEnabled, Client.isMyTurn.
  rewrite Hroom, Hid. cbn [v_phase v_currentDrawerId roomView step].
  unfold onStroke. rewrite Hr.
  destruct (decide (phase room = Drawing)) as [Hph|Hph];
    destruct (decide (currentDrawerId room = Some sid)) as [Hd|Hd].
  - rewrite !bool_decide_eq_true_2 by done. cbn [andb].
    rewrite decide_False by tauto. split_and!; [done | |].
    + unfold Client.onStroke. by rewrite Hroom, Hid.
    + intros st' Hst'. simpl. by rewrite Hst'.
  - rewrite bool_decide_eq_true_2, bool_decide_eq_false_2 by done.
    cbn [andb]. by rewrite decide_True by tauto.
  - rewrite bool_decide_eq_false_2 by done.
    cbn [andb]. by rewrite decide_True by tauto.
  - rewrite bool_decide_eq_false_2 by done.
    cbn [andb]. by rewrite decide_True by tauto.
Qed.

Lemma canvas_matches_server_witness :
  step (run initial drawingTrace).1
       (draw_stroke_in "b"
          {| x0 := 0; y0 := 0; x1 := 1; y1 := 1; color := "#38bdf8";
             d_size := 4; tool := Brush |})
  = ((run initial drawingTrace).1, []).
Proof.
  exact (canvas_matches_server (run initial drawingTrace).1 "b" "AAAAAA" 0
           drawingRoom
           {| Client.room := Some (roomView drawingRoom);
              Client.playerId := "b"; Client.word := Some "Rakete";
              Client.isImposter := true |}
           _ (drawingTrace_room "b" ltac:(right; left)) eq_refl eq_refl).
Defined.

Lemma last_n_snoc {A} n (l : list A) x :
  Js.last_n (S n) (Js.last_n (S n) l ++ [x]) = Js.last_n (S n) (l ++ [x]).
Proof.
  unfold Js.last_n. rewrite !length_app, length_drop. cbn [length].
  destruct (decide (length l ≤ S n)) as [Hle|Hgt].
  - replace (length l - S n) with 0 by lia. rewrite drop_0.
    by replace (length l - 0 + 1 - S n) with (length l + 1 - S n) by lia.
  - rewrite !drop_app_le by (rewrite ?length_drop; lia).
    rewrite drop_drop. do 2 f_equal. lia.
Qed.

(** X16: a chat message of a player is cut to 200 characters, appended
    to the history and sent to the whole room.  A client that holds the
    snapshot of the room and adds the message as its [chat:new] listener
    does, holds the snapshot of the room with that message as long as the
    history had fewer than 60 messages; from then on its list keeps
    growing, and the server's snapshot is the client's view with the chat
    cut to the last 60. *)
Theorem chat_matches_server (s : Server) (sid c : string) (ref : nat)
    (room : RoomState) (p : Player) (msg : string) (now : Z)
    (st : Client.State) :
  roomOf s sid = Some (c, ref, room) →
  List.find (λ p, bool_decide (p_id p = sid)) (players room) = Some p →
  Client.room st = Some (roomView room) →
  let m := chatMessage sid p msg now in
  let room' := set_chat (chat room ++ [m]) room in
  String.length (message m) ≤ 200 ∧
  step s (chat_send sid msg now)
    = (store s ref room' (timers s), [Emit c (chat_new m)]) ∧
  ∃ v', Client.room (Client.receive st (chat_new m)) = Some v' ∧
        roomView room' = chatTail v' ∧
        (length (chat room) < 60 → v' = roomView room').
Proof.
  intros Hr Hf Hst m room'. split_and!.
  - apply length_slice0.
  - cbn [step]. unfold onChat. by rewrite Hr, Hf.
  - simpl. rewrite Hst. simpl. eexists. split; [reflexivity|].
    split.
    + unfold chatTail, roomView. simpl. f_equal.
      symmetry. apply last_n_snoc.
    + intros Hlen. unfold Client.addChat, roomView. simpl. f_equal.
      unfold Js.last_n. rewrite length_app. simpl.
      replace (length (chat room) - 60) with 0 by lia.
      replace (length (chat room) + 1 - 60) with 0 by lia.
      by rewrite !drop_0.
Qed.

Lemma chat_matches_server_witness :
  step (run initial lobbyTrace).1 (chat_send "b" "hallo" 5%Z)
  = (store (run initial lobbyTrace).1 0
       (set_chat [chatMessage "b" (newPlayer "b" "Bob" false) "hallo" 5%Z]
          lobbyRoom)
       (timers (run initial lobbyTrace).1),
     [Emit "AAAAAA"
        (chat_new (chatMessage "b" (newPlayer "b" "Bob" false) "hallo" 5%Z))]).
Proof.
  assert (Hr : roomOf (run initial lobbyTrace).1 "b"
               = Some ("AAAAAA", 0, lobbyRoom)) by (vm_compute; reflexivity).
  exact (proj1 (proj2 (chat_matches_server (run initial lobbyTrace).1 "b"
           "AAAAAA" 0 lobbyRoom (newPlayer "b" "Bob" false) "hallo" 5%Z
           {| Client.room := Some (roomView lobbyRoom);
              Client.playerId := "b"; Client.word := None;
              Client.isImposter := false |}
           Hr eq_refl eq_refl))).
Defined.

(** X17: in a reachable state, a client that holds the snapshot of its
    room takes itself for the host exactly when it is the [hostId] of the
    room.  So the button that sends [game:start] is shown exactly to the
    host of a room in the lobby, and the one that sends [round:next]
    exactly to the host of a room showing results. *)
Theorem client_host (s : Server) (sid c : string) (ref : nat)
    (room : RoomState) (st : Client.State) :
  reachable s →
  roomOf s sid = Some (c, ref, room) →
  Client.room st = Some (roomView room) → Client.playerId st = sid →
  (Client.isHost st = Some true ↔ hostId room = sid) ∧
  (Client.startShown st = true ↔ hostId room = sid ∧ phase room = Lobby) ∧
  (Client.nextRoundShown st = true ↔
     hostId room = sid ∧ phase room = Results).
Proof.
  intros Hreach Hr Hst Hid.
  pose proof (reachable_invariant _ Hreach) as Hinv.
  apply roomOf_Some in Hr as (_ & _ & Hrooms & Hheap).
  destruct (inv_rooms _ Hinv _ _ Hrooms) as (room0 & Hroom0 & _ & Hne).
  rewrite Hheap in Hroom0. injection Hroom0 as <-.
  pose proof (inv_host _ Hinv _ _ Hheap) as Hhost.
  assert (Hiff : Client.isHost st = Some true ↔ hostId room = sid).
  { unfold Client.isHost. rewrite Hst, Hid. cbn [mbind option_bind].
    change (v_players (roomView room)) with (players room).
    unfold hostInv in Hhost.
    destruct (players room) as [|p ps]; [done|].
    destruct Hhost as (Hp & Hpid & Hall). cbn [List.find].
    destruct (bool_decide_reflect (p_id p = sid)) as [Hsid|Hsid];
      cbn [mbind option_bind].
    - rewrite Hp. split; [by rewrite <- Hpid|done].
    - rewrite <- Hpid. split; [|done].
      destruct (List.find _ ps) as [q|] eqn:Hq; [|done].
      apply find_some in Hq as [Hin _].
      rewrite Forall_forall in Hall. cbn [mbind option_bind].
      rewrite (Hall q) by by apply list_elem_of_In. done. }
  split; [done|]. unfold Client.startShown, Client.nextRoundShown.
  rewrite Hst. cbn [roomView v_phase].
  rewrite !andb_true_iff, !bool_decide_eq_true. tauto.
Qed.

Lemma client_host_witness :
  Client.startShown
    {| Client.room := Some (roomView lobbyRoom); Client.playerId := "a";
       Client.word := None; Client.isImposter := false |} = true
  ↔ hostId lobbyRoom = "a" ∧ phase lobbyRoom = Lobby.
Proof.
  exact (proj1 (proj2 (client_host (run initial lobbyTrace).1 "a" "AAAAAA" 0
           lobbyRoom
           {| Client.room := Some (roomView lobbyRoom);
              Client.playerId := "a"; Client.word := None;
              Client.isImposter := false |}
           (ex_intro _ lobbyTrace eq_refl) lobbyTrace_room
           eq_refl eq_refl))).
Defined.

Lemma sort_insert_perm {A} (cmp : A → A → Z) x l :
  Js.sort_insert cmp x l ≡ₚ x :: l.
Proof.
  induction l as [|y l IH]; simpl; [done|].
  destruct (cmp x y <=? 0)%Z; [done|].
  rewrite IH. apply Permutation_swap.
Qed.

Lemma sort_perm {A} (cmp : A → A → Z) l : Js.sort cmp l ≡ₚ l.
Proof.
  induction l as [|x l IH]; simpl; [done|].
  unfold Js.sort in *. by rewrite sort_insert_perm, IH.
Qed.

Lemma descending_insert x l :
  descending l → descending (Js.sort_insert Client.byWinsDesc x l).
Proof.
  induction l as [|y l IH]; simpl; [done|].
  intros [Hy Hl]. unfold Client.byWinsDesc at 1.
  destruct (Z.leb_spec (Z.of_nat (row_wins y) - Z.of_nat (row_wins x)) 0).
  - simpl. split_and!; [|done|done].
    constructor; [lia|]. eapply Forall_impl; [exact Hy|].
    simpl. intros; lia.
  - simpl. split; [|by apply IH].
    rewrite sort_insert_perm. constructor; [lia|done].
Qed.

Lemma filter_insert w x l :
  filter (λ r, row_wins r = w) (Js.sort_insert Client.byWinsDesc x l)
  = filter (λ r, row_wins r = w) (x :: l).
Proof.
  induction l as [|y l IH]; simpl; [done|].
  unfold Client.byWinsDesc at 1.
  destruct (Z.leb_spec (Z.of_nat (row_wins y) - Z.of_nat (row_wins x)) 0);
    [done|].
  rewrite (filter_cons _ y), IH, !filter_cons.
  destruct (decide (row_wins y = w)), (decide (row_wins x = w)); try done.
  lia.
Qed.

(** X18: the leaderboard that the client shows has the rows of the
    snapshot, each as often as there, in an order in which no row has more
    wins than a row before it; rows with equally many wins keep the order
    of the snapshot, which is the order of the players. *)
Theorem leaderboard_shown (v : RoomView) :
  Client.leaderboardShown v ≡ₚ v_leaderboard v ∧
  descending (Client.leaderboardShown v) ∧
  ∀ w, filter (λ r, row_wins r = w) (Client.leaderboardShown v)
       = filter (λ r, row_wins r = w) (v_leaderboard v).
Proof.
  unfold Client.leaderboardShown. split; [apply sort_perm|].
  generalize (v_leaderboard v). intros l.
  induction l as [|x l [IH1 IH2]]; [done|].
  change (Js.sort Client.byWinsDesc (x :: l))
    with (Js.sort_insert Client.byWinsDesc x (Js.sort Client.byWinsDesc l)).
  split; [by apply descending_insert|].
  intros w. by rewrite filter_insert, !filter_cons, IH2.
Qed.

(** ** The client stays in step with its room *)

Lemma receive_quiet st ps :
  Forall quiet ps →
  Client.room (foldl Client.receive st ps) = Client.room st.
Proof.
  intros Hq. revert st. induction Hq as [|p ps Hp _ IH]; intros st; [done|].
  simpl. rewrite IH. by destruct p.
Qed.

Lemma delivered_app me c l1 l2 :
  delivered me c (l1 ++ l2) = delivered me c l1 ++ delivered me c l2.
Proof. apply omap_app. Qed.

Lemma delivered_quiet me c outs :
  Forall quietOut outs → Forall quiet (delivered me c outs).
Proof.
  induction 1 as [|o outs Ho _ IH]; [constructor|].
  unfold delivered. cbn [omap list_omap].
  destruct o as [to p|sender to p| |]; cbn [quietOut] in Ho; try done.
  - destruct (decide (to = c ∨ to = me)); [by constructor|done].
  - destruct (decide ((to = c ∨ to = me) ∧ sender ≠ me));
      [by constructor|done].
Qed.

Lemma last_n_idemp {A} n (l : list A) :
  Js.last_n n (Js.last_n n l) = Js.last_n n l.
Proof.
  unfold Js.last_n. rewrite length_drop.
  replace (length l - (length l - n) - n) with 0 by lia. done.
Qed.

Lemma chatTail_roomView room : chatTail (roomView room) = roomView room.
Proof. unfold chatTail, roomView. simpl. f_equal. apply last_n_idemp. Qed.

Lemma inSync_update me st pre r post room' :
  Forall quietOut post → roomView r = roomView room' →
  inSync (foldl Client.receive st
            (delivered me (code r) (pre ++ emitRoom r ++ post))) room'.
Proof.
  intros Hq Hv. unfold inSync.
  rewrite !delivered_app, !foldl_app, receive_quiet
    by by apply delivered_quiet.
  unfold emitRoom, delivered. cbn [omap list_omap].
  rewrite decide_True by by left. cbn [foldl Client.receive Client.setRoom
    Client.room fmap option_fmap option_map].
  by rewrite chatTail_roomView, Hv.
Qed.

Lemma broadcastWords_quiet room : Forall quietOut (broadcastWords room).
Proof.
  unfold broadcastWords. apply Forall_fmap, Forall_forall. by intros p _.
Qed.

Lemma inSync_announces me st room' outs :
  announces room' outs →
  inSync (foldl Client.receive st (delivered me (code room') outs)) room'.
Proof.
  intros (pre & r & post & -> & Hq & Hv & <-). by apply inSync_update.
Qed.

Lemma startTurn_announces self now room tm :
  players room ≠ [] →
  announces (startTurn self now room tm).1.1 (startTurn self now room tm).2.
Proof.
  intros Hne. unfold startTurn.
  rewrite decide_False by (by intros ?%nil_length_inv).
  case_decide; cbn [fst snd].
  - eexists [], _, _. split; [reflexivity|].
    split; [by repeat constructor|done].
  - eexists [], _, _. split; [reflexivity|].
    split; [by repeat constructor|done].
Qed.

Lemma startGame_announces self rnd i j now room tm :
  3 ≤ length (players room) →
  announces (startGame self rnd i j now room tm).1.1
            (startGame self rnd i j now room tm).2.
Proof.
  intros Hlen. unfold startGame. rewrite decide_False by lia.
  destruct (pickWordPair i j) as [real fake].
  set (room1 := set_secrets _ _ _ _).
  destruct (startTurn_announces self now room1 tm)
    as (pre & r & post & Hout & Hq & Hv & Hc).
  { intros Hnil. subst room1. simpl in Hnil. rewrite Hnil in Hlen.
    simpl in Hlen. lia. }
  destruct (startTurn self now room1 tm) as [[room2 tm2] out2].
  cbn [fst snd] in *. subst out2.
  exists ((broadcastWords room1 ++ [Emit (code room1) (sfx "turn")]) ++ pre),
    r, post.
  by rewrite <- !app_assoc.
Qed.

Lemma computeVoting_announces room :
  announces (computeVoting room).1 (computeVoting room).2.
Proof.
  unfold computeVoting. cbn [fst snd].
  eexists [], _, _. split; [reflexivity|].
  split; [by repeat constructor|done].
Qed.

Lemma chatTail_addStroke stroke v room :
  chatTail v = roomView room →
  chatTail (Client.addStroke stroke v)
  = roomView (set_drawing (drawing room ++ [stroke]) room).
Proof.
  intros Hv.
  change (chatTail (Client.addStroke stroke v))
    with (Client.addStroke stroke (chatTail v)).
  by rewrite Hv.
Qed.

Lemma chatTail_addChat m v room :
  chatTail v = roomView room →
  chatTail (Client.addChat m v) = roomView (set_chat (chat room ++ [m]) room).
Proof.
  destruct v as [? ? ? ? ? ? ? ? ch ? ?].
  unfold chatTail, roomView, Client.addChat.
  cbn -[Js.last_n]. intros [= -> -> -> -> -> -> -> -> Hchat -> ->].
  f_equal.
  rewrite <- (last_n_snoc 59 (chat room)), <- (last_n_snoc 59 ch).
  by rewrite Hchat.
Qed.

(** X19: a client whose view agrees with a room object still agrees with
    it after any step of a reachable server that changes the object and
    leaves it with players, once it has handled, in order, the events of
    that step that reach it (a client that sends a stroke has added it
    itself and is left out here).  The chat of the view may be longer than
    the 60 messages of a snapshot. *)
Theorem client_sync (s : Server) (a : Action) (ref : nat)
    (room room' : RoomState) (me : string) (st : Client.State) :
  reachable s →
  heap s !! ref = Some room → heap (step s a).1 !! ref = Some room' →
  room' ≠ room → players room' ≠ [] →
  (∀ stroke, a ≠ draw_stroke_in me stroke) →
  inSync st room →
  inSync (foldl Client.receive st (delivered me (code room) (step s a).2))
         room'.
Proof.
  intros Hreach Href Href' Hch Hne Hme Hst.
  pose proof (reachable_invariant _ Hreach) as Hinv.
  pose proof (step_room _ a _ _ _ Hinv Href Href') as Hstep.
  rewrite <- (code_step _ _ Hstep).
  assert (Hcode : ∀ sid c ref0 room0,
            roomOf s sid = Some (c, ref0, room0) →
            heap s !! ref0 = Some room0 ∧ code room0 = c).
  { intros sid c ref0 room0 (_ & _ & Hr & Hh)%roomOf_Some.
    destruct (inv_rooms _ Hinv _ _ Hr) as (r & Hr' & <- & _).
    split; congruence. }
  assert (Hstore : ∀ ref0 room0 x tm,
            heap s !! ref0 = Some room0 →
            heap (store s ref0 x tm) !! ref = Some room' →
            ref0 = ref ∧ room0 = room ∧ x = room').
  { intros ref0 room0 x tm H0 H. rewrite lookup_store in H.
    case_decide; [split_and!; congruence|congruence]. }
  assert (Hsame : ∀ outs : list Out,
            heap (s, outs).1 !! ref = Some room' → False)
    by (cbn [fst]; congruence).
  destruct a; cbn [step] in *.
  - (* room:create *)
    cbn [onCreate fst heap] in Href'.
    rewrite lookup_insert_ne in Href'
      by (apply (inv_fresh _ Hinv) in Href; lia).
    congruence.
  - (* room:join *)
    unfold onJoin in *.
    destruct (rooms s !! Js.toUpperCase c) as [ref0|];
      [|by (exfalso; eapply Hsame)].
    destruct (heap s !! ref0) as [room0|] eqn:Hroom0;
      [|by (exfalso; eapply Hsame)].
    cbn [fst snd] in *.
    destruct (Hstore ref0 room0 _ (timers s) Hroom0 Href') as (-> & -> & <-).
    apply inSync_announces.
    eexists [_], _, [_]. split; [reflexivity|].
    split; [by repeat constructor|done].
  - (* game:start *)
    unfold onStart in *.
    destruct (roomOf s sid) as [[[c ref0] room0]|] eqn:Hr;
      [|by (exfalso; eapply Hsame)].
    destruct (Hcode _ _ _ _ Hr) as [Hroom0 <-].
    destruct (decide (hostId room0 ≠ sid)); [by (exfalso; eapply Hsame)|].
    destruct (startGame_cases ref0 rnd i j now room0 (timers s))
      as [[_ Hs]|[Hlen _]].
    { rewrite Hs, store_same in Href' by done. congruence. }
    pose proof (startGame_announces ref0 rnd i j now room0 (timers s) Hlen)
      as Hann.
    destruct (startGame ref0 rnd i j now room0 (timers s)) as [[r tm] out].
    cbn [fst snd] in *.
    destruct (Hstore ref0 room0 _ _ Hroom0 Href') as (-> & -> & <-).
    by apply inSync_announces.
  - (* draw:stroke *)
    unfold onStroke in *.
    destruct (roomOf s sid) as [[[c ref0] room0]|] eqn:Hr;
      [|by (exfalso; eapply Hsame)].
    destruct (Hcode _ _ _ _ Hr) as [Hroom0 <-].
    destruct (decide (currentDrawerId room0 ≠ Some sid ∨ phase room0 ≠ Drawing));
      [by (exfalso; eapply Hsame)|].
    cbn [fst snd] in *.
    destruct (Hstore ref0 room0 _ _ Hroom0 Href') as (-> & -> & <-).
    unfold delivered. cbn [omap list_omap code set_drawing].
    rewrite decide_True
      by (split; [by left | intros ->; by eapply Hme]).
    unfold inSync in *. cbn [foldl Client.receive Client.setRoom Client.room].
    destruct (Client.room st) as [v|]; [|done].
    cbn [fmap option_fmap option_map] in *. apply (inj Some) in Hst.
    f_equal. by apply chatTail_addStroke.
  - (* chat:send *)
    unfold onChat in *.
    destruct (roomOf s sid) as [[[c ref0] room0]|] eqn:Hr;
      [|by (exfalso; eapply Hsame)].
    destruct (Hcode _ _ _ _ Hr) as [Hroom0 <-].
    destruct (List.find _ (players room0)) as [p|];
      [|by (exfalso; eapply Hsame)].
    cbn [fst snd] in *.
    destruct (Hstore ref0 room0 _ _ Hroom0 Href') as (-> & -> & <-).
    unfold delivered. cbn [omap list_omap code set_chat].
    rewrite decide_True by by left.
    unfold inSync in *. cbn [foldl Client.receive Client.setRoom Client.room].
    destruct (Client.room st) as [v|]; [|done].
    cbn [fmap option_fmap option_map] in *. apply (inj Some) in Hst.
    f_equal. by apply chatTail_addChat.
  - (* vote:submit *)
    destruct (onVote_shape sid targetId s)
      as [Hs|(c & ref0 & room0 & Hr & Hph & [[Hlen Hs]|[Hlen Hs]])];
      rewrite Hs in *; [by (exfalso; eapply Hsame)| |];
      destruct (Hcode _ _ _ _ Hr) as [Hroom0 <-]; cbn [fst snd] in *;
      destruct (Hstore ref0 room0 _ _ Hroom0 Href') as (-> & -> & <-);
      apply inSync_announces.
    + destruct (computeVoting_announces (votedBy sid targetId room))
        as (pre & r & post & Hout & Hq & Hv & Hc).
      fold (votedBy sid targetId room). rewrite Hout.
      exists ((emitRoom (votedBy sid targetId room) ++
               [Emit (code room) (sfx "voting")]) ++ pre), r, post.
      split; [by rewrite <- !app_assoc|done].
    + eexists [], _, []. split; [reflexivity|].
      split; [by repeat constructor|done].
  - (* imposter:guess *)
    destruct (onGuess_shape sid guess s)
      as [Hs|(c & ref0 & room0 & Hr & Himp & [[Hg Hs]|[Hg Hs]])];
      rewrite Hs in *; try by (exfalso; eapply Hsame).
    destruct (Hcode _ _ _ _ Hr) as [Hroom0 <-]. cbn [fst snd] in *.
    destruct (Hstore ref0 room0 _ _ Hroom0 Href') as (-> & -> & <-).
    apply inSync_announces.
    eexists [], _, [_; _]. split; [reflexivity|].
    split; [by repeat constructor|done].
  - (* round:next *)
    unfold onStart in *.
    destruct (roomOf s sid) as [[[c ref0] room0]|] eqn:Hr;
      [|by (exfalso; eapply Hsame)].
    destruct (Hcode _ _ _ _ Hr) as [Hroom0 <-].
    destruct (decide (hostId room0 ≠ sid)); [by (exfalso; eapply Hsame)|].
    destruct (startGame_cases ref0 rnd i j now room0 (timers s))
      as [[_ Hs]|[Hlen _]].
    { rewrite Hs, store_same in Href' by done. congruence. }
    pose proof (startGame_announces ref0 rnd i j now room0 (timers s) Hlen)
      as Hann.
    destruct (startGame ref0 rnd i j now room0 (timers s)) as [[r tm] out].
    cbn [fst snd] in *.
    destruct (Hstore ref0 room0 _ _ Hroom0 Href') as (-> & -> & <-).
    by apply inSync_announces.
  - (* disconnect *)
    unfold onDisconnect in *.
    destruct (socketToRoom s !! sid) as [c|] eqn:Hc;
      [|by (exfalso; eapply Hsame)].
    destruct (decide (c = "")); [by (exfalso; eapply Hsame)|].
    cbn [rooms heap] in *.
    destruct (rooms s !! c) as [ref0|] eqn:Hr; cbn [mbind option_bind] in *;
      [|cbn [fst heap] in Href'; congruence].
    destruct (heap s !! ref0) as [room0|] eqn:Hroom0;
      cbn [fmap option_fmap option_map] in *;
      [|cbn [fst heap] in Href'; congruence].
    destruct (decide (length (players (leave sid room0)) = 0)) as [Hz|Hz];
      cbn [fst snd heap store] in *;
      rewrite lookup_insert in Href'; case_decide; simplify_eq.
    + by apply nil_length_inv in Hz.
    + apply inSync_announces.
      eexists [], _, []. split; [reflexivity|].
      split; [by repeat constructor|done].
  - (* timeout *)
    unfold onTimer in *.
    destruct (pending (timers s) !! t) as [ref0|] eqn:Ht;
      [|by (exfalso; eapply Hsame)].
    destruct (heap s !! ref0) as [room0|] eqn:Hroom0;
      [|by (exfalso; eapply Hsame)].
    destruct (inv_timer _ Hinv _ _ Ht) as (_ & r0 & Hr0 & _ & Hpl & _).
    rewrite Hroom0 in Hr0. injection Hr0 as <-.
    unfold onTimeout in *.
    pose proof (startTurn_announces ref0 now
                  (set_turnIndex (turnIndex room0 + 1) room0)
                  (clearTimeout t (timers s)) Hpl) as Hann.
    destruct (startTurn ref0 now _ _) as [[r tm] out].
    cbn [fst snd] in *.
    destruct (Hstore ref0 room0 _ _ Hroom0 Href') as (-> & -> & <-).
    by apply inSync_announces.
Qed.

Lemma client_sync_witness :
  inSync
    (foldl Client.receive
       {| Client.room := Some (roomView lobbyRoom); Client.playerId := "b";
          Client.word := None; Client.isImposter := false |}
       (delivered "b" (code lobbyRoom)
          (step (run initial lobbyTrace).1 (game_start "a" 1 0 0 0%Z)).2))
    drawingRoom.
Proof.
  exact (client_sync (run initial lobbyTrace).1 (game_start "a" 1 0 0 0%Z) 0
           lobbyRoom drawingRoom "b"
           {| Client.room := Some (roomView lobbyRoom);
              Client.playerId := "b"; Client.word := None;
              Client.isImposter := false |}
           (ex_intro _ lobbyTrace eq_refl)
           ltac:(vm_compute; reflexivity)
           ltac:(vm_compute; reflexivity)
           ltac:(intros H; apply (f_equal phase) in H; discriminate H)
           ltac:(simpl; discriminate)
           ltac:(intros stroke H; discriminate H)
           ltac:(vm_compute; reflexivity)).
Defined.

(** X20: the identity that the client keeps from the acknowledgement of
    [room:create] or [room:join] is the socket's: the one under which the
    server has registered the socket to a room and entered it in the
    player list.  When the join is refused, the client keeps its state and
    the server its own. *)
Theorem client_identity (s : Server) (sid nm c : string) (rnd : nat)
    (r : Reply) (st : Client.State) :
  reachable s →
  (Ack sid r ∈ (step s (room_create sid nm rnd)).2 →
     Client.playerId (Client.created st r) = sid ∧
     registeredPlayer (step s (room_create sid nm rnd)).1 sid) ∧
  (Ack sid r ∈ (step s (room_join sid c nm)).2 →
     (∃ msg, r = reply_error msg) ∧ Client.joined st r = st ∧
       (step s (room_join sid c nm)).1 = s ∨
     Client.playerId (Client.joined st r) = sid ∧
       registeredPlayer (step s (room_join sid c nm)).1 sid).
Proof.
  intros Hreach. pose proof (reachable_invariant _ Hreach) as Hinv.
  split; cbn [step].
  - unfold onCreate. cbn [fst snd app emitRoom].
    rewrite !elem_of_cons, elem_of_nil.
    intros [[=]|[[=]|[[= ->]|[]]]].
    assert (Hne : makeRoomCode rnd ≠ "") by done.
    split.
    + unfold Client.created. by rewrite decide_False.
    + eexists _, _, _. split.
      * apply roomOf_Some. cbn [socketToRoom rooms heap].
        rewrite !lookup_insert_eq. done.
      * cbn [players]. set_solver.
  - unfold onJoin.
    destruct (rooms s !! Js.toUpperCase c) as [ref|] eqn:Hc.
    + destruct (inv_rooms _ Hinv _ _ Hc) as (room & Hroom & Hcode & _).
      rewrite Hroom. cbn [fst snd app emitRoom].
      rewrite !elem_of_cons, elem_of_nil.
      intros [[=]|[[=]|[[= ->]|[]]]]. right. split; [done|].
      pose proof (room_code_nonempty _ _ _ Hreach Hroom) as Hne.
      eexists _, _, _. split.
      * apply roomOf_Some.
        cbn [socketToRoom rooms heap code set_leaderboard set_players].
        rewrite !lookup_insert_eq. rewrite Hcode, Hc.
        split_and!; [done | by rewrite <- Hcode | done | done].
      * cbn [players set_leaderboard set_players].
        rewrite fmap_app. set_solver.
    + cbn [fst snd]. rewrite list_elem_of_singleton. intros [= ->].
      left. eauto.
Qed.

Lemma client_identity_witness :
  Client.playerId
    (Client.joined
       {| Client.room := None; Client.playerId := ""; Client.word := None;
          Client.isImposter := false |} (reply_room "AAAAAA" "d")) = "d" ∧
  registeredPlayer
    (step (run initial lobbyTrace).1 (room_join "d" "aaaaaa" "Dan")).1 "d".
Proof.
  destruct (proj2 (client_identity (run initial lobbyTrace).1 "d" "Dan"
                     "aaaaaa" 0 (reply_room "AAAAAA" "d")
                     {| Client.room := None; Client.playerId := "";
                        Client.word := None; Client.isImposter := false |}
                     (ex_intro _ lobbyTrace eq_refl))
                  ltac:(vm_compute; repeat constructor))
    as [[[msg Hmsg] _]|H].
  - discriminate Hmsg.
  - exact H.
Defined.

(** X21: the voting panel of a client that holds the snapshot of its room
    has buttons only while the room is voting, each for a player of the
    room; the vote that a button submits is accepted by the server, which
    records it for the socket, keeping every other vote; when the voters
    are then as many as the players, the round is resolved, the room shows
    the results and [phase:results] is sent; otherwise nothing else changes
    and nothing is resolved. *)
Theorem vote_buttons (s : Server) (sid c : string) (ref : nat)
    (room : RoomState) (target : string) :
  roomOf s sid = Some (c, ref, room) →
  target ∈ Client.voteTargets (roomView room) →
  phase room = Voting ∧ target ∈ p_id <$> players room ∧
  ∃ room',
    heap (step s (vote_submit sid target)).1 !! ref = Some room' ∧
    votes room' = Js.set (votes room) sid target ∧
    players room' = players room ∧
    if decide (length (players room) ≤ length (Js.keys (votes room')))
    then phase room' = Results ∧
         announcesResults (step s (vote_submit sid target)).2 = true
    else room' = votedBy sid target room ∧
         announcesResults (step s (vote_submit sid target)).2 = false.
Proof.
  intros Hr. unfold Client.voteTargets. cbn [roomView v_phase v_players].
  case_decide as Hph; [|by intros ?%elem_of_nil].
  intros Hin. split_and!; [done..|].
  cbn [step]. unfold onVote. rewrite Hr, decide_False by (by intros []).
  cbv zeta. fold (votedBy sid target room).
  destruct (computeVoting_frame (votedBy sid target room))
    as (_ & Hpl & _ & _ & Hres & _ & Hvotes & _).
  destruct (decide (length (players (votedBy sid target room))
                    ≤ length (Js.keys (votes (votedBy sid target room)))))
    as [Hlen|Hlen].
  - destruct (computeVoting (votedBy sid target room)) as [r out] eqn:Hcv.
    cbn [fst snd] in *. exists r.
    rewrite lookup_store, decide_True by done.
    split_and!; [done | by rewrite Hvotes | by rewrite Hpl |].
    rewrite Hvotes. rewrite decide_True by exact Hlen.
    split; [done|].
    assert (Hout : out = (computeVoting (votedBy sid target room)).2)
      by (by rewrite Hcv).
    rewrite Hout. unfold computeVoting, announcesResults. cbn [snd].
    rewrite !existsb_app. cbn [existsb is_resolution].
    by rewrite !orb_true_r.
  - cbn [fst snd]. exists (votedBy sid target room).
    rewrite lookup_store, decide_True by done.
    split_and!; [done..|].
    rewrite decide_False by exact Hlen. done.
Qed.

Lemma vote_buttons_witness :
  phase votedRoom = Voting ∧ "b" ∈ p_id <$> players votedRoom ∧
  ∃ room',
    heap (step (run initial (votingTrace ++ [vote_submit "c" "a"])).1
            (vote_submit "a" "b")).1 !! 0 = Some room' ∧
    votes room' = Js.set (votes votedRoom) "a" "b" ∧
    players room' = players votedRoom ∧
    if decide (length (players votedRoom) ≤ length (Js.keys (votes room')))
    then phase room' = Results ∧
         announcesResults
           (step (run initial (votingTrace ++ [vote_submit "c" "a"])).1
              (vote_submit "a" "b")).2 = true
    else room' = votedBy "a" "b" votedRoom ∧
         announcesResults
           (step (run initial (votingTrace ++ [vote_submit "c" "a"])).1
              (vote_submit "a" "b")).2 = false.
Proof.
  exact (vote_buttons (run initial (votingTrace ++ [vote_submit "c" "a"])).1
           "a" "AAAAAA" 0 votedRoom "b"
           ltac:(vm_compute; reflexivity)
           ltac:(vm_compute; repeat constructor)).
Defined.
